(** * WikiRacer: a shallow embedding of the bidirectional wiki-path search

    The development follows [main.go] (the command-line searcher) and the
    API-server copy of the same engine.  Go strings are byte strings and are
    modelled as [String.string]; [sync.Map] is a [gmap]; the two searcher
    word tables (Go [map[string]bool] holding only [true]) are [gset]s.

    Go's [int] is 64 bits wide.  Every integer the engine computes is a
    score [100 - 25 - 40*a - 20*b - 10 - 5 + 15] with [a] and [b] bounded by
    the byte length of one title, or a slice index, so no operation can leave
    the 64-bit range and the integers are modelled by [Z] and [nat]. *)

From Stdlib Require Import ZArith String Ascii List Bool Lia.
From stdpp Require Import base gmap strings list.

Open Scope string_scope.

(** ** Go strings: bytes, runes, [strings.Fields], [strings.Contains] *)

Module GoString.

Definition byte (a : ascii) : Z := Z.of_N (N_of_ascii a).

Definition len (s : string) : nat := String.length s.

Definition takeBytes (n : nat) (s : string) : string := String.substring 0 n s.

Definition dropBytes (n : nat) (s : string) : string :=
  String.substring n (String.length s - n) s.

(** [utf8.RuneError] *)
Definition RuneError : Z := 0xFFFD.

Definition cont (b : Z) : Z := Z.land b 0x3F.

(** [utf8.DecodeRuneInString]: the first rune of [s] and its width in
    bytes.  An invalid or truncated encoding yields [(RuneError, 1)]. *)
Definition DecodeRune (s : string) : Z * nat :=
  match s with
  | EmptyString => (RuneError, 0%nat)
  | String c0 t0 =>
    let p0 := byte c0 in
    if (p0 <? 0x80)%Z then (p0, 1%nat)
    else if ((p0 <? 0xC2) || (0xF4 <? p0))%Z then (RuneError, 1%nat)
    else
      let lo := (if p0 =? 0xE0 then 0xA0 else if p0 =? 0xF0 then 0x90 else 0x80)%Z in
      let hi := (if p0 =? 0xED then 0x9F else if p0 =? 0xF4 then 0x8F else 0xBF)%Z in
      match t0 with
      | EmptyString => (RuneError, 1%nat)
      | String c1 t1 =>
        let b1 := byte c1 in
        if ((b1 <? lo) || (hi <? b1))%Z then (RuneError, 1%nat)
        else if (p0 <? 0xE0)%Z then
          (Z.lor (Z.shiftl (Z.land p0 0x1F) 6) (cont b1), 2%nat)
        else
          match t1 with
          | EmptyString => (RuneError, 1%nat)
          | String c2 t2 =>
            let b2 := byte c2 in
            if ((b2 <? 0x80) || (0xBF <? b2))%Z then (RuneError, 1%nat)
            else if (p0 <? 0xF0)%Z then
              (Z.lor (Z.shiftl (Z.land p0 0x0F) 12)
                 (Z.lor (Z.shiftl (cont b1) 6) (cont b2)), 3%nat)
            else
              match t2 with
              | EmptyString => (RuneError, 1%nat)
              | String c3 _ =>
                let b3 := byte c3 in
                if ((b3 <? 0x80) || (0xBF <? b3))%Z then (RuneError, 1%nat)
                else
                  (Z.lor (Z.shiftl (Z.land p0 0x07) 18)
                     (Z.lor (Z.shiftl (cont b1) 12)
                        (Z.lor (Z.shiftl (cont b2) 6) (cont b3))), 4%nat)
              end
          end
      end
  end.

(** What [for _, r := range s] iterates over: every rune of [s] together
    with the bytes that encode it.  [fuel] bounds the number of runes; the
    byte length is always enough. *)
Fixpoint decode (fuel : nat) (s : string) : list (Z * string) :=
  match fuel, s with
  | S fuel', String _ _ =>
    let '(r, w) := DecodeRune s in
    (r, takeBytes w s) :: decode fuel' (dropBytes w s)
  | _, _ => []
  end.

Definition runes (s : string) : list Z := (decode (len s) s).*1.

(** [unicode.IsSpace] *)
Definition IsSpace (r : Z) : bool :=
  ((r =? 0x09) || (r =? 0x0A) || (r =? 0x0B) || (r =? 0x0C) || (r =? 0x0D)
   || (r =? 0x20) || (r =? 0x85) || (r =? 0xA0) || (r =? 0x1680)
   || ((0x2000 <=? r) && (r <=? 0x200A)) || (r =? 0x2028) || (r =? 0x2029)
   || (r =? 0x202F) || (r =? 0x205F) || (r =? 0x3000))%Z.

Fixpoint fieldsOf (rs : list (Z * string)) (cur : option string) : list string :=
  match rs with
  | [] => match cur with Some w => [w] | None => [] end
  | (r, bs) :: rs' =>
    if IsSpace r then
      match cur with
      | Some w => w :: fieldsOf rs' None
      | None => fieldsOf rs' None
      end
    else fieldsOf rs' (Some (match cur with Some w => w ++ bs | None => bs end))
  end.

(** [strings.Fields]: the maximal runs of non-space runes, in order. *)
Definition Fields (s : string) : list string := fieldsOf (decode (len s) s) None.

(** [strings.Contains]: [sub] occurs in [s] as a run of bytes. *)
Fixpoint Contains (s sub : string) : bool :=
  String.prefix sub s ||
  match s with
  | EmptyString => false
  | String _ t => Contains t sub
  end.

(** The restriction of [strings.ToLower] to ASCII letters; it agrees with
    the Go function on every string made of ASCII bytes. *)
Definition lowerByte (a : ascii) : ascii :=
  let b := N_of_ascii a in
  if ((65 <=? b) && (b <=? 90))%N then ascii_of_N (b + 32) else a.

Fixpoint asciiToLower (s : string) : string :=
  match s with
  | EmptyString => EmptyString
  | String c t => String (lowerByte c) (asciiToLower t)
  end.

End GoString.

Import GoString.

(** ** Data model *)

(** [wikiAPIs] (identical to [apiWikiAPIs] of the API server) *)
Definition wikiAPIs : gmap string string :=
  list_to_map
    [ ("en", "https://en.wikipedia.org/w/api.php");
      ("ru", "https://ru.wikipedia.org/w/api.php");
      ("de", "https://de.wikipedia.org/w/api.php");
      ("fr", "https://fr.wikipedia.org/w/api.php");
      ("es", "https://es.wikipedia.org/w/api.php");
      ("it", "https://it.wikipedia.org/w/api.php");
      ("pt", "https://pt.wikipedia.org/w/api.php");
      ("uk", "https://uk.wikipedia.org/w/api.php") ].

Record WikiNode := mkNode {
  Title : string;
  Lang : string;
  Priority : Z;
  Index : Z
}.

#[global] Instance WikiNode_eq_dec : EqDecision WikiNode.
Proof. solve_decision. Defined.

(** [WikiNode{Title: t, Lang: l}], the other fields zero *)
Definition node (l t : string) : WikiNode := mkNode t l 0 0.

Record LangLink := mkLangLink { llLang : string; llTitle : string }.

(** One entry of [WikiResponse.Query.Pages] *)
Record Page := mkPage {
  pageTitle : string;
  Links : list string;
  LinksHere : list string;
  LangLinks : list LangLink
}.

(** The decoded [WikiResponse]: its pages in the order the [range] over the
    Go map happens to visit them. *)
Definition WikiResponse := list Page.

(** One entry of the probe's [data.Query.Pages]: the map key and the two
    decoded fields. *)
Record ProbePage := mkProbePage {
  ppId : string;
  ppTitle : string;
  ppMissing : bool
}.

(** What the collector loop of [detectLang] has received from the probe of
    one language when it stops: [None] when the request could not be built,
    the transport failed, the body did not decode, or the answer came after
    the 500 ms deadline; otherwise the decoded pages in [range] order. *)
Definition ProbeOracle := string -> option (list ProbePage).

(** The heuristic fields of [Searcher]; [APISearcher] carries the same four. *)
Record Searcher := mkSearcher {
  targetLang : string;
  startLang : string;
  startWords : gset string;
  targetWords : gset string
}.

Record APISearcher := mkAPISearcher {
  api_targetLang : string;
  api_startLang : string;
  api_startWords : gset string;
  api_targetWords : gset string
}.

(** ** The shared search state *)

(** What [s.client.Do(req)] hands back.  [TransportError] is [err != nil]
    (connection failure, per-request timeout, cancelled or expired context).
    Otherwise a response arrived: its status code, and what
    [json.NewDecoder(resp.Body).Decode(&data)] makes of its body, [None]
    when the decoder reports an error. *)
Inductive HttpOutcome :=
| TransportError
| Response (status : Z) (body : option WikiResponse).

(** The transport: the outcome of the [n]-th call of [client.Do] of a
    search, for the request built from [(titles, lang, dir)]. *)
Definition Transport := nat -> list string -> string -> string -> HttpOutcome.

Record Call := mkCall {
  callTitles : list string;
  callLang : string;
  callDir : string;
  callOutcome : HttpOutcome
}.

(** The fields of [Searcher] that a search mutates.  A value of a visited
    map is [None] for the typed nil pointer stored for the two roots and [Some p] for a pointer to a parent node; the pointed
    node is never written after it is stored.  [calls] is not a field of
    the Go struct: it records every [client.Do] in order, so that
    statements can count them. *)
Record State := mkState {
  visitedF : gmap string (option WikiNode);
  visitedB : gmap string (option WikiNode);
  found : bool;
  result : list WikiNode;
  reqCount : Z;
  cancelled : bool;
  calls : list Call
}.

Definition newState : State := mkState ∅ ∅ false [] 0 false [].

Inductive MapRef := VisitedF | VisitedB.

Definition getMap (m : MapRef) (st : State) : gmap string (option WikiNode) :=
  match m with VisitedF => visitedF st | VisitedB => visitedB st end.

Definition setMap (m : MapRef) (v : gmap string (option WikiNode)) (st : State) : State :=
  match m with
  | VisitedF => mkState v (visitedB st) (found st) (result st) (reqCount st) (cancelled st) (calls st)
  | VisitedB => mkState (visitedF st) v (found st) (result st) (reqCount st) (cancelled st) (calls st)
  end.

Definition setFound (b : bool) (st : State) : State :=
  mkState (visitedF st) (visitedB st) b (result st) (reqCount st) (cancelled st) (calls st).

Definition setResult (r : list WikiNode) (st : State) : State :=
  mkState (visitedF st) (visitedB st) (found st) r (reqCount st) (cancelled st) (calls st).

Definition addReqCount (st : State) : State :=
  mkState (visitedF st) (visitedB st) (found st) (result st) (reqCount st + 1) (cancelled st) (calls st).

Definition setCancelled (st : State) : State :=
  mkState (visitedF st) (visitedB st) (found st) (result st) (reqCount st) true (calls st).

Definition logCall (c : Call) (st : State) : State :=
  mkState (visitedF st) (visitedB st) (found st) (result st) (reqCount st) (cancelled st)
          (calls st ++ [c])%list.

(** How a piece of Go code ends: it returns, it panics (which ends the
    whole process), or it never comes back. *)
Inductive outcome (A : Type) :=
| Returned (a : A)
| Panicked
| Hangs.
Arguments Returned {A} a.
Arguments Panicked {A}.
Arguments Hangs {A}.

(** *** Atomic operations and programs over them *)

(** The operations a goroutine performs on the shared [Searcher].  Each is
    atomic in Go ([sync.Map], [atomic.Bool], [atomic.Int64], the mutex
    around [result]) except the two walks of [buildPath]: these are only
    run by the goroutine that has won the compare-and-swap, after its
    [Store], and from then on entries are only added to the maps, so each
    walk reads what one atomic walk reads at the time of its last load. *)
Inductive Op : Type -> Type :=
| found_Load : Op bool
| found_CompareAndSwap : Op bool
| Map_Load (m : MapRef) (key : string) : Op (option (option WikiNode))
| Map_Store (m : MapRef) (key : string) (v : option WikiNode) : Op unit
| Map_LoadOrStore (m : MapRef) (key : string) (v : option WikiNode) : Op bool
| client_Do (titles : list string) (lang dir : string) : Op HttpOutcome
| reqCount_Add : Op unit
| walk_forward (meet : WikiNode) : Op (list WikiNode)
| walk_backward (meet : WikiNode) : Op (list WikiNode)
| result_Store (r : list WikiNode) : Op unit
| result_Load : Op (list WikiNode)
| cancel : Op unit.

Inductive Prog (A : Type) : Type :=
| Ret (a : A)
| Vis {X : Type} (op : Op X) (k : X -> Prog A).
Arguments Ret {A} a.
Arguments Vis {A X} op k.

Fixpoint bind {A B} (p : Prog A) (f : A -> Prog B) : Prog B :=
  match p with
  | Ret a => f a
  | Vis op k => Vis op (fun x => bind (k x) f)
  end.

Definition call {X} (op : Op X) : Prog X := Vis op Ret.

Notation "'let*' x ':=' p 'in' q" := (bind p (fun x => q))
  (at level 10, x name, p at level 100, q at level 200, only parsing).

(** The goroutine that runs [Search]: operations of its own, and a group of
    goroutines per direction, started together and awaited at a barrier.
    The continuation receives what the two groups have appended to the
    forward and to the backward list. *)
Inductive Driver (A : Type) : Type :=
| Return (a : A)
| Perform {X : Type} (op : Op X) (k : X -> Driver A)
| GoWait (goF goB : list (Prog (list WikiNode)))
         (k : list WikiNode -> list WikiNode -> Driver A).
Arguments Return {A} a.
Arguments Perform {A X} op k.
Arguments GoWait {A} goF goB k.

(** ** The frontier: [PriorityQueue] under Go's [container/heap] *)

Abbreviation PriorityQueue := (list WikiNode).

Definition setIndex (n : WikiNode) (i : Z) : WikiNode :=
  mkNode (Title n) (Lang n) (Priority n) i.

(** [Less] and [Swap] are only called by the heap with indices in range. *)
Definition Less (pq : PriorityQueue) (i j : nat) : bool :=
  match pq !! i, pq !! j with
  | Some a, Some b => (Priority a <? Priority b)%Z
  | _, _ => false
  end.

Definition Swap (pq : PriorityQueue) (i j : nat) : PriorityQueue :=
  match pq !! i, pq !! j with
  | Some a, Some b =>
    <[j := setIndex a (Z.of_nat j)]> (<[i := setIndex b (Z.of_nat i)]> pq)
  | _, _ => pq
  end.

Definition Push (pq : PriorityQueue) (x : WikiNode) : PriorityQueue :=
  (pq ++ [setIndex x (Z.of_nat (length pq))])%list.

Definition Pop (pq : PriorityQueue) : option (WikiNode * PriorityQueue) :=
  match last pq with
  | Some item => Some (setIndex item (-1), removelast pq)
  | None => None
  end.

(** [heap.up]; the loop runs at most once per level, so [fuel = j + 1]
    is enough. *)
Fixpoint up (fuel : nat) (pq : PriorityQueue) (j : nat) : PriorityQueue :=
  match fuel with
  | O => pq
  | S fuel' =>
    let i := ((j - 1) / 2)%nat in
    if (i =? j)%nat || negb (Less pq j i) then pq
    else up fuel' (Swap pq i j) i
  end.

(** [heap.down] *)
Fixpoint down (fuel : nat) (pq : PriorityQueue) (i n : nat) : PriorityQueue :=
  match fuel with
  | O => pq
  | S fuel' =>
    let j1 := (2 * i + 1)%nat in
    if (n <=? j1)%nat then pq
    else
      let j := if (j1 + 1 <? n)%nat && Less pq (j1 + 1) j1 then (j1 + 1)%nat else j1 in
      if negb (Less pq j i) then pq
      else down fuel' (Swap pq i j) j n
  end.

Definition heap_Push (pq : PriorityQueue) (x : WikiNode) : PriorityQueue :=
  let pq' := Push pq x in
  up (length pq') pq' (length pq' - 1).

Definition heap_Pop (pq : PriorityQueue) : option (WikiNode * PriorityQueue) :=
  let n := (length pq - 1)%nat in
  Pop (down (length pq) (Swap pq 0 n) 0 n).

Definition pushAll (pq : PriorityQueue) (nodes : list WikiNode) : PriorityQueue :=
  fold_left heap_Push nodes pq.

(** *** Heap order and index bookkeeping *)

(** The priority at position [k]. *)
Definition prio (pq : PriorityQueue) (k : nat) : Z :=
  from_option Priority 0%Z (pq !! k).

(** The order [container/heap] keeps on the first [n] positions: no node
    has a lower priority than its parent at [(k - 1) / 2]. *)
Definition heapOrdered (pq : PriorityQueue) (n : nat) : Prop :=
  ∀ k, (0 < k < n)%nat -> (prio pq ((k - 1) / 2) <= prio pq k)%Z.

(** The order with the node at [j] still on its way up: [j] may be lower
    than its parent, while its children are not lower than its parent. *)
Definition heapExcept (pq : PriorityQueue) (n j : nat) : Prop :=
  (∀ k, (0 < k < n)%nat -> k ≠ j -> (prio pq ((k - 1) / 2) <= prio pq k)%Z)
  ∧ (∀ k, (0 < k < n)%nat -> ((k - 1) / 2)%nat = j -> (0 < j)%nat ->
          (prio pq ((j - 1) / 2) <= prio pq k)%Z).

(** The order with the node at [i] still on its way down: its children may
    be lower than [i], but not lower than the parent of [i]. *)
Definition heapBelow (pq : PriorityQueue) (n i : nat) : Prop :=
  (∀ k, (0 < k < n)%nat -> ((k - 1) / 2)%nat ≠ i -> (prio pq ((k - 1) / 2) <= prio pq k)%Z)
  ∧ (∀ k, (0 < k < n)%nat -> ((k - 1) / 2)%nat = i -> (0 < i)%nat ->
          (prio pq ((i - 1) / 2) <= prio pq k)%Z).

(** Every node carries its position in [Index]. *)
Definition indexed (pq : PriorityQueue) : Prop :=
  ∀ k a, pq !! k = Some a -> Index a = Z.of_nat k.

(** A node without its heap index. *)
Definition bare (n : WikiNode) : string * string * Z := (Title n, Lang n, Priority n).

(** *** What a round dispatches *)

(** The language and title a node is expanded by. *)
Definition article (n : WikiNode) : string * string := (Lang n, Title n).

(** The articles of a table as [drain] builds it, group by group. *)
Definition grouped (byLang : list (string * list string)) : list (string * string) :=
  flat_map (fun g => map (fun t => (g.1, t)) g.2) byLang.

(** The articles of a list of batches, batch by batch. *)
Definition batched (bs : list (list string * string)) : list (string * string) :=
  flat_map (fun b => map (fun t => (b.2, t)) b.1) bs.

(** ** Article links: [buildWikiURL] *)

Module URL.

Import GoString.

Definition oneOf (set : string) (c : ascii) : bool :=
  existsb (Ascii.eqb c) (list_ascii_of_string set).

Definition isAlnum (c : ascii) : bool :=
  let b := byte c in
  ((97 <=? b) && (b <=? 122) || (65 <=? b) && (b <=? 90) || (48 <=? b) && (b <=? 57))%Z.

(** [shouldEscape(c, encodePathSegment)] of [net/url]: letters, digits and
    the marks [-_.~] are kept; of the reserved characters the path segment
    mode escapes [/ ; , ?] and keeps the others; every other byte is
    escaped. *)
Definition shouldEscape (c : ascii) : bool :=
  if isAlnum c then false
  else if oneOf "-_.~" c then false
  else if oneOf "$&+,/:;=?@" c then oneOf "/;,?" c
  else true.

(** [upperhex[n]] *)
Definition upperhex (n : Z) : ascii :=
  nth (Z.to_nat n) (list_ascii_of_string "0123456789ABCDEF") "0"%char.

(** [escape]: a byte to escape becomes [%] and its two hex digits. *)
Fixpoint escape (should : ascii -> bool) (s : string) : string :=
  match s with
  | EmptyString => EmptyString
  | String c rest =>
    if should c then
      String "%" (String (upperhex (Z.shiftr (byte c) 4))
                         (String (upperhex (Z.land (byte c) 15)) (escape should rest)))
    else String c (escape should rest)
  end.

Definition PathEscape (s : string) : string := escape shouldEscape s.

(** [strings.HasPrefix] *)
Fixpoint HasPrefix (s prefix : string) {struct prefix} : bool :=
  match prefix, s with
  | EmptyString, _ => true
  | String p prefix', String c s' => Ascii.eqb c p && HasPrefix s' prefix'
  | String _ _, EmptyString => false
  end.

(** [strings.ReplaceAll] for a non-empty [old]: the occurrences are taken
    from the left and do not overlap.  [skip] counts the bytes of an
    occurrence still to be passed over. *)
Fixpoint replaceFrom (skip : nat) (s old new : string) : string :=
  match s with
  | EmptyString => EmptyString
  | String c rest =>
    match skip with
    | S skip' => replaceFrom skip' rest old new
    | O =>
      if HasPrefix s old then (new ++ replaceFrom (len old - 1) rest old new)%string
      else String c (replaceFrom 0 rest old new)
    end
  end.

(** For the empty [old] the Go function puts [new] in front of every rune
    and at the end. *)
Fixpoint insertAround (fuel : nat) (s new : string) : string :=
  (new ++ match fuel, s with
          | S fuel', String _ _ =>
            let w := (DecodeRune s).2 in
            takeBytes w s ++ insertAround fuel' (dropBytes w s) new
          | _, _ => EmptyString
          end)%string.

Definition ReplaceAll (s old new : string) : string :=
  match old with
  | EmptyString => insertAround (len s) s new
  | String _ _ => replaceFrom 0 s old new
  end.

(** The path of the link: the escaped title with its slashes put back. *)
Definition wikiPath (title : string) : string :=
  ReplaceAll (PathEscape title) "%2F" "/".

Definition buildWikiURL (lang title : string) : string :=
  ("https://" ++ lang ++ ".wikipedia.org/wiki/" ++ wikiPath title)%string.

(** What [wikiPath] escapes in the end. *)
Definition escapedInLink (c : ascii) : bool := shouldEscape c && negb (Ascii.eqb c "/").

(** The bytes a link path is made of. *)
Definition linkByte (c : ascii) : bool :=
  isAlnum c || oneOf "-_.~$&+:=@/%" c.

(** The value of an upper-case hex digit. *)
Definition hexval (c : ascii) : Z :=
  if (48 <=? byte c)%Z && (byte c <=? 57)%Z then byte c - 48 else byte c - 55.

End URL.

(** ** Samples for concrete runs of the frontier and the parent walks *)

Module Sample.

(** A frontier in heap order, every node at its index. *)
Definition frontier3 : PriorityQueue :=
  [mkNode "A" "en" 1 0; mkNode "B" "en" 3 1; mkNode "C" "ru" 2 2].

(** A forward map: the root [A] and its child [B]. *)
Definition parents2 : gmap string (option WikiNode) :=
  {["en:b" := Some (node "en" "A"); "en:a" := None]}.

Definition seeded2 : State := mkState parents2 ∅ false [] 0 false [].

End Sample.


(** ** Fixtures for concrete runs *)

Module Fixture.

(** A prober that gets no answer in time. *)
Definition noProbe : ProbeOracle := fun _ => None.

(** A prober that finds the title unchanged on the English wiki only. *)
Definition englishProbe (title : string) : ProbeOracle :=
  fun lang => if String.eqb lang "en" then Some [mkProbePage "42" title false] else None.

Definition page (title : string) (links linksHere : list string) : Page :=
  mkPage title links linksHere [].

(** The transport that answers the [n]-th call with the [n]-th outcome of a
    script and fails once the script is used up. *)
Definition scripted (script : list HttpOutcome) : Transport :=
  fun n _ _ _ => default TransportError (script !! n).

Definition ok (pages : list Page) : HttpOutcome := Response 200 (Some pages).

(** [Linux] links to [Unix], the backward request fails, [Unix] links back
    to [Linux]. *)
Definition linuxUnix : Transport :=
  scripted [ok [page "Linux" ["Unix"] []]; TransportError; ok [page "Unix" ["Linux"] []]].

(** A wiki with a fixed set of articles: it answers a request with the
    articles whose title was asked for. *)
Definition wiki (articles : list Page) : Transport :=
  fun _ titles _ _ =>
    ok (List.filter (fun pg => bool_decide (pageTitle pg ∈ titles)) articles).

(** [A] links to [X], and [X] links to [C]. *)
Definition chain : list Page :=
  [page "A" ["X"] []; page "X" ["C"] ["A"]; page "C" [] ["X"]].

(** The request for [C] is answered with the page [D] it redirects to. *)
Definition redirected : Transport :=
  scripted [ok [page "A" ["X"] []]; ok [page "D" [] ["X"]]].

(** A transport that gives the same answer whatever is asked. *)
Definition answer (out : HttpOutcome) : Transport := fun _ _ _ _ => out.

(** Every call is answered with status 200 and a body that is not JSON. *)
Definition garbage : Transport := fun _ _ _ _ => Response 200 None.

(** The letter U+0456 (Cyrillic small letter Byelorussian-Ukrainian i),
    encoded as the two bytes D1 96. *)
Definition ukrainianI : string :=
  String (ascii_of_nat 209) (String (ascii_of_nat 150) EmptyString).

End Fixture.

Section Engine.

(** [strings.ToLower] is Go's Unicode case mapping.  Nothing below depends
    on how it maps, so it is left open; concrete runs use
    [GoString.asciiToLower] on ASCII titles. *)
Variable ToLower : string -> string.

Definition String_ (n : WikiNode) : string := Lang n ++ ":" ++ Title n.

Definition Key (n : WikiNode) : string := ToLower (Lang n ++ ":" ++ Title n).

(** The word table built in [NewSearcher] and rebuilt in [Search]:
    the tokens of the lower-cased title longer than two bytes. *)
Definition wordsOf (title : string) : gset string :=
  list_to_set (filter (fun word => (2 < len word)%nat) (Fields (ToLower title))).

(** *** [Searcher.heuristic] *)

Definition heuristic (s : Searcher) (title lang dir : string) : Z :=
  let score := 100%Z in
  let titleLower := ToLower title in
  let '(words, tLang) :=
    if String.eqb dir "F" then (targetWords s, targetLang s)
    else (startWords s, startLang s) in
  let score := if String.eqb lang tLang then (score - 25)%Z else score in
  let score :=
    fold_left (fun sc word =>
      if (2 <? len word)%nat && bool_decide (word ∈ words) then (sc - 40)%Z else sc)
      (Fields titleLower) score in
  let score :=
    fold_left (fun sc word =>
      if Contains titleLower word then (sc - 20)%Z else sc)
      (elements words) score in
  let score :=
    if String.eqb lang "en" || String.eqb lang "ru" then (score - 10)%Z else score in
  let score := if (len title <? 20)%nat then (score - 5)%Z else score in
  let score := if (60 <? len title)%nat then (score + 15)%Z else score in
  score.

(** *** [APISearcher.heuristic] *)

Definition api_heuristic (s : APISearcher) (title lang dir : string) : Z :=
  let score := 100%Z in
  let titleLower := ToLower title in
  let '(words, tLang) :=
    if String.eqb dir "F" then (api_targetWords s, api_targetLang s)
    else (api_startWords s, api_startLang s) in
  let score := if String.eqb lang tLang then (score - 25)%Z else score in
  let score :=
    fold_left (fun sc word =>
      if (2 <? len word)%nat && bool_decide (word ∈ words) then (sc - 40)%Z else sc)
      (Fields titleLower) score in
  let score :=
    fold_left (fun sc word =>
      if Contains titleLower word then (sc - 20)%Z else sc)
      (elements words) score in
  let score :=
    if String.eqb lang "en" || String.eqb lang "ru" then (score - 10)%Z else score in
  let score := if (len title <? 20)%nat then (score - 5)%Z else score in
  let score := if (60 <? len title)%nat then (score + 15)%Z else score in
  score.

(** *** [guessLang] and [detectLang] *)

(** [r >= 'А' && r <= 'я' || r == 'ё' || r == 'Ё'] *)
Definition isRussianLetter (r : Z) : bool :=
  ((0x410 <=? r) && (r <=? 0x44F) || (r =? 0x451) || (r =? 0x401))%Z.

Definition guessLang (title : string) : string :=
  if existsb isRussianLetter (runes title) then "ru" else "en".

(** The body of the probe goroutine after a successful decode. *)
Definition probeResult (pages : list ProbePage) : option string :=
  ppTitle <$> List.find (fun p => negb (String.eqb (ppId p) "-1") && negb (ppMissing p)) pages.

Definition candidates (title : string) : list string :=
  let guessed := guessLang title in
  if String.eqb guessed "ru" then [guessed; "en"] else [guessed; "ru"].

(** [foundLangs], as an association list in candidate order. *)
Definition foundLangs (probe : ProbeOracle) (title : string) : list (string * string) :=
  omap (fun l => (fun t => (l, t)) <$> (probe l ≫= probeResult)) (candidates title).

Definition detectLang (probe : ProbeOracle) (title : string) : string * string :=
  match foundLangs probe title with
  | (l, t) :: _ => (l, t)
  | [] => ("", "")
  end.

(** The first lines of [Search]: the pair the search goes on with. *)
Definition resolve (probe : ProbeOracle) (raw lang : string) : string * string :=
  let '(l, t) := detectLang probe raw in
  if negb (String.eqb l "") then (l, t) else (lang, raw).

(** *** Parent walks of [buildPath] *)

(** The loop shared by both halves of [buildPath]: record [curr], load its
    parent, stop on a missing key or on the nil pointer, else move to the
    parent.  The nodes come out in visiting order.  [None]: [fuel]
    iterations were not enough. *)
Fixpoint walk (fuel : nat) (m : gmap string (option WikiNode)) (curr : WikiNode)
  : option (list WikiNode) :=
  match fuel with
  | O => None
  | S fuel' =>
    match m !! Key curr with
    | Some (Some p) => cons curr <$> walk fuel' m p
    | _ => Some [curr]
    end
  end.

(** A walk that has not stopped after [size m + 1] loads has seen some key
    twice and goes round for ever ([walk_bound_complete] below), so this
    bound decides whether the Go loop ends. *)
Definition parentWalk (m : gmap string (option WikiNode)) (curr : WikiNode)
  : outcome (list WikiNode) :=
  match walk (S (size m)) m curr with
  | Some l => Returned l
  | None => Hangs
  end.

(** First half of [buildPath]: [fwd] is built by prepending. *)
Definition forwardList (vF : gmap string (option WikiNode)) (meet : WikiNode)
  : outcome (list WikiNode) :=
  match parentWalk vF meet with
  | Returned l => Returned (rev l)
  | Panicked => Panicked
  | Hangs => Hangs
  end.

(** Second half of [buildPath].  [val != nil] compares an interface value
    with nil, and the interface that holds the typed nil pointer of a root
    is not nil: on a root the code goes on to the type assertion and
    dereferences the nil pointer it yields. *)
Definition backwardList (vB : gmap string (option WikiNode)) (meet : WikiNode)
  : outcome (list WikiNode) :=
  match vB !! Key meet with
  | None => Returned []
  | Some None => Panicked
  | Some (Some p) => parentWalk vB p
  end.

Definition buildPath (vF vB : gmap string (option WikiNode)) (meet : WikiNode)
  : outcome (list WikiNode) :=
  match forwardList vF meet with
  | Returned fwd =>
    match backwardList vB meet with
    | Returned bwd => Returned (fwd ++ bwd)%list
    | Panicked => Panicked
    | Hangs => Hangs
    end
  | Panicked => Panicked
  | Hangs => Hangs
  end.

(** *** The effect of one operation *)

Definition exec {X} (op : Op X) (tr : Transport) (st : State) : outcome (X * State) :=
  match op in Op X return outcome (X * State) with
  | found_Load => Returned (found st, st)
  | found_CompareAndSwap =>
    if found st then Returned (false, st) else Returned (true, setFound true st)
  | Map_Load m key => Returned (getMap m st !! key, st)
  | Map_Store m key v => Returned (tt, setMap m (<[key := v]> (getMap m st)) st)
  | Map_LoadOrStore m key v =>
    match getMap m st !! key with
    | Some _ => Returned (true, st)
    | None => Returned (false, setMap m (<[key := v]> (getMap m st)) st)
    end
  | client_Do titles lang dir =>
    let out := if cancelled st then TransportError
               else tr (length (calls st)) titles lang dir in
    Returned (out, logCall (mkCall titles lang dir out) st)
  | reqCount_Add => Returned (tt, addReqCount st)
  | walk_forward meet =>
    match forwardList (visitedF st) meet with
    | Returned l => Returned (l, st)
    | Panicked => Panicked
    | Hangs => Hangs
    end
  | walk_backward meet =>
    match backwardList (visitedB st) meet with
    | Returned l => Returned (l, st)
    | Panicked => Panicked
    | Hangs => Hangs
    end
  | result_Store r => Returned (tt, setResult r st)
  | result_Load => Returned (result st, st)
  | cancel => Returned (tt, setCancelled st)
  end.

(** One goroutine running alone. *)
Fixpoint run {A} (p : Prog A) (tr : Transport) (st : State) : outcome (A * State) :=
  match p with
  | Ret a => Returned (a, st)
  | Vis op k =>
    match exec op tr st with
    | Returned (x, st') => run (k x) tr st'
    | Panicked => Panicked
    | Hangs => Hangs
    end
  end.

(** *** [Searcher.buildPath] and [Searcher.fetch] *)

Definition buildPathP (meet : WikiNode) : Prog (list WikiNode) :=
  let* fwd := call (walk_forward meet) in
  let* bwd := call (walk_backward meet) in
  Ret (fwd ++ bwd)%list.

Definition own (dir : string) : MapRef :=
  if String.eqb dir "F" then VisitedF else VisitedB.

Definition other (dir : string) : MapRef :=
  if String.eqb dir "F" then VisitedB else VisitedF.

Definition exists_ (v : option (option WikiNode)) : bool :=
  match v with Some _ => true | None => false end.

(** The body shared by the two inner loops of [fetch], for one [child] of
    [parent].  [None] stands for the [return nil] of the winning claim,
    otherwise the new value of [newNodes]. *)
Definition visit (dir : string) (parent child : WikiNode) (newNodes : list WikiNode)
  : Prog (option (list WikiNode)) :=
  let key := Key child in
  let* v := call (Map_Load (other dir) key) in
  let* claimed := (if exists_ v then call found_CompareAndSwap else Ret false) in
  if claimed : bool then
    let* _ := call (Map_Store (own dir) key (Some parent)) in
    let* path := buildPathP child in
    let* _ := call (result_Store path) in
    let* _ := call cancel in
    Ret None
  else
    let* loaded := call (Map_LoadOrStore (own dir) key (Some parent)) in
    Ret (Some (if loaded : bool then newNodes else (newNodes ++ [child])%list)).

Fixpoint visitAll (dir : string) (parent : WikiNode) (children newNodes : list WikiNode)
  : Prog (option (list WikiNode)) :=
  match children with
  | [] => Ret (Some newNodes)
  | child :: rest =>
    let* r := visit dir parent child newNodes in
    match r with
    | None => Ret None
    | Some newNodes' => visitAll dir parent rest newNodes'
    end
  end.

(** The children the first inner loop builds from [links]. *)
Definition linkChildren (s : Searcher) (page : Page) (lang dir : string) : list WikiNode :=
  let links := if String.eqb dir "F" then Links page else LinksHere page in
  map (fun title => mkNode title lang (heuristic s title lang dir) 0) links.

(** The children the second inner loop builds from [page.LangLinks],
    after its [continue]. *)
Definition langLinkChildren (s : Searcher) (page : Page) (dir : string) : list WikiNode :=
  map (fun ll => mkNode (llTitle ll) (llLang ll) (heuristic s (llTitle ll) (llLang ll) dir) 0)
      (filter (fun ll => is_Some (wikiAPIs !! llLang ll) ∧ llTitle ll ≠ "") (LangLinks page)).

Fixpoint pagesLoop (s : Searcher) (lang dir : string) (pages : list Page)
    (newNodes : list WikiNode) : Prog (list WikiNode) :=
  match pages with
  | [] => Ret newNodes
  | page :: rest =>
    let* f := call found_Load in
    if f : bool then Ret []
    else
      let parent := node lang (pageTitle page) in
      let* r := visitAll dir parent (linkChildren s page lang dir) newNodes in
      match r with
      | None => Ret []
      | Some newNodes1 =>
        let* r' := visitAll dir parent (langLinkChildren s page dir) newNodes1 in
        match r' with
        | None => Ret []
        | Some newNodes2 => pagesLoop s lang dir rest newNodes2
        end
      end
  end.

Definition fetch (s : Searcher) (titles : list string) (lang dir : string)
  : Prog (list WikiNode) :=
  let* f := call found_Load in
  if (f : bool) || (length titles =? 0)%nat then Ret []
  else
    let* r := call (client_Do titles lang dir) in
    match r with
    | TransportError => Ret []
    | Response _ body =>
      let* _ := call reqCount_Add in
      match body with
      | None => Ret []
      | Some data => pagesLoop s lang dir data []
      end
    end.

(** ** The round scheduler and [Searcher.Search] *)

Definition batchSize : nat := 50.
Definition maxPerRound : nat := 250.

(** [byLang[lang] = append(byLang[lang], title)].  The Go map is kept as an
    association list in order of first insertion; the [range] over it is
    taken in that order, which is one of the orders Go may choose. *)
Fixpoint addTitle (byLang : list (string * list string)) (lang title : string)
  : list (string * list string) :=
  match byLang with
  | [] => [(lang, [title])]
  | (l, ts) :: rest =>
    if String.eqb l lang then (l, (ts ++ [title])%list) :: rest
    else (l, ts) :: addTitle rest lang title
  end.

(** The draining loop [for pq.Len() > 0 && count < maxPerRound]. *)
Fixpoint drain (budget : nat) (pq : PriorityQueue) (byLang : list (string * list string))
  : list (string * list string) * PriorityQueue :=
  match budget with
  | O => (byLang, pq)
  | S budget' =>
    match heap_Pop pq with
    | None => (byLang, pq)
    | Some (n, pq') => drain budget' pq' (addTitle byLang (Lang n) (Title n))
    end
  end.

(** [titles[i:end]] for [i = 0, batchSize, 2*batchSize, ...] *)
Fixpoint chunks (fuel : nat) (titles : list string) : list (list string) :=
  match fuel, titles with
  | S fuel', _ :: _ =>
    firstn batchSize titles :: chunks fuel' (skipn batchSize titles)
  | _, _ => []
  end.

(** The batches of one direction of a round, in dispatch order. *)
Definition batches (byLang : list (string * list string)) : list (list string * string) :=
  flat_map (fun '(lang, titles) => map (fun t => (t, lang)) (chunks (length titles) titles))
           byLang.

(** The goroutines of one direction of a round, one per batch. *)
Definition dispatch (s : Searcher) (dir : string) (bs : list (list string * string))
  : list (Prog (list WikiNode)) :=
  map (fun b => fetch s b.1 b.2 dir) bs.

(** The round loop.  [deadline] is the number of rounds that begin before
    the 10 s context expires: at the next loop head [ctx.Done()] is ready
    and the loop returns [s.result].  Both frontiers are drained before the
    goroutines of the round are awaited; the drains touch nothing the
    goroutines see. *)
Fixpoint roundLoop (deadline : nat) (s : Searcher) (pqF pqB : PriorityQueue)
  : Driver (list WikiNode) :=
  Perform found_Load (fun f =>
    if negb f && ((0 <? length pqF)%nat || (0 <? length pqB)%nat) then
      match deadline with
      | O => Perform result_Load Return
      | S deadline' =>
        let '(byLangF, pqF1) := drain maxPerRound pqF [] in
        let '(byLangB, pqB1) := drain maxPerRound pqB [] in
        GoWait (dispatch s "F" (batches byLangF)) (dispatch s "B" (batches byLangB))
          (fun nextF nextB =>
             Perform found_Load (fun f' =>
               if f' : bool then Perform result_Load Return
               else roundLoop deadline' s (pushAll pqF1 nextF) (pushAll pqB1 nextB)))
      end
    else Perform result_Load Return).

(** The heuristic fields as [Search] sets them once both titles are
    resolved: [s.startLang = startLang], [s.targetLang = endLang], and the
    two word tables rebuilt from the resolved titles. *)
Definition searcherFor (startLang startTitle endLang endTitle : string) : Searcher :=
  mkSearcher endLang startLang (wordsOf startTitle) (wordsOf endTitle).

(** [Search].  [heap.Init] on the two empty queues does nothing. *)
Definition Search (probeStart probeEnd : ProbeOracle) (deadline : nat)
    (start end_ lang : string) : Driver (list WikiNode) :=
  let '(startLang, startTitle) := resolve probeStart start lang in
  let '(endLang, endTitle) := resolve probeEnd end_ lang in
  let s := searcherFor startLang startTitle endLang endTitle in
  let startNode := node startLang startTitle in
  let endNode := node endLang endTitle in
  Perform (Map_Store VisitedF (Key startNode) None) (fun _ =>
  Perform (Map_Store VisitedB (Key endNode) None) (fun _ =>
  if String.eqb startTitle endTitle && String.eqb startLang endLang then
    Return [startNode]
  else
    GoWait [fetch s [startTitle] startLang "F"] [fetch s [endTitle] endLang "B"]
      (fun initF initB =>
         Perform found_Load (fun f =>
           if f : bool then Perform result_Load Return
           else roundLoop deadline s (pushAll [] initF) (pushAll [] initB))))).

(** ** A single-threaded executor *)

(** The goroutines of a group run to completion one after the other, in
    dispatch order. *)
Fixpoint runAll {B} (tasks : list (Prog B)) (tr : Transport) (st : State)
  : outcome (list B * State) :=
  match tasks with
  | [] => Returned ([], st)
  | p :: rest =>
    match run p tr st with
    | Returned (b, st1) =>
      match runAll rest tr st1 with
      | Returned (bs, st2) => Returned (b :: bs, st2)
      | Panicked => Panicked
      | Hangs => Hangs
      end
    | Panicked => Panicked
    | Hangs => Hangs
    end
  end.

(** The forward group runs before the backward group. *)
Fixpoint runD {A} (d : Driver A) (tr : Transport) (st : State) : outcome (A * State) :=
  match d with
  | Return a => Returned (a, st)
  | Perform op k =>
    match exec op tr st with
    | Returned (x, st') => runD (k x) tr st'
    | Panicked => Panicked
    | Hangs => Hangs
    end
  | GoWait goF goB k =>
    match runAll goF tr st with
    | Returned (rF, st1) =>
      match runAll goB tr st1 with
      | Returned (rB, st2) => runD (k (concat rF) (concat rB)) tr st2
      | Panicked => Panicked
      | Hangs => Hangs
      end
    | Panicked => Panicked
    | Hangs => Hangs
    end
  end.

(** The same executor stopped after [n] operations: the state it has
    reached, and for a goroutine that got to its end what is left of [n]
    and the value it returned. *)
Fixpoint advance {B} (n : nat) (p : Prog B) (tr : Transport) (st : State)
  : State * option (nat * B) :=
  match p with
  | Ret b => (st, Some (n, b))
  | Vis op k =>
    match n with
    | O => (st, None)
    | S n' =>
      match exec op tr st with
      | Returned (x, st') => advance n' (k x) tr st'
      | _ => (st, None)
      end
    end
  end.

Fixpoint advanceAll {B} (n : nat) (tasks : list (Prog B)) (tr : Transport) (st : State)
  : State * option (nat * list B) :=
  match tasks with
  | [] => (st, Some (n, []))
  | p :: rest =>
    match advance n p tr st with
    | (st1, Some (n1, b)) =>
      match advanceAll n1 rest tr st1 with
      | (st2, Some (n2, bs)) => (st2, Some (n2, b :: bs))
      | (st2, None) => (st2, None)
      end
    | (st1, None) => (st1, None)
    end
  end.

Fixpoint stateAfter {A} (n : nat) (d : Driver A) (tr : Transport) (st : State) : State :=
  match d with
  | Return _ => st
  | Perform op k =>
    match n with
    | O => st
    | S n' =>
      match exec op tr st with
      | Returned (x, st') => stateAfter n' (k x) tr st'
      | _ => st
      end
    end
  | GoWait goF goB k =>
    match advanceAll n goF tr st with
    | (st1, Some (n1, rF)) =>
      match advanceAll n1 goB tr st1 with
      | (st2, Some (n2, rB)) => stateAfter n2 (k (concat rF) (concat rB)) tr st2
      | (st2, None) => st2
      end
    | (st1, None) => st1
    end
  end.

(** ** Goroutines running interleaved *)

(** The expansions of a search run as goroutines over the shared state.  A
    configuration holds that state and what is left to run of every
    [fetch] goroutine started so far (a finished one stays as [Ret]). *)
Record Config := mkConfig {
  shared : State;
  pool : list (Prog (list WikiNode))
}.

(** What happens in one step: the driver starts a goroutine for a batch,
    or goroutine [tid] performs its next operation [op], which yields [x]. *)
Inductive Event :=
| started (s : Searcher) (titles : list string) (lang dir : string)
| performed (tid : nat) {X : Type} (op : Op X) (x : X).

(** Goroutine [tid] performs its next operation [op] against the transport
    [tr], and the operation yields [x]. *)
Definition perform (tr : Transport) (c : Config) (tid : nat) {X} (op : Op X) (x : X)
    (c' : Config) : Prop :=
  ∃ k, pool c !! tid = Some (Vis op k)
       ∧ exec op tr (shared c) = Returned (x, shared c')
       ∧ pool c' = <[tid := k x]> (pool c).

(** A step of a pool that grows: the driver may start an expansion at any
    time, which covers every batch [Search] dispatches, and a goroutine may
    be answered anything by the transport. *)
Definition step (c : Config) (ev : Event) (c' : Config) : Prop :=
  match ev with
  | started s titles lang dir =>
    shared c' = shared c ∧ pool c' = (pool c ++ [fetch s titles lang dir])%list
  | performed tid op x => ∃ tr, perform tr c tid op x c'
  end.

Inductive steps : Config -> list Event -> Config -> Prop :=
| steps_nil c : steps c [] c
| steps_snoc c evs c1 ev c2 :
    steps c evs c1 -> step c1 ev c2 -> steps c (evs ++ [ev])%list c2.

(** The goroutines of one group between start and barrier, against one
    transport: any interleaving of their operations. *)
Inductive interleaved (tr : Transport) : Config -> list Event -> Config -> Prop :=
| interleaved_nil c : interleaved tr c [] c
| interleaved_cons c tid X (op : Op X) x c1 evs c2 :
    perform tr c tid op x c1 -> interleaved tr c1 evs c2 ->
    interleaved tr c (performed tid op x :: evs) c2.

(** [d] run from [st] can return [a] in state [st'].  At a barrier the
    goroutines of both groups interleave freely, and each group hands its
    results on in the order in which its goroutines happen to finish. *)
Fixpoint runsD {A} (tr : Transport) (d : Driver A) (st : State) (a : A) (st' : State)
  : Prop :=
  match d with
  | Return b => b = a ∧ st = st'
  | Perform op k => ∃ x st1, exec op tr st = Returned (x, st1) ∧ runsD tr (k x) st1 a st'
  | GoWait goF goB k =>
    ∃ evs st1 (rF rB orderF orderB : list (list WikiNode)),
      interleaved tr (mkConfig st (goF ++ goB)%list) evs
                  (mkConfig st1 (Ret <$> (rF ++ rB)%list))
      ∧ length rF = length goF
      ∧ orderF ≡ₚ rF ∧ orderB ≡ₚ rB
      ∧ runsD tr (k (concat orderF) (concat orderB)) st1 a st'
  end.

(** A scheduler's choices, and the execution they produce. *)
Inductive Choice :=
| Start (s : Searcher) (titles : list string) (lang dir : string)
| Resume (tid : nat) (tr : Transport).

Definition choose (ch : Choice) (c : Config) : option (Config * Event) :=
  match ch with
  | Start s titles lang dir =>
    Some (mkConfig (shared c) (pool c ++ [fetch s titles lang dir])%list,
          started s titles lang dir)
  | Resume tid tr =>
    match pool c !! tid with
    | Some (Vis op k) =>
      match exec op tr (shared c) with
      | Returned (x, st') =>
        Some (mkConfig st' (<[tid := k x]> (pool c)), performed tid op x)
      | _ => None
      end
    | _ => None
    end
  end.

(** Runs the choices in order and stops at the first that cannot be taken
    (the goroutine has returned, or its operation panics or hangs). *)
Fixpoint schedule (chs : list Choice) (c : Config) (evs : list Event)
  : Config * list Event :=
  match chs with
  | [] => (c, evs)
  | ch :: rest =>
    match choose ch c with
    | Some (c', ev) => schedule rest c' (evs ++ [ev])%list
    | None => (c, evs)
    end
  end.

(** The compare-and-swap that claims the meeting succeeded. *)
Definition isWin {X} (op : Op X) : X -> bool :=
  match op in Op X return X -> bool with
  | found_CompareAndSwap => fun x => x
  | _ => fun _ => false
  end.

(** The compare-and-swap that claims the meeting failed. *)
Definition isLoss {X} (op : Op X) : X -> bool :=
  match op in Op X return X -> bool with
  | found_CompareAndSwap => fun x => negb x
  | _ => fun _ => false
  end.

Definition isCAS {X} (op : Op X) : bool :=
  match op with found_CompareAndSwap => true | _ => false end.

(** The two writes of a meeting claim: the unconditional [Store] of the
    parent and the assignment of [s.result]. *)
Definition isRecord {X} (op : Op X) : bool :=
  match op with
  | Map_Store _ _ _ | result_Store _ => true
  | _ => false
  end.

Definition isWinEvent (ev : Event) : bool :=
  match ev with performed _ op x => isWin op x | started _ _ _ _ => false end.

Definition isRecordEvent (ev : Event) : bool :=
  match ev with performed _ op _ => isRecord op | started _ _ _ _ => false end.

Definition actor (ev : Event) : option nat :=
  match ev with performed tid _ _ => Some tid | started _ _ _ _ => None end.

Definition wins (evs : list Event) : nat := length (List.filter isWinEvent evs).

(** A program that is past its winning claim: it performs no further
    compare-and-swap, and returns a value in [Q]. *)
Fixpoint claiming {A} (Q : A -> Prop) (p : Prog A) : Prop :=
  match p with
  | Ret a => Q a
  | Vis op k => isCAS op = false ∧ ∀ x, claiming Q (k x)
  end.

(** A program that records nothing unless it first wins a compare-and-swap,
    and that is [claiming Q] from then on; without a win it returns a value
    in [P]. *)
Fixpoint quiet {A} (P Q : A -> Prop) (p : Prog A) : Prop :=
  match p with
  | Ret a => P a
  | Vis op k =>
    isRecord op = false
    ∧ ∀ x, if isWin op x then claiming Q (k x) else quiet P Q (k x)
  end.

(** The goroutine of the first winning compare-and-swap of a trace. *)
Definition winner (evs : list Event) : option nat := List.find isWinEvent evs ≫= actor.

Definition anything {A} : A -> Prop := fun _ => True.

(** *** A race between the two first expansions

    [S] links to [A] and [B], [B] links to [A], and [A] links to [E].  The
    forward expansion of [S] and the backward expansion of [E] both look
    [A] up in the other map before either has stored it; both store it; the
    forward expansion of the batch [A], [B] then meets [A] on page [B]. *)

Definition raceStart : Config :=
  mkConfig (mkState {[Key (node "en" "S") := None]} {[Key (node "en" "E") := None]}
                    false [] 0 false []) [].

Definition race : list Choice :=
  let s := searcherFor "en" "S" "en" "E" in
  let tS := Fixture.answer (Fixture.ok [Fixture.page "S" ["A"; "B"] []]) in
  let tE := Fixture.answer (Fixture.ok [Fixture.page "E" [] ["A"]]) in
  let tAB := Fixture.answer (Fixture.ok [Fixture.page "B" ["A"] []; Fixture.page "A" ["E"] []]) in
  ([ Start s ["S"] "en" "F"; Start s ["E"] "en" "B" ]
   ++ replicate 5 (Resume 0 tS) ++ replicate 5 (Resume 1 tE)
   ++ replicate 3 (Resume 0 tS) ++ [ Resume 1 tE ]
   ++ [ Start s ["A"; "B"] "en" "F" ] ++ replicate 11 (Resume 2 tAB))%list.

(** The same race with a shorter answer for [S]: [S] links to [A], the
    answer for [A] lists [B] but is cut before [E], the backward expansion
    of [A] fails, and [B] links back to [A]. *)
Definition raceToCycle : list Choice :=
  let s := searcherFor "en" "S" "en" "E" in
  let tS := Fixture.answer (Fixture.ok [Fixture.page "S" ["A"] []]) in
  let tE := Fixture.answer (Fixture.ok [Fixture.page "E" [] ["A"]]) in
  let tA := Fixture.answer (Fixture.ok [Fixture.page "A" ["B"] []]) in
  let tB := Fixture.answer (Fixture.ok [Fixture.page "B" ["A"] []]) in
  ([ Start s ["S"] "en" "F"; Start s ["E"] "en" "B" ]
   ++ replicate 5 (Resume 0 tS) ++ replicate 5 (Resume 1 tE)
   ++ [ Resume 0 tS; Resume 1 tE ]
   ++ [ Start s ["A"] "en" "F"; Start s ["A"] "en" "B" ]
   ++ replicate 6 (Resume 2 tA) ++ replicate 2 (Resume 3 (Fixture.answer TransportError))
   ++ [ Start s ["B"] "en" "F" ] ++ replicate 8 (Resume 4 tB))%list.

(** *** Two candidates at once

    The forward frontier holds [P] and the Russian article [Q], which go
    out in two batches of one round; the backward map already holds their
    links [K1] and [K2].  Each expansion finds its child there before
    either tries the compare-and-swap; the first wins, the second loses
    and goes on to its insert-if-absent. *)

Definition twoCandidatesStart : Config :=
  mkConfig (mkState {[Key (node "en" "S") := None;
                      Key (node "en" "P") := Some (node "en" "S");
                      Key (node "ru" "Q") := Some (node "en" "S")]}
                    {[Key (node "en" "E") := None;
                      Key (node "en" "K1") := Some (node "en" "E");
                      Key (node "ru" "K2") := Some (node "en" "E")]}
                    false [] 0 false []) [].

Definition twoCandidates : list Choice :=
  let s := searcherFor "en" "S" "en" "E" in
  let tP := Fixture.answer (Fixture.ok [Fixture.page "P" ["K1"] []]) in
  let tQ := Fixture.answer (Fixture.ok [Fixture.page "Q" ["K2"] []]) in
  ([ Start s ["P"] "en" "F"; Start s ["Q"] "ru" "F" ]
   ++ replicate 5 (Resume 0 tP) ++ replicate 5 (Resume 1 tQ)
   ++ [ Resume 0 tP; Resume 1 tQ; Resume 1 tQ ])%list.

(** ** The properties, as definitions *)

(** *** Heuristic score in closed form *)

(** Tokens of the lower-cased title, counted with multiplicity, that are
    longer than two bytes and belong to [words]. *)
Definition tokenHits (words : gset string) (titleLower : string) : nat :=
  length (List.filter (fun word => (2 <? len word)%nat && bool_decide (word ∈ words))
                      (Fields titleLower)).

(** Words of [words] that occur in the lower-cased title as a substring. *)
Definition substringHits (words : gset string) (titleLower : string) : nat :=
  length (List.filter (Contains titleLower) (elements words)).

(** Words of [words] that are one of the tokens (longer than two bytes) of
    the lower-cased title: each word counts once. *)
Definition wordHits (words : gset string) (titleLower : string) : nat :=
  length (List.filter
            (fun word => bool_decide (word ∈ List.filter (fun t => (2 <? len t)%nat)
                                                         (Fields titleLower)))
            (elements words)).

Definition indicator (b : bool) (amount : Z) : Z := if b then amount else 0%Z.

(** The score with the 40-point bonus granted per title token. *)
Definition scoreOf (words : gset string) (tLang title lang : string) : Z :=
  (100 - indicator (String.eqb lang tLang) 25
       - 40 * Z.of_nat (tokenHits words (ToLower title))
       - 20 * Z.of_nat (substringHits words (ToLower title))
       - indicator (String.eqb lang "en" || String.eqb lang "ru") 10
       - indicator (len title <? 20)%nat 5
       + indicator (60 <? len title)%nat 15)%Z.

(** The score with the 40-point bonus granted per target-side word. *)
Definition scorePerWord (words : gset string) (tLang title lang : string) : Z :=
  (100 - indicator (String.eqb lang tLang) 25
       - 40 * Z.of_nat (wordHits words (ToLower title))
       - 20 * Z.of_nat (substringHits words (ToLower title))
       - indicator (String.eqb lang "en" || String.eqb lang "ru") 10
       - indicator (len title <? 20)%nat 5
       + indicator (60 <? len title)%nat 15)%Z.

(** *** Language probing *)

(** A rune of one of the Unicode Cyrillic blocks (Cyrillic, Cyrillic
    Supplement, Extended-A, Extended-B, Extended-C). *)
Definition isCyrillic (r : Z) : bool :=
  (((0x400 <=? r) && (r <=? 0x52F)) || ((0x2DE0 <=? r) && (r <=? 0x2DFF))
   || ((0xA640 <=? r) && (r <=? 0xA69F)) || ((0x1C80 <=? r) && (r <=? 0x1C8F)))%Z.

Definition usable (p : ProbePage) : Prop := ppId p ≠ "-1" ∧ ppMissing p = false.

(** The probe of a language answered in time, and [t] is the title of the
    first usable page of the answer. *)
Definition accepts (o : option (list ProbePage)) (t : string) : Prop :=
  ∃ pre p post, o = Some (pre ++ p :: post)%list ∧ usable p ∧ ppTitle p = t ∧
                Forall (fun q => ¬ usable q) pre.

(** No answer in time, or an answer without a usable page. *)
Definition rejects (o : option (list ProbePage)) : Prop :=
  match o with
  | None => True
  | Some pages => Forall (fun q => ¬ usable q) pages
  end.

(** *** Counting calls *)

Definition isResponse (c : Call) : bool :=
  match callOutcome c with Response _ _ => true | TransportError => false end.

Definition isDecoded (c : Call) : bool :=
  match callOutcome c with Response _ (Some _) => true | _ => false end.

(** Calls of [client.Do] that came back with a response. *)
Definition responses (cs : list Call) : nat := length (List.filter isResponse cs).

(** Calls whose response body was decoded. *)
Definition decodedCalls (cs : list Call) : nat := length (List.filter isDecoded cs).

(** *** Failed calls *)

(** The outcome [client.Do] will have in state [st]: a cancelled context
    fails the request before it is sent. *)
Definition outcomeAt (tr : Transport) (st : State) (titles : list string)
    (lang dir : string) : HttpOutcome :=
  if cancelled st then TransportError else tr (length (calls st)) titles lang dir.

(** A failure as the specification lists them: transport error (which
    covers cancellation), a status outside 200..299, or a body that does not
    decode. *)
Definition failedCall (out : HttpOutcome) : Prop :=
  match out with
  | TransportError => True
  | Response status body => ¬ (200 <= status < 300)%Z ∨ body = None
  end.

(** A failure the code notices: transport error or undecodable body. *)
Definition noticedFailure (out : HttpOutcome) : Prop :=
  match out with
  | TransportError => True
  | Response _ body => body = None
  end.

(** The state a noticed failure leaves behind: the call is logged, and
    counted when a response arrived. *)
Definition afterFailure (out : HttpOutcome) (titles : list string) (lang dir : string)
    (st : State) : State :=
  let st1 := logCall (mkCall titles lang dir out) st in
  match out with
  | TransportError => st1
  | Response _ _ => addReqCount st1
  end.

(** The failure semantics as the specification words them. *)
Definition failedCallsYieldNothing : Prop :=
  ∀ tr s st titles lang dir nodes st',
    failedCall (outcomeAt tr st titles lang dir) ->
    run (fetch s titles lang dir) tr st = Returned (nodes, st') ->
    nodes = [].

(** *** The search as a whole *)

(** The run of [Search] on a fresh [Searcher] by the single-threaded
    executor. *)
Definition runSearch (tr : Transport) (probeStart probeEnd : ProbeOracle)
    (deadline : nat) (start end_ lang : string) : outcome (list WikiNode * State) :=
  runD (Search probeStart probeEnd deadline start end_ lang) tr newState.

(** Some execution of [Search] on a fresh [Searcher] returns [path] and
    leaves the state [st']. *)
Definition searches (tr : Transport) (probeStart probeEnd : ProbeOracle)
    (deadline : nat) (start end_ lang : string) (path : list WikiNode) (st' : State) : Prop :=
  runsD tr (Search probeStart probeEnd deadline start end_ lang) newState path st'.

Definition startNodeOf (probeStart : ProbeOracle) (start lang : string) : WikiNode :=
  node (resolve probeStart start lang).1 (resolve probeStart start lang).2.

Definition endNodeOf (probeEnd : ProbeOracle) (end_ lang : string) : WikiNode :=
  node (resolve probeEnd end_ lang).1 (resolve probeEnd end_ lang).2.

(** The shortcut as the specification words it: equal identity keys are
    enough for the one-node answer without any request. *)
Definition sameKeyShortcut : Prop :=
  ∀ tr probeStart probeEnd deadline start end_ lang path st',
    Key (startNodeOf probeStart start lang) = Key (endNodeOf probeEnd end_ lang) ->
    searches tr probeStart probeEnd deadline start end_ lang path st' ->
    path = [startNodeOf probeStart start lang] ∧ calls st' = [] ∧ reqCount st' = 0%Z.

(** The counter as the specification words it: it counts the calls whose
    response was decoded. *)
Definition countsDecodedCalls : Prop :=
  ∀ tr probeStart probeEnd deadline start end_ lang path st',
    searches tr probeStart probeEnd deadline start end_ lang path st' ->
    reqCount st' = Z.of_nat (decodedCalls (calls st')).

(** *** Returned paths *)

(** Every page of a decoded response carries, up to the case folding of
    keys, one of the titles that were asked for: the server neither
    follows a redirect to another title nor renames the page. *)
Definition faithful (tr : Transport) : Prop :=
  ∀ n titles lang dir status pages pg,
    tr n titles lang dir = Response status (Some pages) -> pg ∈ pages ->
    ∃ t, t ∈ titles ∧ Key (node lang (pageTitle pg)) = Key (node lang t).

(** [path] starts on a node with key [startKey] and ends on a node with
    key [endKey]. *)
Definition joins (startKey endKey : string) (path : list WikiNode) : Prop :=
  ∃ first final,
    head path = Some first ∧ last path = Some final
    ∧ Key first = startKey ∧ Key final = endKey.

(** The endpoints as the specification words them, for every transport. *)
Definition pathJoinsEndpoints : Prop :=
  ∀ tr probeStart probeEnd deadline start end_ lang path st',
    searches tr probeStart probeEnd deadline start end_ lang path st' ->
    found st' = true -> (1 <= length path)%nat ->
    joins (Key (startNodeOf probeStart start lang)) (Key (endNodeOf probeEnd end_ lang)) path.

(** Every parent recorded in [m] is itself a key of [m]. *)
Definition closed (m : gmap string (option WikiNode)) : Prop :=
  ∀ k p, m !! k = Some (Some p) -> is_Some (m !! Key p).

(** Only the key [root] holds the nil pointer. *)
Definition rootOnly (m : gmap string (option WikiNode)) (root : string) : Prop :=
  ∀ k, m !! k = Some None -> k = root.

Definition knownIn (m : MapRef) (st : State) (k : string) : Prop :=
  is_Some (getMap m st !! k).

Definition allKnown (m : MapRef) (st : State) (l : list WikiNode) : Prop :=
  Forall (fun n => knownIn m st (Key n)) l.

Definition titlesKnown (m : MapRef) (st : State) (lang : string) (titles : list string) : Prop :=
  Forall (fun t => knownIn m st (Key (node lang t))) titles.

(** Keys are never removed from a visited map. *)
Definition grows (st st' : State) : Prop :=
  ∀ m k, knownIn m st k -> knownIn m st' k.

(** [path] is what [buildPath] returns over the visited maps of [st] from
    a meeting node, a node both maps hold and for which one of them has
    the parent of a claim: the walk along the parents the forward map
    records, reversed, followed by the walk along the parents the backward
    map records, from the backward parent of that node on. *)
Definition builtFrom (st : State) (path : list WikiNode) : Prop :=
  ∃ m meet parent fwd bwd,
    getMap m st !! Key meet = Some (Some parent)
    ∧ knownIn VisitedF st (Key meet) ∧ knownIn VisitedB st (Key meet)
    ∧ forwardList (visitedF st) meet = Returned fwd
    ∧ backwardList (visitedB st) meet = Returned bwd
    ∧ path = (fwd ++ bwd)%list.

(** *** Notions used by the proofs *)

Definition isHttpOp {X} (op : Op X) : bool :=
  match op with
  | client_Do _ _ _ | reqCount_Add => true
  | _ => false
  end.

Definition isAdd {X} (op : Op X) : bool :=
  match op with reqCount_Add => true | _ => false end.

Definition isDo {X} (op : Op X) : bool :=
  match op with client_Do _ _ _ => true | _ => false end.

(** [client.Do] came back with a response. *)
Definition gotResponse {X} (op : Op X) : X -> bool :=
  match op in Op X return X -> bool with
  | client_Do _ _ _ =>
    fun out => match out with Response _ _ => true | TransportError => false end
  | _ => fun _ => false
  end.

(** The counter is in step with the calls that came back with a response. *)
Definition counted (st : State) : Prop :=
  reqCount st = Z.of_nat (responses (calls st)).

(** A goroutine that will not touch the transport or the counter. *)
Fixpoint httpFree {A} (p : Prog A) : Prop :=
  match p with
  | Ret _ => True
  | Vis op k => isHttpOp op = false ∧ ∀ x, httpFree (k x)
  end.

(** A goroutine that has a response in hand and is about to count it. *)
Definition owes {A} (p : Prog A) : Prop :=
  match p with
  | Ret _ => False
  | Vis op k => isAdd op = true ∧ ∀ x, httpFree (k x)
  end.

(** A goroutine that has not called the transport yet, calls it at most
    once and counts the response right away. *)
Fixpoint beforeDo {A} (p : Prog A) : Prop :=
  match p with
  | Ret _ => True
  | Vis op k =>
    isAdd op = false
    ∧ ∀ x, if isDo op then (if gotResponse op x then owes (k x) else httpFree (k x))
           else beforeDo (k x)
  end.

(** The responses a goroutine has received and not counted yet. *)
Definition debt {A} (p : Prog A) : Z :=
  match p with
  | Vis op _ => if isAdd op then 1%Z else 0%Z
  | Ret _ => 0%Z
  end.

Fixpoint debts {A} (ps : list (Prog A)) : Z :=
  match ps with
  | [] => 0%Z
  | p :: rest => (debt p + debts rest)%Z
  end.

Definition countedPool (c : Config) : Prop :=
  (reqCount (shared c) + debts (pool c))%Z = Z.of_nat (responses (calls (shared c)))
  ∧ Forall (fun p => beforeDo p ∨ owes p) (pool c).

(** Who may still record: every goroutine is quiet, except the one that
    won the compare-and-swap. *)
Definition poolOk (evs : list Event) (c : Config) : Prop :=
  ∀ tid p, pool c !! tid = Some p ->
    quiet anything anything p ∨ (claiming anything p ∧ winner evs = Some tid).

(** Every [Store] and every assignment of the result in the trace is
    performed by a goroutine that has won the compare-and-swap earlier in
    the trace. *)
Definition recordsByWinner (evs : list Event) : Prop :=
  ∀ i ev, evs !! i = Some ev -> isRecordEvent ev = true ->
    ∃ j w, (j < i)%nat ∧ evs !! j = Some w ∧ isWinEvent w = true ∧ actor w = actor ev.

(** An event that adds or replaces an entry of a visited map or assigns
    the result. *)
Definition inserts (ev : Event) : bool :=
  match ev with
  | started _ _ _ _ => false
  | performed _ op x =>
    match op in Op X return X -> bool with
    | Map_Store _ _ _ => fun _ => true
    | result_Store _ => fun _ => true
    | Map_LoadOrStore _ _ _ => fun loaded => negb loaded
    | _ => fun _ => false
    end x
  end.

Definition isLossEvent (ev : Event) : bool :=
  match ev with performed _ op x => isLoss op x | started _ _ _ _ => false end.

(** The losing candidates as the specification words them: a goroutine
    whose compare-and-swap has failed records nothing from then on. *)
Definition losersRecordNothing : Prop :=
  ∀ c0 evs c i j lost ev,
    found (shared c0) = false -> pool c0 = [] -> steps c0 evs c ->
    evs !! i = Some lost -> isLossEvent lost = true ->
    (i < j)%nat -> evs !! j = Some ev -> actor ev = actor lost ->
    inserts ev = false.

Definition claimInv (evs : list Event) (c : Config) : Prop :=
  (wins evs <= 1)%nat
  ∧ (found (shared c) = true <-> wins evs = 1%nat)
  ∧ poolOk evs c
  ∧ recordsByWinner evs.

Definition batchKnown (m : MapRef) (st : State) (group : string * list string) : Prop :=
  titlesKnown m st group.1 group.2.

(** What holds of the shared state throughout a search over a faithful
    transport, whatever the interleaving. *)
Definition searchInv (startKey endKey : string) (st : State) : Prop :=
  closed (visitedF st) ∧ closed (visitedB st)
  ∧ rootOnly (visitedF st) startKey ∧ rootOnly (visitedB st) endKey
  ∧ (result st = [] ∨ joins startKey endKey (result st)).

(** What an operation of an expansion needs in order to keep [searchInv]:
    a stored parent is a known key, a walk starts from a known key, and an
    assigned result joins the endpoints. *)
Definition needs (startKey endKey : string) {X} (op : Op X) (st : State) : Prop :=
  match op with
  | Map_Store m _ v | Map_LoadOrStore m _ v =>
    match v with Some p => knownIn m st (Key p) | None => False end
  | walk_forward meet => knownIn VisitedF st (Key meet)
  | walk_backward meet => knownIn VisitedB st (Key meet)
  | result_Store r => joins startKey endKey r
  | _ => True
  end.

(** [p] can run from [st], interleaved with anything that keeps
    [searchInv] and only adds keys: each of its operations has what it
    [needs] when its turn comes, and it returns values in [R]. *)
Fixpoint safe (tr : Transport) (startKey endKey : string) {A}
    (R : A -> State -> Prop) (st : State) (p : Prog A) : Prop :=
  match p with
  | Ret a => R a st
  | Vis op k =>
    needs startKey endKey op st
    ∧ ∀ st1 x st2, grows st st1 -> searchInv startKey endKey st1 ->
                   exec op tr st1 = Returned (x, st2) ->
                   safe tr startKey endKey R st2 (k x)
  end.

(** A postcondition that survives what other goroutines do. *)
Definition stable {A} (R : A -> State -> Prop) : Prop :=
  ∀ a st st', grows st st' -> R a st -> R a st'.

(** A group between start and barrier: the shared state satisfies
    [searchInv], and goroutine [tid] is [safe] for the postcondition
    [post tid]. *)
Definition poolSafe (tr : Transport) (startKey endKey : string)
    (post : nat -> list WikiNode -> State -> Prop) (c : Config) : Prop :=
  searchInv startKey endKey (shared c)
  ∧ ∀ tid p, pool c !! tid = Some p -> safe tr startKey endKey (post tid) (shared c) p.

(** What an expansion in direction [dir] returns: nodes that are keys of
    its own visited map. *)
Definition ownNodes (m : MapRef) : list WikiNode -> State -> Prop :=
  fun nodes st => allKnown m st nodes.

(** *** The script of a meeting claim *)

(** Where the goroutine that won the compare-and-swap stands in the lines
    of [fetch] that follow it: [own.Store(key, &parent)], the two walks of
    [buildPath], the assignment of [s.result] and [s.cancel()].  [seen] is
    the map in which the key of the child was found. *)
Inductive Phase :=
| toStore (seen : MapRef) (key : string)
| toWalk (m : MapRef) (key : string) (parent : WikiNode)
| toWalkBack (m : MapRef) (meet parent : WikiNode) (fwd : list WikiNode)
| toAssign (m : MapRef) (meet parent : WikiNode) (fwd bwd : list WikiNode)
| toCancel (m : MapRef) (meet parent : WikiNode) (fwd bwd : list WikiNode)
| finished (m : MapRef) (meet parent : WikiNode) (fwd bwd : list WikiNode).

(** The one operation each phase allows, and the phase it leads to: the
    parent is stored in the map that is not [seen], under the key that was
    found; both walks start from a node with that key; the path assigned is
    what the two walks returned, in that order. *)
Definition proceeds {X} (ph : Phase) (op : Op X) : X -> Phase -> Prop :=
  match op in Op X return X -> Phase -> Prop with
  | Map_Store m key v => fun _ ph' =>
    ∃ seen parent,
      ph = toStore seen key ∧ m ≠ seen ∧ v = Some parent ∧ ph' = toWalk m key parent
  | walk_forward meet => fun fwd ph' =>
    ∃ m parent, ph = toWalk m (Key meet) parent ∧ ph' = toWalkBack m meet parent fwd
  | walk_backward meet => fun bwd ph' =>
    ∃ m parent fwd,
      ph = toWalkBack m meet parent fwd ∧ ph' = toAssign m meet parent fwd bwd
  | result_Store r => fun _ ph' =>
    ∃ m meet parent fwd bwd,
      ph = toAssign m meet parent fwd bwd ∧ r = (fwd ++ bwd)%list
      ∧ ph' = toCancel m meet parent fwd bwd
  | cancel => fun _ ph' =>
    ∃ m meet parent fwd bwd,
      ph = toCancel m meet parent fwd bwd ∧ ph' = finished m meet parent fwd bwd
  | _ => fun _ _ => False
  end.

Definition isFinished (ph : Phase) : Prop :=
  ∃ m meet parent fwd bwd, ph = finished m meet parent fwd bwd.

(** A goroutine that has won the compare-and-swap and stands in phase
    [ph]: what is left of it is the rest of the script, operation by
    operation, and it returns only once the script is through, with a
    value in [Q]. *)
Fixpoint claimant {A} (ph : Phase) (Q : A -> Prop) (p : Prog A) {struct p} : Prop :=
  match p with
  | Ret a => isFinished ph ∧ Q a
  | Vis op k => ∀ x, ∃ ph', proceeds ph op x ph' ∧ claimant ph' Q (k x)
  end.

(** What the operation just performed has found: the map and the key of a
    [Load] that was answered with an entry. *)
Definition justSeen {X} (op : Op X) : X -> option (MapRef * string) :=
  match op in Op X return X -> option (MapRef * string) with
  | Map_Load m key => fun v => if exists_ v then Some (m, key) else None
  | _ => fun _ => None
  end.

(** A goroutine that has not won the compare-and-swap.  It performs
    neither of the two writes of a claim; it tries the compare-and-swap
    only right after a [Load] that found an entry, and when it wins it is
    the [claimant] of the key it found; without a win it returns a value
    in [P]. *)
Fixpoint contender {A} (seen : option (MapRef * string)) (P Q : A -> Prop) (p : Prog A)
    {struct p} : Prop :=
  match p with
  | Ret a => P a
  | Vis op k =>
    isRecord op = false
    ∧ ∀ x, if isWin op x
           then ∃ m key, seen = Some (m, key) ∧ claimant (toStore m key) Q (k x)
           else contender (justSeen op x) P Q (k x)
  end.

(** Every entry of a visited map is kept. *)
Definition keeps (st st' : State) : Prop :=
  ∀ m k v, getMap m st !! k = Some v -> getMap m st' !! k = Some v.

(** The claim is written: [m] records [parent] for the key of [meet], and
    both visited maps hold that key. *)
Definition recorded (m : MapRef) (key : string) (parent : WikiNode) (st : State) : Prop :=
  getMap m st !! key = Some (Some parent)
  ∧ knownIn VisitedF st key ∧ knownIn VisitedB st key.

(** What holds of the shared state while the winner stands in [ph]. *)
Definition claimFacts (ph : Phase) (st : State) : Prop :=
  found st = true
  ∧ match ph with
    | toStore seen key => knownIn seen st key
    | toWalk m key parent => recorded m key parent st
    | toWalkBack m meet parent fwd => recorded m (Key meet) parent st ∧ last fwd = Some meet
    | toAssign m meet parent fwd bwd =>
      recorded m (Key meet) parent st ∧ last fwd = Some meet
    | toCancel m meet parent fwd bwd =>
      recorded m (Key meet) parent st ∧ last fwd = Some meet
      ∧ result st = (fwd ++ bwd)%list
    | finished m meet parent fwd bwd =>
      recorded m (Key meet) parent st ∧ last fwd = Some meet
      ∧ result st = (fwd ++ bwd)%list ∧ cancelled st = true
    end.

(** What holds in addition when the visited maps are closed under parents
    and nothing else assigns the result: the result is empty until the
    winner assigns it, and the lists the winner holds are the walks over
    the maps as they stand. *)
Definition walkFacts (ph : Phase) (st : State) : Prop :=
  match ph with
  | toStore _ _ | toWalk _ _ _ => result st = []
  | toWalkBack _ meet _ fwd =>
    result st = [] ∧ forwardList (visitedF st) meet = Returned fwd
  | toAssign _ meet _ fwd bwd =>
    result st = []
    ∧ forwardList (visitedF st) meet = Returned fwd
    ∧ backwardList (visitedB st) meet = Returned bwd
  | toCancel _ meet _ fwd bwd | finished _ meet _ fwd bwd =>
    forwardList (visitedF st) meet = Returned fwd
    ∧ backwardList (visitedB st) meet = Returned bwd
  end.

(** A goroutine that has not won, in state [st]: the entry it has just
    found is there. *)
Definition waiting (st : State) (p : Prog (list WikiNode)) : Prop :=
  ∃ seen, contender seen anything anything p
          ∧ ∀ m key, seen = Some (m, key) -> knownIn m st key.

(** A pool in which goroutine [w] has won the compare-and-swap, or none
    has.  With [strict] set the state also satisfies [walkFacts]. *)
Definition claimState (strict : bool) (w : option nat) (c : Config) : Prop :=
  match w with
  | None =>
    found (shared c) = false
    ∧ (strict = true -> result (shared c) = [])
    ∧ ∀ tid p, pool c !! tid = Some p -> waiting (shared c) p
  | Some t =>
    (∃ ph p, pool c !! t = Some p ∧ claimant ph anything p
             ∧ claimFacts ph (shared c) ∧ (strict = true -> walkFacts ph (shared c)))
    ∧ ∀ tid p, tid ≠ t -> pool c !! tid = Some p -> waiting (shared c) p
  end.

(** The winner after one more event. *)
Definition laterWinner (w : option nat) (ev : Event) : option nat :=
  match w with
  | Some t => Some t
  | None => if isWinEvent ev then actor ev else None
  end.

(** The result between rounds: empty until the flag is set, and then
    what [buildPath] returns over the maps as they stand. *)
Definition builtInv (st : State) : Prop :=
  (found st = false -> result st = [])
  ∧ (result st = [] ∨ builtFrom st (result st)).

(** *** Parent maps without cycles *)

(** [rank] goes down along every recorded parent. *)
Definition ranked (m : gmap string (option WikiNode)) (rank : string -> nat) : Prop :=
  ∀ k p, m !! k = Some (Some p) -> (rank (Key p) < rank k)%nat.

(** A parent map in which every parent is a key and no chain of parents
    comes back to where it started. *)
Definition treeLike (m : gmap string (option WikiNode)) : Prop :=
  closed m ∧ ∃ rank, ranked m rank.

(** *** What an expansion writes *)

(** The visited map an operation writes, if any. *)
Definition written {X} (op : Op X) : option MapRef :=
  match op with
  | Map_Store m _ _ | Map_LoadOrStore m _ _ => Some m
  | _ => None
  end.

(** A program that writes no visited map but [m]. *)
Fixpoint writesOnly (m : MapRef) {A} (p : Prog A) : Prop :=
  match p with
  | Ret _ => True
  | Vis op k => (∀ m', written op = Some m' -> m' = m) ∧ ∀ x, writesOnly m (k x)
  end.

(** *** From the winning claim to the result *)

(** The path an operation assigns to [s.result], if it does. *)
Definition storedPath {X} (op : Op X) : option (list WikiNode) :=
  match op with result_Store r => Some r | _ => None end.

(** The forward walk hands back at least the node it started on. *)
Definition walked {X} (op : Op X) : X -> Prop :=
  match op in Op X return X -> Prop with
  | walk_forward _ => fun l => l ≠ []
  | _ => fun _ => True
  end.

(** A goroutine that has assigned the result: it records nothing more,
    tries no compare-and-swap, and returns a value in [Q]. *)
Fixpoint spent {A} (Q : A -> Prop) (p : Prog A) : Prop :=
  match p with
  | Ret a => Q a
  | Vis op k => isRecord op = false ∧ isCAS op = false ∧ ∀ x, spent Q (k x)
  end.

(** A goroutine that has won the compare-and-swap and has not assigned
    the result yet.  It assigns a non-empty path and is [spent Q] from
    then on, unless it returns first, with a value in [R]: a whole
    expansion never does, which is [R] empty. *)
Fixpoint storing {A} (R Q : A -> Prop) (p : Prog A) : Prop :=
  match p with
  | Ret a => R a
  | Vis op k =>
    match storedPath op with
    | Some r => r ≠ [] ∧ ∀ x, spent Q (k x)
    | None => ∀ x, walked op x -> storing R Q (k x)
    end
  end.

(** A goroutine that records nothing unless it first wins the
    compare-and-swap and that is [storing R Q] once it has won; without a
    win it returns a value in [P]. *)
Fixpoint idle {A} (P R Q : A -> Prop) (p : Prog A) : Prop :=
  match p with
  | Ret a => P a
  | Vis op k =>
    isRecord op = false
    ∧ ∀ x, if isWin op x then storing R Q (k x) else idle P R Q (k x)
  end.

Definition nothing {A} : A -> Prop := fun _ => False.

(** A group between start and barrier: the result is empty until the flag
    is set, and once it is set the result is not empty or a goroutine is
    about to assign it. *)
Definition resultInv (c : Config) : Prop :=
  (∀ tid p, pool c !! tid = Some p -> idle anything nothing anything p ∨ storing nothing anything p)
  ∧ (found (shared c) = false ->
       result (shared c) = [] ∧ ∀ tid p, pool c !! tid = Some p -> idle anything nothing anything p)
  ∧ (found (shared c) = true ->
       result (shared c) ≠ [] ∨ ∃ tid p, pool c !! tid = Some p ∧ storing nothing anything p).

(** The flag is set exactly when there is a result. *)
Definition foundIffResult (st : State) : Prop :=
  found st = true <-> result st ≠ [].

(** *** Requests per expansion *)

(** A program that calls [client.Do] at most [n] times. *)
Fixpoint callsAtMost (n : nat) {A} (p : Prog A) : Prop :=
  match p with
  | Ret _ => True
  | Vis op k =>
    if isDo op then
      match n with
      | O => False
      | S n' => ∀ x, callsAtMost n' (k x)
      end
    else ∀ x, callsAtMost n (k x)
  end.

(** A group between start and barrier: the calls logged so far and the
    calls its goroutines may still make stay within [bound]. *)
Definition callInv (bound : nat) (c : Config) : Prop :=
  ∃ ns : list nat,
    Forall2 (fun n p => callsAtMost n p) ns (pool c)
    ∧ (length (calls (shared c)) + sum_list ns <= bound)%nat.

(** ** The HTTP handlers of the API server *)

(** [time.Since(t0)] is an input of a handler, in nanoseconds.  Its two
    renderings in [SearchStats], [duration.String()] and the float of
    milliseconds, are left open. *)
Variable Float64 : Type.
Variable durationString : Z -> string.
Variable durationMs : Z -> Float64.

Record SearchRequest := mkRequest {
  reqFrom : string;
  reqTo : string;
  reqLang : string
}.

Record PathStep := mkPathStep {
  Step : Z;
  stepTitle : string;
  stepLang : string;
  stepURL : string;
  FullName : string
}.

Record Transition := mkTransition {
  From : string;
  To : string;
  Type_ : string;
  Description : string;
  CheckURL : string
}.

Record SearchStats := mkStats {
  Duration : string;
  DurationMs : Float64;
  RequestCount : Z
}.

Record SearchResponse := mkResponse {
  Success : bool;
  respFrom : string;
  respTo : string;
  PathLength : Z;
  Path : list PathStep;
  Transitions : list Transition;
  Stats : SearchStats
}.

Record ErrorResponse := mkError {
  errSuccess : bool;
  Error : string;
  Code : string
}.

(** What a handler sends: [c.Status(status).JSON(...)] with an
    [ErrorResponse], or [c.JSON(...)] with a [SearchResponse]. *)
Inductive Reply :=
| Failed (status : Z) (body : ErrorResponse)
| Found (body : SearchResponse).

(** [c.Query(key)] and [c.Query(key, defaultValue)]: a parameter that is
    absent reads as the empty string, and the default stands in for the
    empty string. *)
Definition Query (query : gmap string string) (key : string) : string :=
  default "" (query !! key).

Definition QueryOr (query : gmap string string) (key defaultValue : string) : string :=
  if String.eqb (Query query key) "" then defaultValue else Query query key.

(** The loop that fills [pathSteps]; both handlers have it word for
    word. *)
Definition pathStepsOf (path : list WikiNode) : list PathStep :=
  imap (fun i node =>
          mkPathStep (Z.of_nat i + 1) (Title node) (Lang node)
                     (URL.buildWikiURL (Lang node) (Title node)) (String_ node))
       path.

(** The body of the loop [for i := 0; i < len(path)-1; i++], for
    [from = path[i]] and [to = path[i+1]]. *)
Definition transitionOf (from to : WikiNode) : Transition :=
  let t := mkTransition (Title from) (Title to) "" ""
                        (URL.buildWikiURL (Lang from) (Title from)) in
  if String.eqb (Lang from) (Lang to) then
    mkTransition (From t) (To t) "link"
                 ("Найти '" ++ Title to ++ "' в статье '" ++ Title from ++ "'")
                 (CheckURL t)
  else
    mkTransition (From t) (To t) "interwiki"
                 ("Перейти на " ++ Lang to ++ " версию через меню Languages")
                 (CheckURL t).

(** The loop that appends to [transitions]; both handlers have it word
    for word. *)
Fixpoint transitionsOf (path : list WikiNode) : list Transition :=
  match path with
  | from :: (to :: _) as rest => transitionOf from to :: transitionsOf rest
  | _ => []
  end.

(** The handler [SearchPath] of [POST /search].  [body] is what
    [c.BodyParser] made of the request body, [None] when it failed;
    [elapsed] is [time.Since(t0)]. *)
Definition SearchPath (body : option SearchRequest) (tr : Transport)
    (probeStart probeEnd : ProbeOracle) (deadline : nat) (elapsed : Z) : outcome Reply :=
  match body with
  | None => Returned (Failed 400 (mkError false "Неверный формат запроса" "INVALID_REQUEST"))
  | Some req =>
    if String.eqb (reqFrom req) "" || String.eqb (reqTo req) "" then
      Returned (Failed 400 (mkError false "Необходимо указать 'from' и 'to'" "MISSING_PARAMS"))
    else
      let lang := if String.eqb (reqLang req) "" then "ru" else reqLang req in
      match runSearch tr probeStart probeEnd deadline (reqFrom req) (reqTo req) lang with
      | Returned (path, st') =>
        if (length path =? 0)%nat then
          Returned (Failed 404 (mkError false "Путь не найден" "PATH_NOT_FOUND"))
        else
          Returned (Found (mkResponse true (reqFrom req) (reqTo req)
                             (Z.of_nat (length path)) (pathStepsOf path) (transitionsOf path)
                             (mkStats (durationString elapsed) (durationMs elapsed)
                                      (reqCount st'))))
      | Panicked => Panicked
      | Hangs => Hangs
      end
  end.

(** The handler [SearchPathGet] of [GET /search]. *)
Definition SearchPathGet (query : gmap string string) (tr : Transport)
    (probeStart probeEnd : ProbeOracle) (deadline : nat) (elapsed : Z) : outcome Reply :=
  let from := Query query "from" in
  let to := Query query "to" in
  let lang := QueryOr query "lang" "ru" in
  if String.eqb from "" || String.eqb to "" then
    Returned (Failed 400 (mkError false "Необходимо указать параметры 'from' и 'to'"
                                  "MISSING_PARAMS"))
  else
    match runSearch tr probeStart probeEnd deadline from to lang with
    | Returned (path, st') =>
      if (length path =? 0)%nat then
        Returned (Failed 404 (mkError false "Путь не найден" "PATH_NOT_FOUND"))
      else
        Returned (Found (mkResponse true from to
                           (Z.of_nat (length path)) (pathStepsOf path) (transitionsOf path)
                           (mkStats (durationString elapsed) (durationMs elapsed)
                                    (reqCount st'))))
    | Panicked => Panicked
    | Hangs => Hangs
    end.

(** The status line of a reply. *)
Definition statusOf (r : Reply) : Z :=
  match r with Failed status _ => status | Found _ => 200%Z end.

(** The request [GET /search] makes of a [POST] body. *)
Definition asQuery (req : SearchRequest) : gmap string string :=
  {["from" := reqFrom req; "to" := reqTo req; "lang" := reqLang req]}.

(** A response that hangs together: as many steps as the path is long,
    numbered from 1, and one transition from each step to the next. *)
Definition wellFormed (body : SearchResponse) : Prop :=
  (1 <= PathLength body)%Z
  ∧ PathLength body = Z.of_nat (length (Path body))
  ∧ length (Path body) = S (length (Transitions body))
  ∧ (∀ i step, Path body !! i = Some step -> Step step = (Z.of_nat i + 1)%Z)
  ∧ (∀ i t, Transitions body !! i = Some t ->
       ∃ a b, Path body !! i = Some a ∧ Path body !! S i = Some b
              ∧ From t = stepTitle a ∧ To t = stepTitle b ∧ CheckURL t = stepURL a
              ∧ (Type_ t = "link" ∧ stepLang a = stepLang b
                 ∨ Type_ t = "interwiki" ∧ stepLang a ≠ stepLang b)).

(** *** What a search asks the server *)

(** A program whose every [client.Do] asks for titles, a language and a
    direction in [P]. *)
Fixpoint asksOnly (P : list string -> string -> string -> Prop) {A} (p : Prog A) : Prop :=
  match p with
  | Ret _ => True
  | Vis op k =>
    match op with
    | client_Do titles lang dir => P titles lang dir
    | _ => True
    end
    ∧ ∀ x, asksOnly P (k x)
  end.

(** A program that returns only values in [R]. *)
Fixpoint returnsIn {A} (R : A -> Prop) (p : Prog A) : Prop :=
  match p with
  | Ret a => R a
  | Vis op k => ∀ x, returnsIn R (k x)
  end.

(** The languages a search works in: those of the two resolved endpoints
    and the ones [wikiAPIs] has an address for. *)
Definition allowedLang (startLang endLang lang : string) : Prop :=
  lang = startLang ∨ lang = endLang ∨ is_Some (wikiAPIs !! lang).

Definition goodRequest (startLang endLang : string)
    (titles : list string) (lang dir : string) : Prop :=
  (1 <= length titles <= batchSize)%nat
  ∧ (dir = "F" ∨ dir = "B")
  ∧ allowedLang startLang endLang lang.

Definition goodCall (startLang endLang : string) (c : Call) : Prop :=
  goodRequest startLang endLang (callTitles c) (callLang c) (callDir c).

Definition allowedNodes (startLang endLang : string) (nodes : list WikiNode) : Prop :=
  Forall (fun n => allowedLang startLang endLang (Lang n)) nodes.

(** A group between start and barrier: every call logged is a good one,
    and so is every call still to come; the nodes handed on are in the
    languages of the search. *)
Definition askInv (startLang endLang : string) (c : Config) : Prop :=
  Forall (goodCall startLang endLang) (calls (shared c))
  ∧ ∀ tid p, pool c !! tid = Some p ->
      asksOnly (goodRequest startLang endLang) p
      ∧ returnsIn (allowedNodes startLang endLang) p.


(** ** The heuristic scorer *)

Lemma fold_left_bonus (P : string -> bool) (c : Z) (l : list string) (init : Z) :
  fold_left (fun sc word => if P word then (sc - c)%Z else sc) l init
  = (init - c * Z.of_nat (length (List.filter P l)))%Z.
Proof.
  revert init. induction l as [|w l IH]; intros init; simpl.
  - lia.
  - rewrite IH. destruct (P w); simpl length; lia.
Qed.

Lemma heuristic_scoreOf (s : Searcher) (title lang dir : string) :
  heuristic s title lang dir
  = if String.eqb dir "F" then scoreOf (targetWords s) (targetLang s) title lang
    else scoreOf (startWords s) (startLang s) title lang.
Proof.
  unfold heuristic, scoreOf, tokenHits, substringHits, indicator.
  destruct (String.eqb dir "F"); rewrite !fold_left_bonus;
    repeat match goal with |- context [if ?b then _ else _] => destruct b end; lia.
Qed.

(** C6 (amended).  The score is 100, minus 25 when [lang] is the
    target-side language, minus 40 for every token of the lower-cased title
    (tokens longer than two bytes, counted as often as they occur) that is a
    target-side word, minus 20 for every target-side word that is a
    substring of the lower-cased title, minus 10 for [en] and [ru], minus 5
    for titles shorter than 20 bytes, plus 15 for titles longer than 60; the
    forward direction scores against the end node's words and language, the
    backward direction against the start node's. *)
Theorem heuristic_closed_form (s : Searcher) (title lang : string) :
  heuristic s title lang "F" = scoreOf (targetWords s) (targetLang s) title lang
  ∧ heuristic s title lang "B" = scoreOf (startWords s) (startLang s) title lang
  ∧ ∀ sl st el et,
      targetWords (searcherFor sl st el et) = wordsOf et
      ∧ targetLang (searcherFor sl st el et) = el
      ∧ startWords (searcherFor sl st el et) = wordsOf st
      ∧ startLang (searcherFor sl st el et) = sl.
Proof.
  split; [|split].
  - by rewrite heuristic_scoreOf.
  - by rewrite heuristic_scoreOf.
  - done.
Qed.

(** C10.  With the same language fields and the same word tables, the
    scorer of the command-line searcher and the scorer of the API server
    return the same integer for every title, language and direction. *)
Theorem heuristic_api_agree (s : Searcher) (a : APISearcher) (title lang dir : string) :
  targetLang s = api_targetLang a ->
  startLang s = api_startLang a ->
  startWords s = api_startWords a ->
  targetWords s = api_targetWords a ->
  heuristic s title lang dir = api_heuristic a title lang dir.
Proof.
  intros Htl Hsl Hsw Htw. unfold heuristic, api_heuristic.
  rewrite Htl, Hsl, Hsw, Htw. reflexivity.
Qed.

(** ** The language prober *)

Lemma find_usable_accepts (o : option (list ProbePage)) (t : string) :
  accepts o t -> (o ≫= probeResult) = Some t.
Proof.
  intros (pre & p & post & -> & [Hid Hmiss] & <- & Hpre). simpl.
  unfold probeResult. induction pre as [|q pre IH]; simpl.
  - destruct (String.eqb_spec (ppId p) "-1") as [E|_]; [done|].
    by rewrite Hmiss.
  - inversion Hpre as [|? ? Hq Hpre']; subst.
    destruct (String.eqb_spec (ppId q) "-1") as [E|NE]; simpl; [by apply IH|].
    destruct (ppMissing q) eqn:Hm; simpl; [by apply IH|].
    exfalso. apply Hq. by split.
Qed.

Lemma find_usable_rejects (o : option (list ProbePage)) :
  rejects o -> (o ≫= probeResult) = None.
Proof.
  destruct o as [pages|]; [|done]. simpl. unfold probeResult.
  induction pages as [|q pages IH]; intros H; [done|].
  inversion H as [|? ? Hq H']; subst. simpl.
  destruct (String.eqb_spec (ppId q) "-1") as [E|NE]; simpl; [by apply IH|].
  destruct (ppMissing q) eqn:Hm; simpl; [by apply IH|].
  exfalso. apply Hq. by split.
Qed.

Lemma candidates_two (title : string) :
  candidates title = ["ru"; "en"] ∨ candidates title = ["en"; "ru"].
Proof.
  unfold candidates, guessLang.
  destruct (existsb isRussianLetter (runes title)); simpl; auto.
Qed.

(** C8 (amended).  The candidate list is [ru, en] when the title holds a
    rune in the range U+0410..U+044F or one of U+0451, U+0401, and [en, ru]
    otherwise.  The search goes on with the language of the first
    candidate, in list order, whose probe answered in time with a page whose
    id is not the string -1 and whose missing flag is unset, and with the
    title of the first such page; when no candidate has one, it goes on with
    the default language and the raw title. *)
Theorem resolve_first_candidate (probe : ProbeOracle) (raw lang : string) :
  candidates raw
    = (if existsb isRussianLetter (runes raw) then ["ru"; "en"] else ["en"; "ru"])
  ∧ (∀ (i : nat) (l t : string),
        candidates raw !! i = Some l ->
        accepts (probe l) t ->
        (∀ (j : nat) (l' : string),
            (j < i)%nat -> candidates raw !! j = Some l' -> rejects (probe l')) ->
        resolve probe raw lang = (l, t))
  ∧ ((∀ l : string, l ∈ candidates raw -> rejects (probe l)) ->
        resolve probe raw lang = (lang, raw)).
Proof using Type.
  clear ToLower.
  split; [|split].
  - unfold candidates, guessLang.
    by destruct (existsb isRussianLetter (runes raw)).
  - intros i l t Hi Hacc Hbefore.
    unfold resolve, detectLang, foundLangs.
    destruct (candidates_two raw) as [E | E]; rewrite E in Hi, Hbefore |- *;
      destruct i as [|[|i]]; simplify_eq/=.
    + rewrite (find_usable_accepts _ _ Hacc). done.
    + rewrite (find_usable_rejects (probe "ru")) by (apply (Hbefore 0%nat); [lia|done]).
      simpl. rewrite (find_usable_accepts _ _ Hacc). done.
    + rewrite (find_usable_accepts _ _ Hacc). done.
    + rewrite (find_usable_rejects (probe "en")) by (apply (Hbefore 0%nat); [lia|done]).
      simpl. rewrite (find_usable_accepts _ _ Hacc). done.
  - intros Hall. unfold resolve, detectLang, foundLangs.
    destruct (candidates_two raw) as [E | E]; rewrite E in Hall |- *; simpl;
      rewrite !find_usable_rejects by (apply Hall; set_solver); done.
Qed.

(** ** Reasoning about programs *)

Lemma run_bind {A B} (p : Prog A) (f : A -> Prog B) (tr : Transport) (st : State) :
  run (bind p f) tr st
  = match run p tr st with
    | Returned (a, st') => run (f a) tr st'
    | Panicked => Panicked
    | Hangs => Hangs
    end.
Proof.
  revert st. induction p as [a | X op k IH]; intros st; simpl; [done|].
  destruct (exec op tr st) as [[x st']| |]; auto.
Qed.

Lemma run_call {X} (op : Op X) (tr : Transport) (st : State) :
  run (call op) tr st = exec op tr st.
Proof.
  unfold call. simpl. by destruct (exec op tr st) as [[x st']| |].
Qed.


(** ** Executions of the driver *)

Lemma interleaved_app tr c evs c1 evs' c2 :
  interleaved tr c evs c1 -> interleaved tr c1 evs' c2 ->
  interleaved tr c (evs ++ evs')%list c2.
Proof.
  induction 1 as [|c tid X op x c1 evs c1' Hp _ IH]; intros H2; simpl; [done|].
  econstructor; [exact Hp|]. by apply IH.
Qed.

Lemma steps_app c evs c1 evs' c2 :
  steps c evs c1 -> steps c1 evs' c2 -> steps c (evs ++ evs')%list c2.
Proof.
  intros H1 H2. induction H2 as [|c1 evs' c2 ev c3 _ IH Hstep].
  - by rewrite app_nil_r.
  - rewrite app_assoc. eapply steps_snoc; [by apply IH|exact Hstep].
Qed.

(** An interleaving of a group is an execution of the pool. *)
Lemma interleaved_steps tr c evs c' : interleaved tr c evs c' -> steps c evs c'.
Proof.
  induction 1 as [|c tid X op x c1 evs c2 Hp _ IH]; [constructor|].
  change (performed tid op x :: evs) with ([performed tid op x] ++ evs)%list.
  eapply steps_app; [|exact IH].
  apply (steps_snoc c [] c); [constructor|]. simpl. by exists tr.
Qed.

(** A goroutine that runs alone is one of the interleavings. *)
Lemma run_interleaved tr (p : Prog (list WikiNode)) st b st' l1 l2 :
  run p tr st = Returned (b, st') ->
  ∃ evs, interleaved tr (mkConfig st (l1 ++ p :: l2)%list) evs
                     (mkConfig st' (l1 ++ Ret b :: l2)%list).
Proof.
  revert st. induction p as [a | X op k IH]; intros st Hrun; cbn [run] in Hrun.
  - simplify_eq. exists []. constructor.
  - destruct (exec op tr st) as [[x st1]| |] eqn:E; [|done..].
    destruct (IH x st1 Hrun) as [evs Hevs].
    exists (performed (length l1) op x :: evs). econstructor; [|exact Hevs].
    exists k. simpl. split; [by rewrite list_lookup_middle|]. split; [done|].
    by rewrite insert_app_r_alt, Nat.sub_diag by done.
Qed.

Lemma runAll_length {B} (ps : list (Prog B)) tr st rs st' :
  runAll ps tr st = Returned (rs, st') -> length rs = length ps.
Proof.
  revert st rs. induction ps as [|p ps IH]; intros st rs H; cbn [runAll] in H.
  - by simplify_eq.
  - destruct (run p tr st) as [[b st1]| |]; [|done..].
    destruct (runAll ps tr st1) as [[bs st2]| |] eqn:E; [|done..].
    simplify_eq. simpl. f_equal. by eapply IH.
Qed.

Lemma runAll_interleaved tr ps st rs st' (done_ : list (list WikiNode)) rest :
  runAll ps tr st = Returned (rs, st') ->
  ∃ evs, interleaved tr (mkConfig st ((Ret <$> done_) ++ ps ++ rest)%list) evs
                     (mkConfig st' ((Ret <$> (done_ ++ rs)) ++ rest)%list).
Proof.
  revert st rs done_. induction ps as [|p ps IH]; intros st rs done_ H; cbn [runAll] in H.
  - simplify_eq. rewrite app_nil_r. exists []. constructor.
  - destruct (run p tr st) as [[b st1]| |] eqn:E1; [|done..].
    destruct (runAll ps tr st1) as [[bs st2]| |] eqn:E2; [|done..]. simplify_eq.
    destruct (run_interleaved tr p st b st1 (Ret <$> done_) (ps ++ rest) E1) as [evs1 H1].
    destruct (IH st1 bs (done_ ++ [b])%list E2) as [evs2 H2].
    exists (evs1 ++ evs2)%list. eapply interleaved_app; [exact H1|].
    rewrite fmap_app, <- (app_assoc (Ret <$> done_)), <- (app_assoc done_) in H2.
    exact H2.
Qed.

(** The single-threaded executor produces one of the executions. *)
Lemma runD_runsD {A} tr (d : Driver A) st a st' :
  runD d tr st = Returned (a, st') -> runsD tr d st a st'.
Proof.
  revert st. induction d as [b | X op k IH | goF goB k IH]; intros st H; cbn [runD] in H.
  - by simplify_eq.
  - destruct (exec op tr st) as [[x st1]| |] eqn:E; [|done..].
    exists x, st1. split; [done|]. by apply IH.
  - destruct (runAll goF tr st) as [[rF st1]| |] eqn:EF; [|done..].
    destruct (runAll goB tr st1) as [[rB st2]| |] eqn:EB; [|done..].
    destruct (runAll_interleaved tr goF st rF st1 [] goB EF) as [evs1 H1].
    destruct (runAll_interleaved tr goB st1 rB st2 rF [] EB) as [evs2 H2].
    simpl in H1. rewrite !app_nil_r in H2.
    exists (evs1 ++ evs2)%list, st2, rF, rB, rF, rB.
    split; [|split; [by eapply runAll_length|split; [done|split; [done|by apply IH]]]].
    eapply interleaved_app; [exact H1|exact H2].
Qed.

(** ** The request counter *)

Lemma responses_snoc (cs : list Call) (c : Call) :
  responses (cs ++ [c]) = (responses cs + if isResponse c then 1 else 0)%nat.
Proof.
  unfold responses. rewrite List.filter_app, length_app. simpl.
  by destruct (isResponse c).
Qed.

(** Only [client.Do] and the increment touch the call log and the counter. *)
Lemma exec_plain {X} (op : Op X) tr st x st' :
  isHttpOp op = false -> exec op tr st = Returned (x, st') ->
  reqCount st' = reqCount st ∧ calls st' = calls st.
Proof.
  intros Hop Hexec.
  destruct op; simpl in Hop, Hexec; try discriminate Hop;
    repeat match goal with
           | H : context [match ?x with _ => _ end] |- _ => destruct x eqn:?
           end; simplify_eq; try done; by destruct m.
Qed.

Lemma httpFree_bind {A B} (p : Prog A) (f : A -> Prog B) :
  httpFree p -> (∀ a, httpFree (f a)) -> httpFree (bind p f).
Proof.
  intros Hp Hf. induction p as [a | X op k IH]; simpl in *; [auto|].
  destruct Hp as [Hop Hk]. split; [done|]. intros x. apply IH, Hk.
Qed.

(** Walks through a program built from [bind], [call], [Ret] and case
    distinctions. *)
Ltac http_free :=
  repeat first
    [ apply httpFree_bind; [|intros ?]
    | match goal with
      | |- httpFree (if ?b then _ else _) => destruct b
      | |- httpFree (match ?x with _ => _ end) => destruct x
      end
    | by simpl ].

Lemma visit_httpFree dir parent child newNodes : httpFree (visit dir parent child newNodes).
Proof. unfold visit, buildPathP. http_free. Qed.

Lemma visitAll_httpFree dir parent children newNodes :
  httpFree (visitAll dir parent children newNodes).
Proof.
  revert newNodes. induction children as [|c cs IH]; intros newNodes; cbn [visitAll]; [done|].
  apply httpFree_bind; [apply visit_httpFree|]. intros [nn|]; [apply IH|done].
Qed.

Lemma pagesLoop_httpFree s lang dir pages newNodes :
  httpFree (pagesLoop s lang dir pages newNodes).
Proof.
  revert newNodes. induction pages as [|pg pages IH]; intros newNodes; cbn [pagesLoop]; [done|].
  apply httpFree_bind; [done|]. intros [|]; [done|].
  apply httpFree_bind; [apply visitAll_httpFree|]. intros [nn|]; [|done].
  apply httpFree_bind; [apply visitAll_httpFree|]. intros [nn'|]; [apply IH|done].
Qed.

Lemma httpFree_beforeDo {A} (p : Prog A) : httpFree p -> beforeDo p.
Proof.
  induction p as [a | X op k IH]; simpl; [done|]. intros [Hop Hk].
  split; [by destruct op|]. intros x.
  replace (isDo op) with false by (by destruct op). apply IH, Hk.
Qed.

Lemma fetch_beforeDo s titles lang dir : beforeDo (fetch s titles lang dir).
Proof.
  unfold fetch. simpl. split; [done|]. intros f.
  destruct (f || _); simpl; [done|]. split; [done|].
  intros [|status body]; simpl; [done|]. split; [done|]. intros _.
  destruct body; [apply pagesLoop_httpFree|done].
Qed.

Lemma dispatch_beforeDo s dir bs : Forall beforeDo (dispatch s dir bs).
Proof. apply Forall_fmap, Forall_forall. intros b _. apply fetch_beforeDo. Qed.

Lemma debt_beforeDo {A} (p : Prog A) : beforeDo p -> debt p = 0%Z.
Proof. destruct p as [a | X op k]; simpl; [done|]. by intros [-> _]. Qed.

Lemma debt_owes {A} (p : Prog A) : owes p -> debt p = 1%Z.
Proof. destruct p as [a | X op k]; simpl; [done|]. by intros [-> _]. Qed.

Lemma debts_insert {A} (ps : list (Prog A)) i p q :
  ps !! i = Some p -> debts (<[i := q]> ps) = (debts ps - debt p + debt q)%Z.
Proof.
  revert i. induction ps as [|p' ps IH]; intros [|i] H; simplify_eq/=; [lia|].
  rewrite (IH _ H). lia.
Qed.

Lemma debts_beforeDo {A} (ps : list (Prog A)) : Forall beforeDo ps -> debts ps = 0%Z.
Proof.
  induction 1 as [|p ps Hp _ IH]; simpl; [done|].
  rewrite IH, (debt_beforeDo _ Hp). done.
Qed.

Lemma debts_Ret {A} (rs : list A) : debts (Ret <$> rs) = 0%Z.
Proof. induction rs as [|r rs IH]; [done|]. rewrite fmap_cons. cbn [debts debt]. by rewrite IH. Qed.

(** One operation of one goroutine keeps the counter, plus the responses
    received and not counted yet, in step with the call log. *)
Lemma perform_counted tr c tid X (op : Op X) x c' :
  perform tr c tid op x c' -> countedPool c -> countedPool c'.
Proof.
  intros (k & Hl & Hexec & Hp) [Hsum Hall].
  pose proof (Forall_lookup_1 _ _ _ _ Hall Hl) as Hme.
  unfold countedPool. rewrite Hp, (debts_insert _ _ _ _ Hl).
  destruct Hme as [Hb | Ho].
  - pose proof (debt_beforeDo _ Hb) as Hd. rewrite Hd.
    simpl in Hb. destruct Hb as [Hadd Hk]. specialize (Hk x).
    destruct (isDo op) eqn:Edo.
    + destruct op; try discriminate Edo. cbn [exec] in Hexec.
      injection Hexec as Hx Hst. rewrite <- Hst. simpl. rewrite responses_snoc. simpl.
      rewrite Hx. simpl in Hk.
      destruct x as [|status body]; simpl in *.
      * split; [|apply Forall_insert; [done|left; by apply httpFree_beforeDo]].
        rewrite (debt_beforeDo (k TransportError)) by (by apply httpFree_beforeDo). lia.
      * split; [|apply Forall_insert; [done|by right]].
        rewrite (debt_owes _ Hk). lia.
    + assert (isHttpOp op = false) as Hop by (by destruct op).
      destruct (exec_plain _ _ _ _ _ Hop Hexec) as [-> ->].
      split; [|apply Forall_insert; [done|by left]].
      rewrite (debt_beforeDo _ Hk). lia.
  - pose proof (debt_owes _ Ho) as Hd. rewrite Hd.
    simpl in Ho. destruct Ho as [Hadd Hk]. specialize (Hk x).
    destruct op; try discriminate Hadd. cbn [exec] in Hexec.
    injection Hexec as _ Hst. rewrite <- Hst. destruct x. simpl.
    split; [|apply Forall_insert; [done|left; by apply httpFree_beforeDo]].
    rewrite (debt_beforeDo (k ())) by (by apply httpFree_beforeDo). lia.
Qed.

Lemma interleaved_counted tr c evs c' :
  interleaved tr c evs c' -> countedPool c -> countedPool c'.
Proof.
  induction 1 as [|c tid X op x c1 evs c2 Hp _ IH]; [done|].
  intros Hc. apply IH. by eapply perform_counted.
Qed.

(** From the start of a group to its barrier. *)
Lemma barrier_counted tr st gos evs st1 (rs : list (list WikiNode)) :
  Forall beforeDo gos -> counted st ->
  interleaved tr (mkConfig st gos) evs (mkConfig st1 (Ret <$> rs)) -> counted st1.
Proof.
  intros Hgos Hc Hevs.
  apply interleaved_counted in Hevs as [Hsum _].
  - simpl in Hsum. rewrite debts_Ret in Hsum. unfold counted. lia.
  - split; simpl.
    + rewrite (debts_beforeDo _ Hgos). unfold counted in Hc. lia.
    + eapply Forall_impl; [exact Hgos|]. by left.
Qed.

(** Peels an operation of the driver off an execution. *)
Ltac driver_step H :=
  cbn [runsD] in H;
  let x := fresh "x" in let st := fresh "st" in let E := fresh "Hexec" in
  destruct H as (x & st & E & H); cbn [exec] in E;
  injection E as <- <-.

Lemma roundLoop_counted tr deadline s pqF pqB st path st' :
  counted st -> runsD tr (roundLoop deadline s pqF pqB) st path st' -> counted st'.
Proof.
  revert pqF pqB st. induction deadline as [|d IH]; intros pqF pqB st Hc Hrun;
    cbn [roundLoop] in Hrun; driver_step Hrun.
  - destruct (negb _ && _); driver_step Hrun; by destruct Hrun as [_ <-].
  - destruct (negb _ && _); [|driver_step Hrun; by destruct Hrun as [_ <-]].
    destruct (drain maxPerRound pqF []) as [byLangF pqF1].
    destruct (drain maxPerRound pqB []) as [byLangB pqB1].
    cbn [runsD] in Hrun.
    destruct Hrun as (evs & st1 & rF & rB & oF & oB & Hevs & _ & _ & _ & Hrun).
    assert (counted st1) as Hc1.
    { eapply barrier_counted; [|exact Hc|exact Hevs].
      apply Forall_app; split; apply dispatch_beforeDo. }
    driver_step Hrun.
    destruct (found st1); [driver_step Hrun; by destruct Hrun as [_ <-]|].
    by eapply IH.
Qed.

Lemma Search_counted tr probeStart probeEnd deadline start end_ lang path st' :
  searches tr probeStart probeEnd deadline start end_ lang path st' -> counted st'.
Proof.
  unfold searches, Search.
  destruct (resolve probeStart start lang) as [startLang0 startTitle].
  destruct (resolve probeEnd end_ lang) as [endLang endTitle].
  intros Hrun. driver_step Hrun. driver_step Hrun.
  destruct (_ && _); [by destruct Hrun as [_ <-]|].
  cbn [runsD] in Hrun.
  destruct Hrun as (evs & st1 & rF & rB & oF & oB & Hevs & _ & _ & _ & Hrun).
  assert (counted st1) as Hc1.
  { eapply barrier_counted; [| |exact Hevs]; [|done].
    repeat constructor; apply fetch_beforeDo. }
  driver_step Hrun.
  destruct (found st1); [driver_step Hrun; by destruct Hrun as [_ <-]|].
  by eapply roundLoop_counted.
Qed.

(** C5 (amended).  When a search returns, whatever the interleaving of
    its goroutines, the request counter equals the number of expansion
    calls whose [client.Do] came back with a response, whatever its status
    and whether or not its body decodes; only a call that ends in a
    transport error leaves the counter alone. *)
Theorem reqCount_counts_responses tr probeStart probeEnd deadline start end_ lang path st' :
  searches tr probeStart probeEnd deadline start end_ lang path st' ->
  reqCount st' = Z.of_nat (responses (calls st')).
Proof. apply Search_counted. Qed.

(** ** The shortcut for equal endpoints *)

(** C2 (amended).  When both titles resolve to the same pair of language
    and title, every execution of [Search] returns the one-node path of
    the start node, there is such an execution, no expansion call is made
    and the request counter stays at 0. *)
Theorem Search_same_endpoints tr probeStart probeEnd deadline start end_ lang :
  resolve probeStart start lang = resolve probeEnd end_ lang ->
  ∃ st0,
    (∀ path st', searches tr probeStart probeEnd deadline start end_ lang path st'
                 <-> path = [startNodeOf probeStart start lang] ∧ st' = st0)
    ∧ calls st0 = [] ∧ reqCount st0 = 0%Z ∧ found st0 = false.
Proof.
  intros Heq. unfold searches, Search, startNodeOf. rewrite <- Heq.
  destruct (resolve probeStart start lang) as [l t]. cbn [fst snd].
  rewrite !String.eqb_refl. cbn [andb].
  eexists. split.
  - intros path st'. split.
    + intros Hrun. driver_step Hrun. driver_step Hrun. destruct Hrun as [<- <-].
      split; reflexivity.
    + intros [-> ->]. cbn [runsD exec]. eexists _, _. split; [done|].
      eexists _, _. split; [done|]. done.
  - done.
Qed.

(** ** Failed expansion calls *)

Lemma fetch_noticed_failure tr s st titles lang dir :
  found st = false -> titles ≠ [] ->
  noticedFailure (outcomeAt tr st titles lang dir) ->
  run (fetch s titles lang dir) tr st
  = Returned ([], afterFailure (outcomeAt tr st titles lang dir) titles lang dir st).
Proof.
  intros Hfound Htitles Hfail. unfold fetch, afterFailure.
  rewrite run_bind, run_call. cbn [exec]. rewrite Hfound.
  destruct titles as [|t titles]; [done|]. cbn [orb length Nat.eqb].
  rewrite run_bind, run_call. cbn [exec]. fold (outcomeAt tr st (t :: titles) lang dir).
  destruct (outcomeAt tr st (t :: titles) lang dir) as [|status body]; [done|].
  simpl in Hfail. subst body. rewrite run_bind, run_call. done.
Qed.



(** ** Parent walks *)

Lemma walk_more_fuel n n' m c l :
  walk n m c = Some l -> (n <= n')%nat -> walk n' m c = Some l.
Proof.
  revert n' c l. induction n as [|n IH]; intros n' c l H Hle; simpl in H; [done|].
  destruct n' as [|n']; [lia|]. simpl.
  destruct (m !! Key c) as [[p|]|]; [|done..].
  destruct (walk n m p) as [l0|] eqn:E; simplify_eq/=.
  by rewrite (IH n' p l0 E) by lia.
Qed.

Lemma walk_exact_fuel n m c l : walk n m c = Some l -> walk (length l) m c = Some l.
Proof.
  revert c l. induction n as [|n IH]; intros c l H; simpl in H; [done|].
  destruct (m !! Key c) as [[p|]|] eqn:Ek.
  - destruct (walk n m p) as [l0|] eqn:E; simplify_eq/=.
    by rewrite Ek, (IH p l0 E).
  - simplify_eq/=. by rewrite Ek.
  - simplify_eq/=. by rewrite Ek.
Qed.

Lemma walk_deterministic n n' m c l l' :
  walk n m c = Some l -> walk n' m c = Some l' -> l = l'.
Proof.
  intros H H'.
  apply (walk_more_fuel _ (n + n')) in H; [|lia].
  apply (walk_more_fuel _ (n + n')) in H'; [|lia]. congruence.
Qed.

Lemma walk_head n m c l : walk n m c = Some l -> head l = Some c.
Proof.
  destruct n as [|n]; simpl; [done|].
  destruct (m !! Key c) as [[p|]|]; [|by intros [= <-]..].
  destruct (walk n m p); [|done]. by intros [= <-].
Qed.

(** The length of a finished walk depends on the key of its first node only. *)
Lemma walk_length_key n n' m c c' l l' :
  walk n m c = Some l -> walk n' m c' = Some l' -> Key c = Key c' ->
  length l = length l'.
Proof.
  intros H H' Hk.
  destruct n as [|n], n' as [|n']; simpl in *; try done.
  rewrite <- Hk in H'.
  destruct (m !! Key c) as [[p|]|]; simplify_eq/=; try done.
  destruct (walk n m p) as [l0|] eqn:E, (walk n' m p) as [l0'|] eqn:E'; simplify_eq/=.
  by rewrite (walk_deterministic _ _ _ _ _ _ E E').
Qed.

Lemma walk_from_member n m c l x :
  walk n m c = Some l -> x ∈ l ->
  ∃ n' l', walk n' m x = Some l' ∧ (length l' <= length l)%nat.
Proof.
  revert c l. induction n as [|n IH]; intros c l H Hx; simpl in H; [done|].
  destruct (m !! Key c) as [[p|]|] eqn:Ek.
  - destruct (walk n m p) as [l0|] eqn:E; simplify_eq/=.
    apply elem_of_cons in Hx as [-> | Hx].
    + exists (S n), (c :: l0). simpl. by rewrite Ek, E.
    + destruct (IH p l0 E Hx) as (n' & l' & Hw & Hlen).
      exists n', l'. split; [done|lia].
  - simplify_eq/=. apply list_elem_of_singleton in Hx as ->.
    exists 1%nat, [c]. simpl. by rewrite Ek.
  - simplify_eq/=. apply list_elem_of_singleton in Hx as ->.
    exists 1%nat, [c]. simpl. by rewrite Ek.
Qed.

Lemma walk_keys_NoDup n m c l : walk n m c = Some l -> NoDup (Key <$> l).
Proof.
  revert c l. induction n as [|n IH]; intros c l H; [done|].
  simpl in H.
  destruct (m !! Key c) as [[p|]|] eqn:Ek.
  - destruct (walk n m p) as [l0|] eqn:E; simplify_eq/=.
    assert (H0 : walk (S n) m c = Some (c :: l0)) by (simpl; by rewrite Ek, E).
    constructor; [|by eapply IH].
    intros (x & Hkx & Hx)%list_elem_of_fmap.
    destruct (walk_from_member _ _ _ _ _ E Hx) as (n' & l' & Hw & Hlen).
    pose proof (walk_length_key _ _ _ _ _ _ _ H0 Hw Hkx) as Hl. simpl in Hl. lia.
  - simplify_eq/=. apply NoDup_singleton.
  - simplify_eq/=. apply NoDup_singleton.
Qed.

(** The shape of a finished walk: every node but the last has a parent
    pointer, the last has none or the nil pointer of a root. *)
Lemma walk_shape n m c l :
  walk n m c = Some l ->
  ∃ l0 z, l = (l0 ++ [z])%list
          ∧ Forall (fun x => ∃ p, m !! Key x = Some (Some p)) l0
          ∧ (m !! Key z = None ∨ m !! Key z = Some None).
Proof.
  revert c l. induction n as [|n IH]; intros c l H; simpl in H; [done|].
  destruct (m !! Key c) as [[p|]|] eqn:Ek.
  - destruct (walk n m p) as [l'|] eqn:E; simplify_eq/=.
    destruct (IH p l' E) as (l0 & z & -> & Hall & Hz).
    exists (c :: l0), z. split; [done|]. split; [|done].
    constructor; eauto.
  - simplify_eq/=. exists [], c. auto.
  - simplify_eq/=. exists [], c. auto.
Qed.

Lemma walk_length_bound n m c l : walk n m c = Some l -> (length l <= S (size m))%nat.
Proof.
  intros H. pose proof (walk_keys_NoDup _ _ _ _ H) as Hnd.
  destruct (walk_shape _ _ _ _ H) as (l0 & z & -> & Hall & _).
  rewrite fmap_app in Hnd. apply NoDup_app in Hnd as (Hnd & _ & _).
  rewrite length_app. simpl.
  assert (length (Key <$> l0) <= size (dom m))%nat as Hle.
  { apply submseteq_length, NoDup_submseteq; [done|].
    intros k (x & -> & Hx)%list_elem_of_fmap.
    rewrite Forall_forall in Hall. destruct (Hall x Hx) as [p Hp].
    apply elem_of_elements, elem_of_dom. eauto. }
  rewrite length_fmap, size_dom in Hle. lia.
Qed.

(** A walk that ends at all ends within [size m + 1] loads: running out of
    that bound means the Go loop never exits. *)
Lemma walk_bound_complete m c :
  walk (S (size m)) m c = None -> ∀ fuel, walk fuel m c = None.
Proof.
  intros Hnone fuel. destruct (walk fuel m c) as [l|] eqn:E; [|done].
  pose proof (walk_length_bound _ _ _ _ E) as Hlen.
  apply walk_exact_fuel in E.
  apply (walk_more_fuel _ (S (size m))) in E; [congruence|done].
Qed.

Lemma parentWalk_Hangs m c : parentWalk m c = Hangs <-> ∀ fuel, walk fuel m c = None.
Proof.
  unfold parentWalk. split.
  - destruct (walk (S (size m)) m c) eqn:E; [done|]. intros _. by apply walk_bound_complete.
  - intros H. by rewrite H.
Qed.

Lemma parentWalk_Returned m c l :
  parentWalk m c = Returned l <-> ∃ fuel, walk fuel m c = Some l.
Proof.
  unfold parentWalk. split.
  - destruct (walk (S (size m)) m c) eqn:E; [|done]. intros [= ->]. eauto.
  - intros [fuel H]. pose proof (walk_length_bound _ _ _ _ H).
    apply walk_exact_fuel in H.
    by rewrite (walk_more_fuel _ (S (size m)) _ _ _ H).
Qed.

(** ** The meeting claim under interleaving *)


Lemma exec_found {X} (op : Op X) tr st x st' :
  exec op tr st = Returned (x, st') ->
  found st' = found st || isWin op x
  ∧ (isWin op x = true -> found st = false)
  ∧ (isLoss op x = true -> st' = st ∧ found st = true).
Proof.
  intros Hexec.
  destruct op; simpl in Hexec;
    repeat match goal with
           | H : context [match ?x with _ => _ end] |- _ => destruct x eqn:?
           end; simplify_eq; simpl; rewrite ?orb_false_r;
    try (destruct m; simpl); repeat split; intros; simplify_eq; auto.
Qed.

Lemma isWin_isCAS {X} (op : Op X) x : isWin op x = true -> isCAS op = true.
Proof. by destruct op. Qed.

Lemma claiming_bind {A B} (Q : A -> Prop) (Q' : B -> Prop) (p : Prog A) (f : A -> Prog B) :
  claiming Q p -> (∀ a, Q a -> claiming Q' (f a)) -> claiming Q' (bind p f).
Proof.
  intros Hp Hf. induction p as [a | X op k IH]; simpl in *; [auto|].
  destruct Hp as [Hcas Hk]. split; [done|]. intros x. apply IH, Hk.
Qed.

Lemma quiet_bind {A B} (P Q : A -> Prop) (P' Q' : B -> Prop) (p : Prog A) (f : A -> Prog B) :
  quiet P Q p -> (∀ a, P a -> quiet P' Q' (f a)) -> (∀ a, Q a -> claiming Q' (f a)) ->
  quiet P' Q' (bind p f).
Proof.
  intros Hp Hf Hc. induction p as [a | X op k IH]; simpl in *; [auto|].
  destruct Hp as [Hrec Hk]. split; [done|]. intros x. specialize (Hk x).
  destruct (isWin op x); [by eapply claiming_bind | by apply IH].
Qed.

Lemma quiet_call {X} (P Q : X -> Prop) (op : Op X) :
  isRecord op = false -> (∀ x, if isWin op x then Q x else P x) -> quiet P Q (call op).
Proof. intros Hrec H. simpl. split; [done|]. intros x. specialize (H x). by destruct (isWin op x). Qed.

Ltac quiet_plain :=
  eapply quiet_bind with (P := anything) (Q := fun _ => False);
  [ by apply quiet_call | intros ? _ | intros ? [] ].

Lemma visit_quiet dir parent child newNodes :
  quiet anything (fun r => r = None) (visit dir parent child newNodes).
Proof.
  unfold visit. quiet_plain.
  eapply quiet_bind with (P := fun b => b = false) (Q := fun b => b = true).
  - destruct (exists_ a); [|done]. apply quiet_call; [done|]. by intros [|].
  - intros claimed ->. quiet_plain. done.
  - intros claimed ->. simpl. repeat split.
Qed.

Lemma visitAll_quiet dir parent children newNodes :
  quiet anything (fun r => r = None) (visitAll dir parent children newNodes).
Proof.
  revert newNodes. induction children as [|c cs IH]; intros newNodes; cbn [visitAll]; [done|].
  eapply quiet_bind; [apply visit_quiet| |].
  - intros [nn|] _; [apply IH | done].
  - by intros r ->.
Qed.

Lemma pagesLoop_quiet s lang dir pages newNodes :
  quiet anything anything (pagesLoop s lang dir pages newNodes).
Proof.
  revert newNodes. induction pages as [|pg pages IH]; intros newNodes; cbn [pagesLoop]; [done|].
  quiet_plain. destruct a; [done|].
  eapply quiet_bind; [apply visitAll_quiet| |]; [|by intros r ->].
  intros [nn|] _; [|done].
  eapply quiet_bind; [apply visitAll_quiet| |]; [|by intros r ->].
  intros [nn'|] _; [apply IH | done].
Qed.

Lemma fetch_quiet s titles lang dir : quiet anything anything (fetch s titles lang dir).
Proof.
  unfold fetch. quiet_plain. destruct (a || _); [done|].
  quiet_plain. destruct a0 as [|status body]; [done|].
  quiet_plain. destruct body; [apply pagesLoop_quiet | done].
Qed.


Lemma wins_snoc evs ev :
  wins (evs ++ [ev]) = (wins evs + if isWinEvent ev then 1 else 0)%nat.
Proof.
  unfold wins. rewrite List.filter_app, length_app. simpl.
  by destruct (isWinEvent ev).
Qed.

Lemma find_snoc {A} (f : A -> bool) (l : list A) (x : A) :
  List.find f (l ++ [x])
  = match List.find f l with
    | Some y => Some y
    | None => if f x then Some x else None
    end.
Proof.
  induction l as [|y l IH]; simpl; [done|]. by destruct (f y).
Qed.

Lemma wins_zero_find evs : wins evs = 0%nat -> List.find isWinEvent evs = None.
Proof.
  unfold wins. induction evs as [|ev evs IH]; simpl; [done|].
  destruct (isWinEvent ev); simpl; [done|auto].
Qed.

Lemma winner_keeps evs ev tid : winner evs = Some tid -> winner (evs ++ [ev]) = Some tid.
Proof.
  unfold winner. rewrite find_snoc. by destruct (List.find isWinEvent evs).
Qed.

Lemma winner_first evs ev :
  wins evs = 0%nat -> isWinEvent ev = true -> winner (evs ++ [ev]) = actor ev.
Proof.
  intros Hz Hw. unfold winner. rewrite find_snoc, (wins_zero_find _ Hz), Hw. done.
Qed.

Lemma winner_event evs tid :
  winner evs = Some tid ->
  ∃ j w, evs !! j = Some w ∧ isWinEvent w = true ∧ actor w = Some tid.
Proof.
  unfold winner. destruct (List.find isWinEvent evs) as [w|] eqn:E; [|done].
  simpl. intros Hact. apply find_some in E as [Hin Hw].
  apply list_elem_of_In, list_elem_of_lookup in Hin as [j Hj]. eauto.
Qed.

Lemma recordsByWinner_snoc evs ev :
  recordsByWinner evs ->
  (isRecordEvent ev = true ->
   ∃ j w, evs !! j = Some w ∧ isWinEvent w = true ∧ actor w = actor ev) ->
  recordsByWinner (evs ++ [ev]).
Proof.
  intros Hold Hnew i e Hi Hrec.
  destruct (decide (i < length evs)%nat) as [Hlt|Hge].
  - rewrite lookup_app_l in Hi by done.
    destruct (Hold i e Hi Hrec) as (j & w & Hj & Hw & ?).
    exists j, w. rewrite lookup_app_l by lia. auto.
  - rewrite lookup_app_r in Hi by lia.
    destruct (i - length evs)%nat as [|n] eqn:En; simplify_eq/=.
    destruct (Hnew Hrec) as (j & w & Hj & ?).
    pose proof (lookup_lt_Some _ _ _ Hj).
    exists j, w. rewrite lookup_app_l by lia. split; [lia|auto].
Qed.

Lemma claimInv_step evs c1 ev c2 : claimInv evs c1 -> step c1 ev c2 -> claimInv (evs ++ [ev]) c2.
Proof.
  intros (Hle & Hiff & Hpool & Hrec) Hstep.
  destruct ev as [s titles lang dir | tid X op x]; simpl in Hstep.
  - destruct Hstep as [Hsh Hp]. unfold claimInv.
    rewrite wins_snoc, Hsh. simpl. rewrite Nat.add_0_r.
    split; [done|]. split; [done|]. split.
    + intros tid p Hl. rewrite Hp in Hl.
      apply lookup_app_Some in Hl as [Hl | [_ Hl]].
      * destruct (Hpool tid p Hl) as [?|[? ?]]; [by left|].
        right. split; [done|]. by apply winner_keeps.
      * destruct (tid - length (pool c1))%nat; simplify_eq/=.
        left. apply fetch_quiet.
    + apply recordsByWinner_snoc; [done|]. done.
  - destruct Hstep as (tr & k & Hl & Hexec & Hp).
    destruct (exec_found _ _ _ _ _ Hexec) as (Hf & Hwin & _).
    pose proof (lookup_lt_Some _ _ _ Hl) as Hlt.
    assert (Hothers : ∀ t p, t ≠ tid -> pool c2 !! t = Some p -> pool c1 !! t = Some p).
    { intros t p Hne Hlt'. by rewrite Hp, list_lookup_insert_ne in Hlt'. }
    assert (Hself : ∀ p, pool c2 !! tid = Some p -> p = k x).
    { intros p Hlt'. rewrite Hp, list_lookup_insert_eq in Hlt' by done. congruence. }
    unfold claimInv. rewrite wins_snoc. simpl.
    destruct (Hpool tid _ Hl) as [[Hnorec Hk] | [[Hcas Hk] Hwinner]].
    + specialize (Hk x). destruct (isWin op x) eqn:Ew.
      * (* the winning compare-and-swap *)
        specialize (Hwin eq_refl).
        assert (wins evs = 0%nat) as Hz.
        { destruct (wins evs) as [|[|n]] eqn:En; [done| |lia].
          destruct Hiff as [_ Hiff]. rewrite Hiff in Hwin; done. }
        rewrite Hz, Hf, orb_true_r. split; [lia|]. split; [done|]. split.
        -- intros t p Hlt'. destruct (decide (t = tid)) as [->|Hne].
           ++ right. rewrite (Hself p Hlt'). split; [done|].
              by rewrite winner_first.
           ++ destruct (Hpool t p (Hothers t p Hne Hlt')) as [?|[_ Hw]]; [by left|].
              unfold winner in Hw. by rewrite wins_zero_find in Hw.
        -- apply recordsByWinner_snoc; [done|]. simpl. by rewrite Hnorec.
      * rewrite Hf, orb_false_r, Nat.add_0_r. split; [done|]. split; [done|]. split.
        -- intros t p Hlt'. destruct (decide (t = tid)) as [->|Hne].
           ++ left. by rewrite (Hself p Hlt').
           ++ destruct (Hpool t p (Hothers t p Hne Hlt')) as [?|[? ?]]; [by left|].
              right. split; [done|]. by apply winner_keeps.
        -- apply recordsByWinner_snoc; [done|]. simpl. by rewrite Hnorec.
    + assert (isWin op x = false) as Ew.
      { destruct (isWin op x) eqn:E; [|done]. apply isWin_isCAS in E. congruence. }
      rewrite Ew in Hf |- *.
      rewrite Hf, orb_false_r, Nat.add_0_r. split; [done|]. split; [done|]. split.
      * intros t p Hlt'. destruct (decide (t = tid)) as [->|Hne].
        -- right. rewrite (Hself p Hlt'). split; [apply Hk | by apply winner_keeps].
        -- destruct (Hpool t p (Hothers t p Hne Hlt')) as [?|[? ?]]; [by left|].
           right. split; [done|]. by apply winner_keeps.
      * apply recordsByWinner_snoc; [done|]. simpl. intros _.
        by apply winner_event.
Qed.

Lemma claimInv_steps c0 evs c :
  found (shared c0) = false -> pool c0 = [] -> steps c0 evs c -> claimInv evs c.
Proof.
  intros Hf Hp Hsteps. induction Hsteps as [c | c evs c1 ev c2 Hsteps IH Hstep].
  - split; [unfold wins; simpl; lia|]. split; [by rewrite Hf|]. split.
    + intros tid p. by rewrite Hp.
    + intros i ev Hi. done.
  - eapply claimInv_step; [|exact Hstep]. by apply IH.
Qed.

Lemma step_found_mono c ev c' : step c ev c' -> found (shared c) = true -> found (shared c') = true.
Proof.
  destruct ev as [s titles lang dir | tid X op x]; simpl.
  - intros [-> _]. done.
  - intros (k & tr & _ & Hexec & _) Hf.
    destruct (exec_found _ _ _ _ _ Hexec) as (-> & _). by rewrite Hf.
Qed.

Lemma steps_found_mono c evs c' :
  steps c evs c' -> found (shared c) = true -> found (shared c') = true.
Proof.
  induction 1 as [|c evs c1 ev c2 _ IH Hstep]; [done|].
  intros Hf. eapply step_found_mono; eauto.
Qed.

(** Insert-if-absent is first-writer-wins: an entry of a visited map is
    left as it is by every step that is not one of the two writes of a
    meeting claim. *)
Lemma visited_entry_stable c ev c' m k v :
  step c ev c' -> isRecordEvent ev = false ->
  getMap m (shared c) !! k = Some v -> getMap m (shared c') !! k = Some v.
Proof.
  destruct ev as [s titles lang dir | tid X op x]; simpl.
  - intros [-> _] _. done.
  - intros (tr & kont & _ & Hexec & _) Hrec Hk.
    destruct op; simpl in Hexec, Hrec; try discriminate Hrec;
      repeat match goal with
             | H : context [match ?x with _ => _ end] |- _ => destruct x eqn:?
             end; simplify_eq;
      match goal with H : _ = shared c' |- _ => rewrite <- H end; try done;
      try (by destruct m).
    all: destruct m, m0; simpl in *; try done;
      (rewrite lookup_insert_ne; [done|congruence]).
Qed.

(** *** The script of the winner *)

Lemma claimant_bind {A B} ph (Q : A -> Prop) (Q' : B -> Prop) (p : Prog A) (f : A -> Prog B) :
  claimant ph Q p -> (∀ a, Q a -> ∃ b, f a = Ret b ∧ Q' b) -> claimant ph Q' (bind p f).
Proof.
  intros Hp Hf. revert ph Hp. induction p as [a | X op k IH]; intros ph Hp; simpl in *.
  - destruct Hp as [Hfin Hq]. destruct (Hf a Hq) as (b & -> & Hb). done.
  - intros x. destruct (Hp x) as (ph' & Hpr & Hk). exists ph'. split; [done|]. by apply IH.
Qed.

Lemma contender_seen {A} seen (P Q : A -> Prop) (p : Prog A) :
  contender None P Q p -> contender seen P Q p.
Proof.
  destruct p as [a | X op k]; simpl; [done|]. intros [Hrec Hk]. split; [done|].
  intros x. specialize (Hk x). destruct (isWin op x); [|done].
  destruct Hk as (m & key & Hs & _). discriminate Hs.
Qed.

Lemma contender_bind {A B} seen (P Q : A -> Prop) (P' Q' : B -> Prop)
    (p : Prog A) (f : A -> Prog B) :
  contender seen P Q p ->
  (∀ a, P a -> contender None P' Q' (f a)) ->
  (∀ a, Q a -> ∃ b, f a = Ret b ∧ Q' b) ->
  contender seen P' Q' (bind p f).
Proof.
  intros Hp HP HQ. revert seen Hp.
  induction p as [a | X op k IH]; intros seen Hp; simpl in *.
  - apply contender_seen. by apply HP.
  - destruct Hp as [Hrec Hk]. split; [done|]. intros x. specialize (Hk x).
    destruct (isWin op x).
    + destruct Hk as (m & key & -> & Hc). exists m, key. split; [done|].
      by eapply claimant_bind.
    + by apply IH.
Qed.

Lemma own_not_other dir : own dir ≠ other dir.
Proof. unfold own, other. by destruct (String.eqb dir "F"). Qed.

(** The lines of [fetch] for one child: the claim follows the script. *)
Lemma visit_contender dir parent child newNodes :
  contender None anything (fun r => r = None) (visit dir parent child newNodes).
Proof.
  unfold visit. cbn [bind call contender isRecord isWin]. split; [done|]. intros v.
  destruct v as [v|]; cbn [exists_ justSeen bind call contender isRecord isWin].
  - split; [done|]. intros [|].
    + exists (other dir), (Key child). split; [done|].
      cbn [bind call buildPathP claimant]. intros [].
      exists (toWalk (own dir) (Key child) parent). split.
      { exists (other dir), parent. split; [done|]. split; [apply own_not_other|done]. }
      intros fwd. exists (toWalkBack (own dir) child parent fwd). split.
      { by exists (own dir), parent. }
      intros bwd. exists (toAssign (own dir) child parent fwd bwd). split.
      { by exists (own dir), parent, fwd. }
      intros []. exists (toCancel (own dir) child parent fwd bwd). split.
      { by exists (own dir), child, parent, fwd, bwd. }
      intros []. exists (finished (own dir) child parent fwd bwd). split.
      { by exists (own dir), child, parent, fwd, bwd. }
      split; [|done]. by exists (own dir), child, parent, fwd, bwd.
    + cbn [justSeen bind call contender isRecord isWin]. split; [done|]. intros loaded. done.
  - split; [done|]. intros loaded. done.
Qed.

Lemma visitAll_contender dir parent children newNodes :
  contender None anything (fun r => r = None) (visitAll dir parent children newNodes).
Proof.
  revert newNodes. induction children as [|c cs IH]; intros newNodes; cbn [visitAll]; [done|].
  eapply contender_bind; [apply visit_contender| |].
  - intros [nn|] _; [apply IH | done].
  - intros r ->. by exists None.
Qed.

Lemma pagesLoop_contender s lang dir pages newNodes :
  contender None anything anything (pagesLoop s lang dir pages newNodes).
Proof.
  revert newNodes. induction pages as [|pg pages IH]; intros newNodes; cbn [pagesLoop]; [done|].
  cbn [bind call contender isRecord isWin justSeen]. split; [done|]. intros f.
  destruct f; [done|].
  eapply contender_bind; [apply visitAll_contender| |]; [|intros r ->; by exists []].
  intros [nn|] _; [|done].
  eapply contender_bind; [apply visitAll_contender| |]; [|intros r ->; by exists []].
  intros [nn'|] _; [apply IH | done].
Qed.

Lemma fetch_contender s titles lang dir :
  contender None anything anything (fetch s titles lang dir).
Proof.
  unfold fetch. cbn [bind call contender isRecord isWin justSeen]. split; [done|]. intros f.
  destruct (f || _); [done|].
  cbn [bind call contender isRecord isWin justSeen]. split; [done|]. intros [|status body]; [done|].
  cbn [bind call contender isRecord isWin justSeen]. split; [done|]. intros _.
  destruct body; [apply pagesLoop_contender | done].
Qed.

Lemma fetch_waiting st s titles lang dir : waiting st (fetch s titles lang dir).
Proof. exists None. split; [apply fetch_contender|done]. Qed.

(** *** What the others do meanwhile *)

Lemma exec_keeps_known {X} (op : Op X) tr st x st' m k :
  exec op tr st = Returned (x, st') -> knownIn m st k -> knownIn m st' k.
Proof.
  intros Hexec Hk. unfold knownIn in *.
  destruct op; simpl in Hexec;
    repeat match goal with
           | H : context [match ?x with _ => _ end] |- _ => destruct x eqn:?
           end; simplify_eq; try done;
    match goal with m1 : MapRef, m2 : MapRef |- _ => destruct m1, m2 end; simpl in *;
    try done; by apply lookup_insert_is_Some'; right.
Qed.

(** An operation that is not one of the two writes of a claim keeps
    every entry, the result and a cancellation. *)
Lemma exec_calm {X} (op : Op X) tr st x st' :
  isRecord op = false -> exec op tr st = Returned (x, st') ->
  keeps st st' ∧ result st' = result st ∧ (cancelled st = true -> cancelled st' = true).
Proof.
  intros Hrec Hexec.
  destruct op; simpl in Hexec, Hrec; try discriminate Hrec;
    repeat match goal with
           | H : context [match ?x with _ => _ end] |- _ => destruct x eqn:?
           end; simplify_eq; try (by repeat split; [intros ? ? ?|..]).
  - split; [|by destruct m]. intros m' k v' Hk.
    destruct m, m'; simpl in *; try done;
      (rewrite lookup_insert_ne; [done|congruence]).
Qed.

Lemma justSeen_known {X} (op : Op X) tr st x st' m key :
  exec op tr st = Returned (x, st') -> justSeen op x = Some (m, key) -> knownIn m st' key.
Proof.
  destruct op; simpl; try done. intros [= <- <-]. unfold knownIn.
  destruct (getMap m0 st !! key0) eqn:E; simpl; [|done]. intros [= <- <-]. by rewrite E.
Qed.

Lemma waiting_known st st' p :
  (∀ m k, knownIn m st k -> knownIn m st' k) -> waiting st p -> waiting st' p.
Proof. intros Hg (seen & Hc & Hs). exists seen. split; [done|]. intros m key E. eauto. Qed.

Lemma walk_keeps n (m m' : gmap string (option WikiNode)) c l :
  closed m -> is_Some (m !! Key c) -> (∀ k v, m !! k = Some v -> m' !! k = Some v) ->
  walk n m c = Some l -> walk n m' c = Some l.
Proof.
  intros Hcl Hc Hsub. revert c l Hc. induction n as [|n IH]; intros c l [v Hv] H; [done|].
  simpl in *. rewrite Hv in H. rewrite (Hsub _ _ Hv).
  destruct v as [p|]; [|done].
  destruct (walk n m p) as [l0|] eqn:E; [|done].
  rewrite (IH p l0); [done| |done]. by eapply Hcl.
Qed.

Lemma forwardList_keeps (m m' : gmap string (option WikiNode)) meet fwd :
  closed m -> is_Some (m !! Key meet) -> (∀ k v, m !! k = Some v -> m' !! k = Some v) ->
  forwardList m meet = Returned fwd -> forwardList m' meet = Returned fwd.
Proof.
  intros Hcl Hc Hsub. unfold forwardList.
  destruct (parentWalk m meet) as [l| |] eqn:E; [|done..]. intros [= <-].
  apply parentWalk_Returned in E as [fuel E].
  apply (walk_keeps _ _ m') in E; [|done..].
  assert (parentWalk m' meet = Returned l) as -> by (apply parentWalk_Returned; eauto).
  done.
Qed.

Lemma backwardList_keeps (m m' : gmap string (option WikiNode)) meet bwd :
  closed m -> is_Some (m !! Key meet) -> (∀ k v, m !! k = Some v -> m' !! k = Some v) ->
  backwardList m meet = Returned bwd -> backwardList m' meet = Returned bwd.
Proof.
  intros Hcl [v Hv] Hsub. unfold backwardList. rewrite Hv, (Hsub _ _ Hv).
  destruct v as [p|]; [|done]. intros E.
  apply parentWalk_Returned in E as [fuel E].
  apply (walk_keeps _ _ m') in E; [|done| |done]; [|by eapply Hcl].
  apply parentWalk_Returned. eauto.
Qed.

Lemma forwardList_last (m : gmap string (option WikiNode)) meet fwd :
  forwardList m meet = Returned fwd -> last fwd = Some meet.
Proof.
  unfold forwardList, parentWalk.
  destruct (walk (S (size m)) m meet) as [l|] eqn:E; [|done]. intros [= <-].
  apply walk_head in E. destruct l as [|x l]; simplify_eq/=. by rewrite last_snoc.
Qed.

Lemma recorded_calm m key parent st st' :
  keeps st st' -> recorded m key parent st -> recorded m key parent st'.
Proof.
  intros Hk (He & [vF HF] & [vB HB]). split; [by apply Hk|].
  split; [exists vF; by apply (Hk VisitedF)|exists vB; by apply (Hk VisitedB)].
Qed.

Lemma claimFacts_calm ph st st' :
  keeps st st' -> found st' = found st -> result st' = result st ->
  (cancelled st = true -> cancelled st' = true) ->
  claimFacts ph st -> claimFacts ph st'.
Proof.
  intros Hk Hf Hr Hc [Hfound H]. split; [congruence|].
  destruct ph; simpl in *.
  - destruct H as [v Hv]. exists v. by apply Hk.
  - by eapply recorded_calm.
  - destruct H. split; [by eapply recorded_calm|done].
  - destruct H. split; [by eapply recorded_calm|done].
  - destruct H as (? & ? & ?). split; [by eapply recorded_calm|]. split; [done|congruence].
  - destruct H as (? & ? & ? & ?). split; [by eapply recorded_calm|]. split; [done|].
    split; [congruence|auto].
Qed.

Lemma walkFacts_calm ph st st' :
  closed (visitedF st) -> closed (visitedB st) ->
  keeps st st' -> result st' = result st ->
  claimFacts ph st -> walkFacts ph st -> walkFacts ph st'.
Proof.
  intros HcF HcB Hk Hr [_ Hfacts] H.
  pose proof (Hk VisitedF) as HkF. pose proof (Hk VisitedB) as HkB. simpl in HkF, HkB.
  destruct ph; simpl in *; try congruence.
  - destruct Hfacts as [(_ & HF & _) _]. destruct H as [? ?].
    split; [congruence|]. exact (forwardList_keeps _ _ _ _ HcF HF HkF ltac:(eassumption)).
  - destruct Hfacts as [(_ & HF & HB) _]. destruct H as (? & ? & ?).
    split; [congruence|].
    split; [exact (forwardList_keeps _ _ _ _ HcF HF HkF ltac:(eassumption))|exact (backwardList_keeps _ _ _ _ HcB HB HkB ltac:(eassumption))].
  - destruct Hfacts as [(_ & HF & HB) _]. destruct H as (? & ?).
    split; [exact (forwardList_keeps _ _ _ _ HcF HF HkF ltac:(eassumption))|exact (backwardList_keeps _ _ _ _ HcB HB HkB ltac:(eassumption))].
  - destruct Hfacts as [(_ & HF & HB) _]. destruct H as (? & ?).
    split; [exact (forwardList_keeps _ _ _ _ HcF HF HkF ltac:(eassumption))|exact (backwardList_keeps _ _ _ _ HcB HB HkB ltac:(eassumption))].
Qed.

(** One operation of the winner. *)
Lemma winner_step strict {X} (op : Op X) tr st x st' ph ph' :
  proceeds ph op x ph' -> exec op tr st = Returned (x, st') ->
  claimFacts ph st -> (strict = true -> walkFacts ph st) ->
  claimFacts ph' st' ∧ (strict = true -> walkFacts ph' st').
Proof.
  intros Hpr Hexec [Hfound Hfacts] Hwalk.
  destruct op; simpl in Hpr; try done.
  - destruct Hpr as (seen & parent & -> & Hne & -> & ->).
    cbn [exec] in Hexec. simplify_eq. simpl in Hfacts.
    split; [|intros Hs; specialize (Hwalk Hs); simpl in *; by destruct m].
    split; [by destruct m|]. unfold recorded, knownIn in *.
    destruct m, seen; try done; simpl; rewrite lookup_insert_eq;
      (split; [done|]); split; by eauto.
  - destruct Hpr as (m & parent & -> & ->).
    cbn [exec] in Hexec.
    destruct (forwardList (visitedF st) meet) as [l| |] eqn:E; simplify_eq.
    split; [|intros Hs; specialize (Hwalk Hs); simpl in *; by split].
    split; [done|]. simpl in *. split; [done|]. by eapply forwardList_last.
  - destruct Hpr as (m & parent & fwd & -> & ->).
    cbn [exec] in Hexec.
    destruct (backwardList (visitedB st) meet) as [l| |] eqn:E; simplify_eq.
    split; [|intros Hs; specialize (Hwalk Hs); simpl in *; by destruct Hwalk].
    split; [done|]. simpl in *. done.
  - destruct Hpr as (m & meet & parent & fwd & bwd & -> & -> & ->).
    cbn [exec] in Hexec. simplify_eq.
    split; [|intros Hs; specialize (Hwalk Hs); simpl in *; by destruct Hwalk as (_ & ? & ?)].
    split; [done|]. simpl in *. destruct Hfacts. done.
  - destruct Hpr as (m & meet & parent & fwd & bwd & -> & ->).
    cbn [exec] in Hexec. simplify_eq.
    split; [|intros Hs; specialize (Hwalk Hs); simpl in *; done].
    split; [done|]. simpl in *. destruct Hfacts as (? & ? & ?). done.
Qed.

(** One operation of one goroutine. *)
Lemma perform_claimState strict tr c tid X (op : Op X) x c' w :
  perform tr c tid op x c' -> claimState strict w c ->
  (strict = true -> closed (visitedF (shared c)) ∧ closed (visitedB (shared c))) ->
  claimState strict (laterWinner w (performed tid op x)) c'.
Proof.
  intros (k & Hl & Hexec & Hp) Hst Hclosed.
  pose proof (fun m key => exec_keeps_known _ _ _ _ _ m key Hexec) as Hg.
  pose proof (exec_found _ _ _ _ _ Hexec) as (Hf & Hwin & _).
  pose proof (lookup_lt_Some _ _ _ Hl) as Hlt.
  assert (Hothers : ∀ t p, t ≠ tid -> pool c' !! t = Some p -> pool c !! t = Some p).
  { intros t p Hne Hlt'. by rewrite Hp, list_lookup_insert_ne in Hlt'. }
  assert (Hself : pool c' !! tid = Some (k x)).
  { by rewrite Hp, list_lookup_insert_eq. }
  assert (Hrest' : ∀ t p, t ≠ tid -> pool c !! t = Some p ->
                          waiting (shared c) p -> waiting (shared c') p).
  { intros t p _ _. by apply waiting_known. }
  destruct w as [t|]; cbn [laterWinner claimState] in *.
  - destruct Hst as [(ph & p & Hpt & Hcl & Hfacts & Hwalk) Hrest].
    destruct (decide (tid = t)) as [->|Hne].
    + rewrite Hl in Hpt. injection Hpt as <-.
      cbn [claimant] in Hcl. destruct (Hcl x) as (ph' & Hpr & Hk).
      destruct (winner_step strict _ _ _ _ _ _ _ Hpr Hexec Hfacts Hwalk) as [Hfacts' Hwalk'].
      split; [by exists ph', (k x)|].
      intros t' p' Hne' Hl'. eapply waiting_known; [exact Hg|].
      apply (Hrest t'); [done|]. by apply Hothers.
    + destruct (Hrest tid _ Hne Hl) as (seen & [Hrec Hk] & Hseen).
      assert (isWin op x = false) as Ew.
      { destruct (isWin op x); [|done]. destruct Hfacts as [Hfound _].
        specialize (Hwin eq_refl). congruence. }
      specialize (Hk x). rewrite Ew in Hk. rewrite Ew, orb_false_r in Hf.
      destruct (exec_calm _ _ _ _ _ Hrec Hexec) as (Hkeep & Hres & Hcan).
      split.
      * exists ph, p. split; [by rewrite Hp, list_lookup_insert_ne|]. split; [done|].
        split; [by eapply claimFacts_calm|].
        intros Hs. destruct (Hclosed Hs). eapply walkFacts_calm; eauto.
      * intros t' p' Hne' Hl'. destruct (decide (t' = tid)) as [->|Hne2].
        -- rewrite Hself in Hl'. injection Hl' as <-. exists (justSeen op x).
           split; [done|]. intros m key E. by eapply justSeen_known.
        -- eapply waiting_known; [exact Hg|]. apply (Hrest t'); [done|]. by apply Hothers.
  - destruct Hst as (Hfound & Hres0 & Hall).
    destruct (Hall tid _ Hl) as (seen & [Hrec Hk] & Hseen). specialize (Hk x).
    destruct (exec_calm _ _ _ _ _ Hrec Hexec) as (Hkeep & Hres & Hcan).
    cbn [isWinEvent actor]. destruct (isWin op x) eqn:Ew; cbn [claimState].
    + destruct Hk as (m & key & -> & Hcl). split.
      * exists (toStore m key), (k x). split; [done|]. split; [done|]. split.
        -- split; [by rewrite Hf, orb_true_r|]. simpl. by apply Hg, Hseen.
        -- intros Hs. simpl. rewrite Hres. by apply Hres0.
      * intros t' p' Hne' Hl'. eapply waiting_known; [exact Hg|].
        apply Hall with t'. by apply Hothers.
    + split; [by rewrite Hf, Hfound|]. split; [intros Hs; rewrite Hres; by apply Hres0|].
      intros t' p' Hl'. destruct (decide (t' = tid)) as [->|Hne2].
      * rewrite Hself in Hl'. injection Hl' as <-. exists (justSeen op x).
        split; [done|]. intros m key E. by eapply justSeen_known.
      * eapply waiting_known; [exact Hg|]. apply Hall with t'. by apply Hothers.
Qed.

Lemma step_claimState c ev c' w :
  step c ev c' -> claimState false w c -> claimState false (laterWinner w ev) c'.
Proof.
  destruct ev as [s titles lang dir | tid X op x]; simpl.
  - intros [Hsh Hp] Hst.
    assert (∀ tid p, pool c' !! tid = Some p ->
                     pool c !! tid = Some p ∨ waiting (shared c') p) as Hnew.
    { intros tid p Hl. rewrite Hp in Hl. apply lookup_app_Some in Hl as [Hl | [_ Hl]];
        [by left|]. right.
      destruct (tid - length (pool c))%nat; simplify_eq/=. apply fetch_waiting. }
    destruct w as [t|]; cbn [laterWinner claimState isWinEvent] in *; rewrite Hsh.
    + destruct Hst as [(ph & p & Hpt & Hrest) Hothers]. split.
      * exists ph, p. split; [|done]. rewrite Hp. by apply lookup_app_l_Some.
      * intros tid p' Hne Hl. destruct (Hnew _ _ Hl) as [?|Hw]; [eauto|by rewrite Hsh in Hw].
    + destruct Hst as (? & ? & Hall). split; [done|]. split; [done|].
      intros tid p' Hl. destruct (Hnew _ _ Hl) as [?|Hw]; [eauto|by rewrite Hsh in Hw].
  - intros [tr Hperf] Hst. eapply perform_claimState; [exact Hperf|exact Hst|done].
Qed.

Lemma winner_snoc evs ev : winner (evs ++ [ev]) = laterWinner (winner evs) ev.
Proof.
  unfold winner. rewrite find_snoc.
  destruct (List.find isWinEvent evs) as [w|] eqn:E; simpl.
  - apply find_some in E as [_ Hw]. by destruct w.
  - by destruct (isWinEvent ev).
Qed.

Lemma claimState_steps c0 evs c :
  found (shared c0) = false -> pool c0 = [] -> steps c0 evs c ->
  claimState false (winner evs) c.
Proof.
  intros Hf Hp Hsteps. induction Hsteps as [c | c evs c1 ev c2 Hsteps IH Hstep].
  - split; [done|]. split; [done|]. intros tid p. by rewrite Hp.
  - rewrite winner_snoc. eapply step_claimState; [exact Hstep|]. by apply IH.
Qed.


Lemma choose_step ch c c' ev : choose ch c = Some (c', ev) -> step c ev c'.
Proof.
  destruct ch as [s titles lang dir | tid tr]; simpl.
  - intros [= <- <-]. done.
  - destruct (pool c !! tid) as [[a|X op k]|] eqn:El; [done| |done].
    destruct (exec op tr (shared c)) as [[x st']| |] eqn:E; [|done..].
    intros [= <- <-]. simpl. exists tr, k. done.
Qed.

Lemma schedule_steps chs c0 evs c :
  steps c0 evs c -> steps c0 (schedule chs c evs).2 (schedule chs c evs).1.
Proof.
  revert c evs. induction chs as [|ch chs IH]; intros c evs Hsteps; simpl; [done|].
  destruct (choose ch c) as [[c' ev]|] eqn:E; [|done].
  apply IH. eapply steps_snoc; [exact Hsteps|]. by eapply choose_step.
Qed.

(** ** Endpoints of the reconstructed path *)


Lemma walk_all_known n m c l :
  closed m -> is_Some (m !! Key c) -> walk n m c = Some l ->
  Forall (fun x => is_Some (m !! Key x)) l.
Proof.
  intros Hcl. revert c l. induction n as [|n IH]; intros c l Hc H; simpl in H; [done|].
  destruct (m !! Key c) as [[p|]|] eqn:Ek.
  - destruct (walk n m p) as [l0|] eqn:E; simplify_eq/=.
    constructor; [by rewrite Ek|]. eapply IH; [|done]. by eapply Hcl.
  - simplify_eq/=. constructor; [by rewrite Ek|done].
  - simplify_eq/=. constructor; [by rewrite Ek|done].
Qed.

(** A finished walk over a closed map from a known key ends on the root. *)
Lemma walk_ends_on_root n m c l root :
  closed m -> rootOnly m root -> is_Some (m !! Key c) -> walk n m c = Some l ->
  ∃ l0 z, l = (l0 ++ [z])%list ∧ Key z = root.
Proof.
  intros Hcl Hroot Hc H.
  pose proof (walk_all_known _ _ _ _ Hcl Hc H) as Hknown.
  destruct (walk_shape _ _ _ _ H) as (l0 & z & -> & _ & Hz).
  exists l0, z. split; [done|].
  apply Forall_app in Hknown as [_ Hzk]. inversion Hzk as [|? ? [v Hv] _]; subst.
  destruct Hz as [Hz|Hz]; [congruence|]. by apply Hroot.
Qed.

(** The forward half of [buildPath] starts on the root of the forward map. *)
Lemma forwardList_head vF meet fwd startKey :
  closed vF -> rootOnly vF startKey -> is_Some (vF !! Key meet) ->
  forwardList vF meet = Returned fwd ->
  ∃ first, head fwd = Some first ∧ Key first = startKey.
Proof.
  intros HcF HrF HmF Hf. unfold forwardList in Hf.
  destruct (parentWalk vF meet) as [l| |] eqn:Ew; simplify_eq.
  apply parentWalk_Returned in Ew as [n Hw].
  destruct (walk_ends_on_root _ _ _ _ _ HcF HrF HmF Hw) as (l0 & z & -> & Hz).
  exists z. by rewrite rev_app_distr.
Qed.

(** The backward half ends on the root of the backward map. *)
Lemma backwardList_last vB meet bwd endKey :
  closed vB -> rootOnly vB endKey -> is_Some (vB !! Key meet) ->
  backwardList vB meet = Returned bwd ->
  ∃ final, last bwd = Some final ∧ Key final = endKey.
Proof.
  intros HcB HrB [v Hv] Hb. unfold backwardList in Hb. rewrite Hv in Hb.
  destruct v as [p|]; [|done].
  apply parentWalk_Returned in Hb as [n Hw].
  assert (is_Some (vB !! Key p)) as Hp by (by eapply HcB).
  destruct (walk_ends_on_root _ _ _ _ _ HcB HrB Hp Hw) as (l0 & z & -> & Hz).
  exists z. by rewrite last_snoc.
Qed.

Lemma joins_app startKey endKey fwd bwd first final :
  head fwd = Some first -> Key first = startKey ->
  last bwd = Some final -> Key final = endKey ->
  joins startKey endKey (fwd ++ bwd).
Proof.
  intros Hh Hf Hl Hb. exists first, final.
  destruct fwd as [|x fwd]; [done|]. simpl in Hh.
  apply last_Some in Hl as [l' ->].
  split; [done|]. split; [|done].
  by rewrite app_assoc, last_snoc.
Qed.

(** ** Expansions over a faithful transport, interleaved *)

Lemma exec_grows {X} (op : Op X) tr st x st' :
  exec op tr st = Returned (x, st') -> grows st st'.
Proof.
  intros Hexec m' k Hk. unfold knownIn in *.
  destruct op; simpl in Hexec;
    repeat match goal with
           | H : context [match ?x with _ => _ end] |- _ => destruct x eqn:?
           end; simplify_eq; try done;
    destruct m, m'; simpl in *; try done;
    by apply lookup_insert_is_Some'; right.
Qed.

Lemma allKnown_grows m st st' l : grows st st' -> allKnown m st l -> allKnown m st' l.
Proof. intros Hg H. eapply Forall_impl; [exact H|]. intros n. apply Hg. Qed.

Lemma closed_insert m k p :
  closed m -> is_Some (m !! Key p) -> closed (<[k := Some p]> m).
Proof.
  intros Hcl Hp k' p' Hl. apply lookup_insert_is_Some'. right.
  destruct (decide (k = k')) as [->|Hne].
  - rewrite lookup_insert_eq in Hl. by simplify_eq.
  - rewrite lookup_insert_ne in Hl by done. by eapply Hcl.
Qed.

Lemma rootOnly_insert m k p root : rootOnly m root -> rootOnly (<[k := Some p]> m) root.
Proof.
  intros Hr k' Hl. destruct (decide (k = k')) as [->|Hne].
  - by rewrite lookup_insert_eq in Hl.
  - rewrite lookup_insert_ne in Hl by done. by apply Hr.
Qed.

Lemma grows_refl st : grows st st.
Proof. by intros m k. Qed.

Lemma grows_trans st1 st2 st3 : grows st1 st2 -> grows st2 st3 -> grows st1 st3.
Proof. intros H1 H2 m k Hk. by apply H2, H1. Qed.

Lemma ownNodes_stable m : stable (ownNodes m).
Proof. intros nodes st st' Hg H. by eapply allKnown_grows. Qed.

Lemma needs_grows sK eK {X} (op : Op X) st st' :
  grows st st' -> needs sK eK op st -> needs sK eK op st'.
Proof.
  intros Hg. destruct op; simpl; try done.
  - destruct v; [apply Hg|done].
  - destruct v; [apply Hg|done].
  - apply Hg.
  - apply Hg.
Qed.

(** An operation that has what it [needs] keeps [searchInv]. *)
Lemma exec_searchInv sK eK {X} (op : Op X) tr st x st' :
  needs sK eK op st -> searchInv sK eK st ->
  exec op tr st = Returned (x, st') -> searchInv sK eK st'.
Proof.
  intros Hneeds (HcF & HcB & HrF & HrB & Hres) Hexec.
  unfold searchInv, knownIn in *.
  destruct op; simpl in Hneeds, Hexec;
    repeat match goal with
           | H : context [match ?x with _ => _ end] |- _ => destruct x eqn:?
           end; simplify_eq; try done;
    try (destruct m; simpl in *;
         repeat split; auto using closed_insert, rootOnly_insert; fail).
  repeat split; auto.
Qed.

Section Expansion.

Variable tr : Transport.
Variables startKey endKey : string.
Hypothesis Hfaith : faithful tr.

Local Abbreviation safe := (safe tr startKey endKey).
Local Abbreviation needs := (needs startKey endKey).
Local Abbreviation searchInv := (searchInv startKey endKey).
Local Abbreviation joins := (joins startKey endKey).

Lemma safe_grows {A} (R : A -> State -> Prop) (p : Prog A) st st' :
  stable R -> grows st st' -> safe R st p -> safe R st' p.
Proof.
  intros HR Hg. destruct p as [a | X op k]; simpl.
  - by apply HR.
  - intros [Hn Hk]. split; [by eapply needs_grows|].
    intros st1 x st2 Hg1. apply Hk. by eapply grows_trans.
Qed.

Lemma safe_bind {A B} (R' : A -> State -> Prop) (R : B -> State -> Prop)
    (p : Prog A) (f : A -> Prog B) st :
  safe R' st p -> (∀ a st1, grows st st1 -> R' a st1 -> safe R st1 (f a)) ->
  safe R st (bind p f).
Proof.
  revert st. induction p as [a | X op k IH]; intros st Hp Hf; simpl in *.
  - apply Hf; [apply grows_refl|done].
  - destruct Hp as [Hn Hk]. split; [done|].
    intros st1 x st2 Hg Hinv Hexec. eapply IH; [by eapply Hk|].
    intros a st3 Hg3. apply Hf.
    eapply grows_trans; [exact Hg|]. eapply grows_trans; [|exact Hg3].
    by eapply exec_grows.
Qed.

Lemma safe_call {X} (R : X -> State -> Prop) (op : Op X) st :
  needs op st ->
  (∀ st1 x st2, grows st st1 -> searchInv st1 -> exec op tr st1 = Returned (x, st2) -> R x st2) ->
  safe R st (call op).
Proof. intros Hn H. simpl. split; [done|]. exact H. Qed.

Lemma knownIn_insert m st k v : knownIn m (setMap m (<[k := v]> (getMap m st)) st) k.
Proof. unfold knownIn. destruct m; simpl; by rewrite lookup_insert_eq. Qed.

Lemma own_other_known dir st k :
  knownIn (own dir) st k -> knownIn (other dir) st k ->
  knownIn VisitedF st k ∧ knownIn VisitedB st k.
Proof. unfold own, other. by destruct (String.eqb dir "F"). Qed.

(** [buildPath] from a node both maps know. *)
Lemma buildPathP_safe meet st :
  knownIn VisitedF st (Key meet) -> knownIn VisitedB st (Key meet) ->
  safe (fun path st' => joins path) st (buildPathP meet).
Proof.
  intros HF HB. unfold buildPathP.
  eapply safe_bind with
    (R' := fun fwd st1 => ∃ first, head fwd = Some first ∧ Key first = startKey).
  { apply safe_call; [done|]. intros st1 fwd st2 Hg Hinv Hexec. cbn [exec] in Hexec.
    destruct (forwardList (visitedF st1) meet) as [l| |] eqn:E; simplify_eq.
    destruct Hinv as (HcF & _ & HrF & _).
    eapply forwardList_head; [exact HcF|exact HrF| |exact E]. by apply (Hg VisitedF). }
  intros fwd st1 Hg1 (first & Hhead & Hfirst).
  eapply safe_bind with
    (R' := fun bwd st2 => ∃ final, last bwd = Some final ∧ Key final = endKey).
  { apply safe_call; [by apply Hg1|]. intros st2 bwd st3 Hg Hinv Hexec. cbn [exec] in Hexec.
    destruct (backwardList (visitedB st2) meet) as [l| |] eqn:E; simplify_eq.
    destruct Hinv as (_ & HcB & _ & HrB & _).
    eapply backwardList_last; [exact HcB|exact HrB| |exact E]. by apply (Hg VisitedB), Hg1. }
  intros bwd st2 Hg2 (final & Hlast & Hfinal). simpl.
  by eapply joins_app.
Qed.

(** One child of one page. *)
Lemma visit_safe dir parent child nn st :
  knownIn (own dir) st (Key parent) -> allKnown (own dir) st nn ->
  safe (fun r st' => match r with
                     | Some nn' => allKnown (own dir) st' nn'
                     | None => True
                     end) st (visit dir parent child nn).
Proof.
  intros Hp Hnn. unfold visit.
  eapply safe_bind with
    (R' := fun v st1 => exists_ v = true -> knownIn (other dir) st1 (Key child)).
  { apply safe_call; [done|]. intros st1 v st2 Hg _ Hexec. cbn [exec] in Hexec.
    simplify_eq. unfold knownIn. by destruct (getMap (other dir) st2 !! Key child). }
  intros v st1 Hg1 Hv.
  eapply safe_bind with
    (R' := fun claimed st2 => claimed = true -> knownIn (other dir) st2 (Key child)).
  { destruct (exists_ v); [|done].
    apply safe_call; [done|]. intros st1' won st2 Hg _ Hexec _.
    eapply exec_grows; [exact Hexec|]. by apply Hg, Hv. }
  intros claimed st2 Hg2 Hc. destruct claimed.
  - eapply safe_bind with
      (R' := fun _ st3 => knownIn (own dir) st3 (Key child)
                          ∧ knownIn (other dir) st3 (Key child)).
    { apply safe_call; [by apply Hg2, Hg1|]. intros st2' [] st3 Hg _ Hexec.
      cbn [exec] in Hexec. simplify_eq. split; [apply knownIn_insert|].
      eapply (exec_grows (Map_Store (own dir) (Key child) (Some parent)) tr st2');
        [done|]. by apply Hg, Hc. }
    intros _ st3 Hg3 [Ho Ho'].
    destruct (own_other_known _ _ _ Ho Ho') as [HF HB].
    eapply safe_bind; [by apply buildPathP_safe|].
    intros path st4 Hg4 Hj.
    eapply safe_bind with (R' := fun _ _ => True).
    { by apply safe_call. }
    intros _ st5 _ _.
    eapply safe_bind with (R' := fun _ _ => True).
    { by apply safe_call. }
    done.
  - eapply safe_bind with
      (R' := fun loaded st3 =>
               allKnown (own dir) st3 (if loaded : bool then nn else (nn ++ [child])%list)).
    { apply safe_call; [by apply Hg2, Hg1|]. intros st2' loaded st3 Hg _ Hexec.
      pose proof (exec_grows _ _ _ _ _ Hexec) as Hg'.
      assert (allKnown (own dir) st3 nn) as Hnn3.
      { eapply allKnown_grows; [|exact Hnn].
        eauto using grows_trans. }
      cbn [exec] in Hexec.
      destruct (getMap (own dir) st2' !! Key child) eqn:E; simplify_eq; [done|].
      apply Forall_app. split; [done|]. constructor; [|done]. apply knownIn_insert. }
    intros loaded st3 _ H. exact H.
Qed.

Lemma visitAll_safe dir parent children nn st :
  knownIn (own dir) st (Key parent) -> allKnown (own dir) st nn ->
  safe (fun r st' => match r with
                     | Some nn' => allKnown (own dir) st' nn'
                     | None => True
                     end) st (visitAll dir parent children nn).
Proof.
  revert nn st. induction children as [|c cs IH]; intros nn st Hp Hnn; cbn [visitAll].
  - done.
  - eapply safe_bind; [by apply visit_safe|].
    intros [nn'|] st1 Hg H; [|done]. apply IH; [by apply Hg|done].
Qed.

Lemma pagesLoop_safe s lang dir pages nn st :
  Forall (fun pg => knownIn (own dir) st (Key (node lang (pageTitle pg)))) pages ->
  allKnown (own dir) st nn ->
  safe (ownNodes (own dir)) st (pagesLoop s lang dir pages nn).
Proof.
  revert nn st. induction pages as [|pg pages IH]; intros nn st Hpages Hnn; cbn [pagesLoop].
  - done.
  - inversion Hpages as [|? ? Hpg Hrest]; subst.
    eapply safe_bind with (R' := fun _ _ => True); [by apply safe_call|].
    intros f st1 Hg1 _. destruct f; [by constructor|].
    eapply safe_bind.
    { apply visitAll_safe; [by apply Hg1|by eapply allKnown_grows]. }
    intros [nn1|] st2 Hg2 Hnn1; [|by constructor].
    eapply safe_bind.
    { apply visitAll_safe; [by apply Hg2, Hg1|done]. }
    intros [nn2|] st3 Hg3 Hnn2; [|by constructor].
    apply IH; [|done].
    eapply Forall_impl; [exact Hrest|]. intros pg' Hk. by apply Hg3, Hg2, Hg1.
Qed.

(** One expansion, for a batch of titles its own map knows. *)
Lemma fetch_safe s titles lang dir st :
  titlesKnown (own dir) st lang titles ->
  safe (ownNodes (own dir)) st (fetch s titles lang dir).
Proof.
  intros Htitles. unfold fetch.
  eapply safe_bind with (R' := fun _ _ => True); [by apply safe_call|].
  intros f st1 Hg1 _. destruct (f || _); [by constructor|].
  eapply safe_bind with
    (R' := fun out st2 =>
             match out with
             | Response _ (Some pages) =>
               Forall (fun pg => knownIn (own dir) st2 (Key (node lang (pageTitle pg)))) pages
             | _ => True
             end).
  { apply safe_call; [done|]. intros st1' out st2 Hg _ Hexec. cbn [exec] in Hexec.
    injection Hexec as <- <-.
    destruct (cancelled st1'); [done|].
    destruct (tr (length (calls st1')) titles lang dir) as [|status [pages|]] eqn:Etr;
      [done| |done].
    apply Forall_forall. intros pg Hpg.
    destruct (Hfaith _ _ _ _ _ _ _ Etr Hpg) as (t & Ht & ->).
    unfold titlesKnown in Htitles. rewrite Forall_forall in Htitles.
    specialize (Htitles t Ht). apply Hg1, Hg in Htitles. by destruct (own dir). }
  intros [|status body] st2 Hg2 Hout; [by constructor|].
  eapply safe_bind with (R' := fun _ st3 => grows st2 st3).
  { apply safe_call; [done|]. intros st2' [] st3 Hg _ Hexec.
    eapply grows_trans; [exact Hg|]. by eapply exec_grows. }
  intros _ st3 _ Hg3. destruct body as [pages|]; [|by constructor].
  apply pagesLoop_safe; [|by constructor].
  eapply Forall_impl; [exact Hout|]. intros pg. apply Hg3.
Qed.

(** One operation of one goroutine of a group. *)
Lemma perform_safe post c tid X (op : Op X) x c' :
  (∀ t, stable (post t)) ->
  perform tr c tid op x c' -> poolSafe tr startKey endKey post c ->
  poolSafe tr startKey endKey post c' ∧ grows (shared c) (shared c').
Proof.
  intros Hst (k & Hl & Hexec & Hp) [Hinv Hpool].
  pose proof (exec_grows _ _ _ _ _ Hexec) as Hg.
  pose proof (Hpool _ _ Hl) as Hme. simpl in Hme. destruct Hme as [Hn Hk].
  split; [|done]. split; [by eapply exec_searchInv|].
  intros t p Ht. rewrite Hp in Ht.
  destruct (decide (t = tid)) as [->|Hne].
  - rewrite list_lookup_insert_eq in Ht by (by eapply lookup_lt_Some).
    simplify_eq. eapply Hk; [apply grows_refl|done|done].
  - rewrite list_lookup_insert_ne in Ht by done.
    eapply safe_grows; [apply Hst|exact Hg|]. by apply Hpool.
Qed.

Lemma interleaved_safe post c evs c' :
  (∀ t, stable (post t)) ->
  interleaved tr c evs c' -> poolSafe tr startKey endKey post c ->
  poolSafe tr startKey endKey post c' ∧ grows (shared c) (shared c').
Proof.
  intros Hst. induction 1 as [|c tid X op x c1 evs c2 Hp _ IH]; intros Hc.
  - split; [done|apply grows_refl].
  - destruct (perform_safe _ _ _ _ _ _ _ Hst Hp Hc) as [Hc1 Hg1].
    destruct (IH Hc1) as [Hc2 Hg2]. split; [done|]. by eapply grows_trans.
Qed.

(** The same with the script of the winner: over closed maps the walks
    the winner holds stay the walks over the maps as they stand. *)
Lemma interleaved_claimState post c evs c' w :
  (∀ t, stable (post t)) ->
  interleaved tr c evs c' -> poolSafe tr startKey endKey post c -> claimState true w c ->
  ∃ w', claimState true w' c'.
Proof.
  intros Hst Hi. revert w.
  induction Hi as [|c tid X op x c1 evs c2 Hp _ IH]; intros w Hc Hcl; [eauto|].
  destruct (perform_safe _ _ _ _ _ _ _ Hst Hp Hc) as [Hc1 _].
  eapply IH; [exact Hc1|]. eapply perform_claimState; [exact Hp|exact Hcl|].
  intros _. by destruct Hc as [(HcF & HcB & _) _].
Qed.

(** The result at a barrier. *)
Lemma claimState_built w st (rs : list (list WikiNode)) :
  claimState true w (mkConfig st (Ret <$> rs)) -> builtInv st.
Proof.
  destruct w as [t|]; cbn [claimState shared pool].
  - intros [(ph & p & Hl & Hcl & [Hfound Hfacts] & Hwalk) _].
    specialize (Hwalk eq_refl).
    apply list_lookup_fmap_Some in Hl as (r & -> & _).
    destruct Hcl as [(m & meet & parent & fwd & bwd & ->) _]. simpl in Hfacts, Hwalk.
    destruct Hfacts as ((Hrec & HF & HB) & _ & Hres & _). destruct Hwalk as [Hfwd Hbwd].
    split; [congruence|]. right. by exists m, meet, parent, fwd, bwd.
  - intros (Hfound & Hres & _). split; [auto|]. left. by apply Hres.
Qed.

(** From the start of the two groups of a round to the barrier. *)
Lemma barrier_safe st goF goB evs st1 (rF rB : list (list WikiNode)) :
  searchInv st -> found st = false -> result st = [] ->
  Forall (safe (ownNodes VisitedF) st) goF -> Forall (safe (ownNodes VisitedB) st) goB ->
  Forall (waiting st) (goF ++ goB)%list ->
  interleaved tr (mkConfig st (goF ++ goB)%list) evs (mkConfig st1 (Ret <$> (rF ++ rB)%list)) ->
  length rF = length goF ->
  searchInv st1 ∧ grows st st1
  ∧ Forall (allKnown VisitedF st1) rF ∧ Forall (allKnown VisitedB st1) rB
  ∧ builtInv st1.
Proof.
  intros Hinv Hfound Hres HF HB Hwait Hevs Hlen.
  pose (post := fun t : nat => if (t <? length goF)%nat then ownNodes VisitedF
                               else ownNodes VisitedB).
  assert (∀ t, stable (post t)) as Hst.
  { intros t. unfold post. destruct (t <? length goF)%nat; apply ownNodes_stable. }
  assert (poolSafe tr startKey endKey post (mkConfig st (goF ++ goB)%list)) as Hpool0.
  { split; [done|]. simpl. intros t p Ht. unfold post.
    apply lookup_app_Some in Ht as [Ht | [Hge Ht]].
    - pose proof (lookup_lt_Some _ _ _ Ht) as Hlt.
      apply Nat.ltb_lt in Hlt. rewrite Hlt.
      by eapply (Forall_lookup_1 _ _ _ _ HF).
    - apply Nat.ltb_ge in Hge. rewrite Hge.
      by eapply (Forall_lookup_1 _ _ _ _ HB). }
  destruct (interleaved_claimState post _ _ _ None Hst Hevs Hpool0) as [w Hw].
  { split; [done|]. split; [done|]. simpl. intros t p Ht.
    by eapply (Forall_lookup_1 _ _ _ _ Hwait). }
  apply claimState_built in Hw.
  destruct (interleaved_safe post _ _ _ Hst Hevs Hpool0) as [[Hinv1 Hpool] Hg].
  simpl in Hinv1, Hpool, Hg. split; [done|]. split; [done|].
  cut (Forall (allKnown VisitedF st1) rF ∧ Forall (allKnown VisitedB st1) rB); [tauto|].
  split.
  - apply Forall_lookup. intros i r Hr.
    pose proof (lookup_lt_Some _ _ _ Hr) as Hlt.
    specialize (Hpool i (Ret r)). unfold post in Hpool.
    replace (i <? length goF)%nat with true in Hpool
      by (symmetry; apply Nat.ltb_lt; lia).
    apply Hpool. by rewrite list_lookup_fmap, lookup_app_l, Hr.
  - apply Forall_lookup. intros i r Hr.
    specialize (Hpool (length rF + i)%nat (Ret r)). unfold post in Hpool.
    replace (length rF + i <? length goF)%nat with false in Hpool
      by (symmetry; apply Nat.ltb_ge; lia).
    apply Hpool. rewrite list_lookup_fmap, lookup_app_r by lia.
    replace (length rF + i - length rF)%nat with i by lia. by rewrite Hr.
Qed.

End Expansion.

Section Frontier.

(** A property of nodes that does not look at the heap index. *)
Variable P : WikiNode -> Prop.
Hypothesis P_setIndex : ∀ n i, P n -> P (setIndex n i).

Lemma Swap_Forall pq i j : Forall P pq -> Forall P (Swap pq i j).
Proof.
  intros H. unfold Swap.
  destruct (pq !! i) as [a|] eqn:Ei; [|done].
  destruct (pq !! j) as [b|] eqn:Ej; [|done].
  rewrite Forall_forall in H.
  apply Forall_insert; [apply Forall_insert|].
  - by apply Forall_forall.
  - apply P_setIndex, H. by eapply list_elem_of_lookup_2.
  - apply P_setIndex, H. by eapply list_elem_of_lookup_2.
Qed.

Lemma up_Forall fuel pq j : Forall P pq -> Forall P (up fuel pq j).
Proof.
  revert pq j. induction fuel as [|fuel IH]; intros pq j H; cbn [up]; [done|].
  destruct (_ || _); [done|]. by apply IH, Swap_Forall.
Qed.

Lemma down_Forall fuel pq i n : Forall P pq -> Forall P (down fuel pq i n).
Proof.
  revert pq i. induction fuel as [|fuel IH]; intros pq i H; cbn [down]; [done|].
  destruct (n <=? 2 * i + 1)%nat; [done|].
  destruct (negb _); [done|]. by apply IH, Swap_Forall.
Qed.

Lemma heap_Push_Forall pq x : Forall P pq -> P x -> Forall P (heap_Push pq x).
Proof.
  intros H Hx. unfold heap_Push, Push. apply up_Forall, Forall_app.
  split; [done|]. constructor; [by apply P_setIndex|done].
Qed.

Lemma pushAll_Forall pq nodes : Forall P pq -> Forall P nodes -> Forall P (pushAll pq nodes).
Proof.
  unfold pushAll. revert pq. induction nodes as [|x nodes IH]; intros pq H Hn; simpl; [done|].
  inversion Hn; subst. apply IH; [|done]. by apply heap_Push_Forall.
Qed.

Lemma Pop_Forall pq x pq' : Pop pq = Some (x, pq') -> Forall P pq -> P x ∧ Forall P pq'.
Proof.
  unfold Pop. destruct (last pq) as [item|] eqn:El; [|done]. intros [= <- <-] H.
  apply last_Some in El as [l' ->].
  rewrite removelast_last. apply Forall_app in H as [H1 H2].
  inversion H2; subst. split; [by apply P_setIndex|done].
Qed.

Lemma heap_Pop_Forall pq x pq' :
  heap_Pop pq = Some (x, pq') -> Forall P pq -> P x ∧ Forall P pq'.
Proof.
  unfold heap_Pop. intros Hpop H. eapply Pop_Forall; [exact Hpop|].
  by apply down_Forall, Swap_Forall.
Qed.

End Frontier.

Lemma addTitle_known m st byLang n :
  Forall (batchKnown m st) byLang -> knownIn m st (Key n) ->
  Forall (batchKnown m st) (addTitle byLang (Lang n) (Title n)).
Proof.
  intros H Hn. induction H as [|[l ts] rest Hhd Hrest IH]; simpl.
  - constructor; [|done]. unfold batchKnown, titlesKnown. simpl. by constructor.
  - destruct (String.eqb_spec l (Lang n)) as [->|Hne].
    + constructor; [|done]. unfold batchKnown, titlesKnown in *. simpl in *.
      apply Forall_app. split; [done|]. by constructor.
    + by constructor.
Qed.

Lemma drain_known m st budget pq byLang byLang' pq' :
  drain budget pq byLang = (byLang', pq') ->
  allKnown m st pq -> Forall (batchKnown m st) byLang ->
  Forall (batchKnown m st) byLang' ∧ allKnown m st pq'.
Proof.
  revert pq byLang. induction budget as [|budget IH]; intros pq byLang Hd Hpq Hby; simpl in Hd.
  - by simplify_eq.
  - destruct (heap_Pop pq) as [[n pq1]|] eqn:Epop; [|by simplify_eq].
    destruct (heap_Pop_Forall (fun n => knownIn m st (Key n)) (fun _ _ H => H) _ _ _ Epop Hpq)
      as [Hn Hpq1].
    eapply IH; [exact Hd|exact Hpq1|]. by apply addTitle_known.
Qed.

Lemma chunks_known m st lang fuel titles :
  titlesKnown m st lang titles ->
  Forall (titlesKnown m st lang) (chunks fuel titles).
Proof.
  revert titles. induction fuel as [|fuel IH]; intros titles H; simpl; [done|].
  destruct titles as [|t titles]; [done|]. constructor.
  - by apply Forall_take.
  - apply IH. by apply Forall_drop.
Qed.

Lemma batches_known m st byLang :
  Forall (batchKnown m st) byLang ->
  Forall (fun b => titlesKnown m st b.2 b.1) (batches byLang).
Proof.
  intros H. unfold batches. induction H as [|[l ts] rest Hhd Hrest IH]; simpl; [done|].
  apply Forall_app. split; [|done].
  apply Forall_fmap. eapply Forall_impl; [by apply chunks_known|]. done.
Qed.


(** ** The search as a whole *)

Lemma dispatch_waiting s bsF bsB st :
  Forall (waiting st) (dispatch s "F" bsF ++ dispatch s "B" bsB)%list.
Proof.
  apply Forall_app. split; apply Forall_fmap, Forall_forall; intros b _; apply fetch_waiting.
Qed.

Lemma dispatch_safe tr sK eK s dir bs st :
  faithful tr ->
  Forall (fun b => titlesKnown (own dir) st b.2 b.1) bs ->
  Forall (safe tr sK eK (ownNodes (own dir)) st) (dispatch s dir bs).
Proof.
  intros Hfaith H. apply Forall_fmap. eapply Forall_impl; [exact H|].
  intros b Hb. by apply fetch_safe.
Qed.

(** What a group hands on at its barrier, in whatever order. *)
Lemma concat_known m st (rs order : list (list WikiNode)) :
  order ≡ₚ rs -> Forall (allKnown m st) rs -> allKnown m st (concat order).
Proof. intros Hp H. rewrite <- Hp in H. by apply Forall_concat. Qed.

Lemma roundLoop_spec tr sK eK deadline s pqF pqB st path st' :
  faithful tr -> searchInv sK eK st -> builtInv st ->
  allKnown VisitedF st pqF -> allKnown VisitedB st pqB ->
  runsD tr (roundLoop deadline s pqF pqB) st path st' ->
  searchInv sK eK st' ∧ path = result st' ∧ builtInv st'.
Proof.
  intros Hfaith. revert pqF pqB st.
  induction deadline as [|d IH]; intros pqF pqB st Hinv Hbuilt HF HB Hrun;
    cbn [roundLoop] in Hrun; driver_step Hrun.
  - destruct (negb _ && _); driver_step Hrun; by destruct Hrun as [<- <-].
  - destruct (negb (found st) && _) eqn:Ego;
      [|driver_step Hrun; by destruct Hrun as [<- <-]].
    apply andb_true_iff in Ego as [Hfound%negb_true_iff _].
    destruct (drain maxPerRound pqF []) as [byLangF pqF1] eqn:EdF.
    destruct (drain_known _ _ _ _ _ _ _ EdF HF (List.Forall_nil _)) as [HbyF HF1].
    destruct (drain maxPerRound pqB []) as [byLangB pqB1] eqn:EdB.
    destruct (drain_known _ _ _ _ _ _ _ EdB HB (List.Forall_nil _)) as [HbyB HB1].
    cbn [runsD] in Hrun.
    destruct Hrun as (evs & st1 & rF & rB & oF & oB & Hevs & Hlen & HpF & HpB & Hrun).
    destruct (fun HsF HsB =>
                barrier_safe tr sK eK _ _ _ _ _ _ _ Hinv Hfound (proj1 Hbuilt Hfound)
                             HsF HsB (dispatch_waiting _ _ _ _) Hevs Hlen)
      as (Hinv1 & Hg & HrF & HrB & Hbuilt1);
      [ apply (dispatch_safe tr sK eK s "F"); [done|by apply batches_known]
      | apply (dispatch_safe tr sK eK s "B"); [done|by apply batches_known]
      | ].
    driver_step Hrun.
    destruct (found st1); [driver_step Hrun; by destruct Hrun as [<- <-]|].
    eapply IH; [exact Hinv1|exact Hbuilt1| | |exact Hrun].
    + apply pushAll_Forall; [done|by eapply allKnown_grows|by eapply concat_known].
    + apply pushAll_Forall; [done|by eapply allKnown_grows|by eapply concat_known].
Qed.

Lemma Search_spec tr probeStart probeEnd deadline start end_ lang path st' :
  faithful tr ->
  searches tr probeStart probeEnd deadline start end_ lang path st' ->
  searchInv (Key (startNodeOf probeStart start lang)) (Key (endNodeOf probeEnd end_ lang)) st'
  ∧ (found st' = true -> path = result st')
  ∧ builtInv st'.
Proof.
  intros Hfaith Hrun. unfold searches, Search, startNodeOf, endNodeOf in *.
  destruct (resolve probeStart start lang) as [startLang0 startTitle].
  destruct (resolve probeEnd end_ lang) as [endLang endTitle]. simpl fst. simpl snd.
  set (sK := Key (node startLang0 startTitle)) in *.
  set (eK := Key (node endLang endTitle)) in *.
  driver_step Hrun. driver_step Hrun.
  match type of Hrun with
  | context [runsD _ _ ?st0] => set (seeded := st0) in *
  end.
  assert (searchInv sK eK seeded) as Hinv0.
  { unfold searchInv, seeded. simpl. repeat split.
    - intros k p Hl. apply lookup_insert_Some in Hl as [[_ ?]|[_ Hl]]; done.
    - intros k p Hl. apply lookup_insert_Some in Hl as [[_ ?]|[_ Hl]]; done.
    - intros k Hl. apply lookup_insert_Some in Hl as [[? _]|[_ Hl]]; done.
    - intros k Hl. apply lookup_insert_Some in Hl as [[? _]|[_ Hl]]; done.
    - by left. }
  assert (found seeded = false ∧ result seeded = []) as [Hfound0 Hres0] by done.
  destruct (String.eqb startTitle endTitle && String.eqb startLang0 endLang).
  { destruct Hrun as [<- <-]. split; [done|]. split; [done|]. split; [done|by left]. }
  cbn [runsD] in Hrun.
  destruct Hrun as (evs & st1 & rF & rB & oF & oB & Hevs & Hlen & HpF & HpB & Hrun).
  destruct (fun HsF HsB Hw =>
              barrier_safe tr sK eK _ _ _ _ _ _ _ Hinv0 Hfound0 Hres0 HsF HsB Hw Hevs Hlen)
    as (Hinv1 & Hg & HrF & HrB & Hbuilt1).
  { constructor; [|done]. apply (fetch_safe tr sK eK Hfaith _ _ _ "F").
    constructor; [|done]. unfold knownIn, seeded. simpl. fold sK. by rewrite lookup_insert_eq. }
  { constructor; [|done]. apply (fetch_safe tr sK eK Hfaith _ _ _ "B").
    constructor; [|done]. unfold knownIn, seeded. simpl. fold eK. by rewrite lookup_insert_eq. }
  { repeat constructor; apply fetch_waiting. }
  driver_step Hrun.
  destruct (found st1); [driver_step Hrun; by destruct Hrun as [<- <-]|].
  assert (allKnown VisitedF st1 (pushAll [] (concat oF))) as HF.
  { apply pushAll_Forall; [done|constructor|by eapply concat_known]. }
  assert (allKnown VisitedB st1 (pushAll [] (concat oB))) as HB.
  { apply pushAll_Forall; [done|constructor|by eapply concat_known]. }
  destruct (roundLoop_spec _ sK eK _ _ _ _ _ _ _ Hfaith Hinv1 Hbuilt1 HF HB Hrun)
    as (Hinv2 & -> & Hbuilt2).
  done.
Qed.

(** C1 (amended).  Over a transport that answers every expansion with
    pages titled as requested (up to the case folding of keys), and
    whatever the interleaving of the goroutines: a search that returns a
    path of length at least 1 with the found flag set returns what
    [buildPath] makes of a node that both visited maps hold, over the
    parents the two maps record when the search returns: the forward
    parent walk from that node, reversed, followed by the backward parent
    walk from its backward parent.  The first node of the path has the key
    of the resolved start node and its last node the key of the resolved
    end node. *)
Theorem returned_path_joins_endpoints tr probeStart probeEnd deadline start end_ lang path st' :
  faithful tr ->
  searches tr probeStart probeEnd deadline start end_ lang path st' ->
  found st' = true -> (1 <= length path)%nat ->
  builtFrom st' path
  ∧ joins (Key (startNodeOf probeStart start lang)) (Key (endNodeOf probeEnd end_ lang)) path.
Proof.
  intros Hfaith Hrun Hfound Hlen.
  destruct (Search_spec _ _ _ _ _ _ _ _ _ Hfaith Hrun)
    as ((_ & _ & _ & _ & Hres) & Hpath & _ & Hbuilt).
  rewrite (Hpath Hfound) in *.
  destruct Hres as [Hnil|Hj]; [rewrite Hnil in Hlen; simpl in Hlen; lia|].
  destruct Hbuilt as [Hnil|Hb]; [rewrite Hnil in Hlen; simpl in Hlen; lia|].
  done.
Qed.

Lemma wiki_faithful articles : faithful (Fixture.wiki articles).
Proof.
  intros n titles lang dir status pages pg [= _ <-] Hpg.
  apply list_elem_of_In, filter_In in Hpg as [_ Ht].
  apply bool_decide_eq_true in Ht. eauto.
Qed.

(** ** The frontier as a heap *)

Lemma parent_lt k : (0 < k)%nat -> ((k - 1) / 2 < k)%nat.
Proof.
  intros Hk. apply Nat.Div0.div_lt_upper_bound. lia.
Qed.

Lemma parent_children k j :
  (0 < k)%nat -> ((k - 1) / 2)%nat = j <-> k = (2 * j + 1)%nat ∨ k = (2 * j + 2)%nat.
Proof.
  intros Hk.
  pose proof (Nat.div_mod_eq (k - 1) 2) as Hdm.
  pose proof (Nat.mod_upper_bound (k - 1) 2 ltac:(lia)) as Hm.
  split.
  - intros <-. lia.
  - intros [->| ->].
    + replace (2 * j + 1 - 1)%nat with (0 + j * 2)%nat by lia.
      by rewrite Nat.div_add.
    + replace (2 * j + 2 - 1)%nat with (1 + j * 2)%nat by lia.
      by rewrite Nat.div_add.
Qed.

Lemma insert_swap_perm {A} (l : list A) i j a b :
  l !! i = Some a -> l !! j = Some b -> <[j := a]> (<[i := b]> l) ≡ₚ l.
Proof.
  assert (Hone : ∀ (l : list A) j b x, l !! j = Some b -> b :: <[j := x]> l ≡ₚ x :: l).
  { clear. induction l as [|y l IH]; intros [|j] b x H; simplify_eq/=.
    - apply perm_swap.
    - rewrite perm_swap. rewrite (IH _ _ x H). apply perm_swap. }
  revert i j. induction l as [|y l IH]; intros [|i] [|j] Hi Hj; simplify_eq/=.
  - done.
  - by apply Hone.
  - by apply Hone.
  - f_equiv. by apply IH.
Qed.

Lemma Swap_length pq i j : length (Swap pq i j) = length pq.
Proof.
  unfold Swap. destruct (pq !! i), (pq !! j); by rewrite ?length_insert.
Qed.

Lemma Swap_bare pq i j : bare <$> Swap pq i j ≡ₚ bare <$> pq.
Proof.
  unfold Swap. destruct (pq !! i) as [a|] eqn:Ei, (pq !! j) as [b|] eqn:Ej; try done.
  rewrite !list_fmap_insert.
  change (bare (setIndex a (Z.of_nat j))) with (bare a).
  change (bare (setIndex b (Z.of_nat i))) with (bare b).
  apply insert_swap_perm; by rewrite list_lookup_fmap, ?Ei, ?Ej.
Qed.

Lemma prio_Swap pq i j k :
  (i < length pq)%nat -> (j < length pq)%nat ->
  prio (Swap pq i j) k
  = if decide (k = j) then prio pq i else if decide (k = i) then prio pq j else prio pq k.
Proof.
  intros Hi Hj. unfold prio, Swap.
  destruct (lookup_lt_is_Some_2 _ _ Hi) as [a Ea].
  destruct (lookup_lt_is_Some_2 _ _ Hj) as [b Eb].
  rewrite Ea, Eb.
  destruct (decide (k = j)) as [->|Hkj].
  - rewrite list_lookup_insert_eq by (by rewrite length_insert). done.
  - rewrite list_lookup_insert_ne by done.
    destruct (decide (k = i)) as [->|Hki].
    + rewrite list_lookup_insert_eq by done. done.
    + by rewrite list_lookup_insert_ne.
Qed.

Lemma Less_prio pq i j :
  (i < length pq)%nat -> (j < length pq)%nat ->
  Less pq i j = (prio pq i <? prio pq j)%Z.
Proof.
  intros Hi Hj. unfold prio, Less.
  destruct (lookup_lt_is_Some_2 _ _ Hi) as [a ->].
  destruct (lookup_lt_is_Some_2 _ _ Hj) as [b ->]. done.
Qed.

Lemma up_length fuel pq j : length (up fuel pq j) = length pq.
Proof.
  revert pq j. induction fuel as [|fuel IH]; intros pq j; cbn [up]; [done|].
  destruct (_ || _); [done|]. by rewrite IH, Swap_length.
Qed.

Lemma up_bare fuel pq j : bare <$> up fuel pq j ≡ₚ bare <$> pq.
Proof.
  revert pq j. induction fuel as [|fuel IH]; intros pq j; cbn [up]; [done|].
  destruct (_ || _); [done|]. by rewrite IH, Swap_bare.
Qed.

Lemma down_length fuel pq i n : length (down fuel pq i n) = length pq.
Proof.
  revert pq i. induction fuel as [|fuel IH]; intros pq i; cbn [down]; [done|].
  destruct (n <=? _)%nat; [done|]. destruct (negb _); [done|].
  by rewrite IH, Swap_length.
Qed.

Lemma down_bare fuel pq i n : bare <$> down fuel pq i n ≡ₚ bare <$> pq.
Proof.
  revert pq i. induction fuel as [|fuel IH]; intros pq i; cbn [down]; [done|].
  destruct (n <=? _)%nat; [done|]. destruct (negb _); [done|].
  by rewrite IH, Swap_bare.
Qed.

(** [heap.up] restores the order when only the node at [j] is out of
    place. *)
Lemma up_heap fuel pq j :
  (j < length pq)%nat -> (j < fuel)%nat ->
  heapExcept pq (length pq) j -> heapOrdered (up fuel pq j) (length pq).
Proof.
  revert pq j. induction fuel as [|fuel IH]; intros pq j Hj Hfuel [Hex Hgp]; [lia|].
  cbn [up].
  destruct (decide (j = 0%nat)) as [->|Hj0].
  { simpl. intros k Hk. apply Hex; lia. }
  pose proof (parent_lt j ltac:(lia)) as Hpar.
  replace ((j - 1) / 2 =? j)%nat with false by (symmetry; apply Nat.eqb_neq; lia).
  rewrite Less_prio by lia. cbn [orb].
  destruct (prio pq j <? prio pq ((j - 1) / 2))%Z eqn:Hless; cbn [negb].
  - apply Z.ltb_lt in Hless.
    set (i := ((j - 1) / 2)%nat) in *.
    rewrite <- (Swap_length pq i j). apply IH.
    + rewrite Swap_length. lia.
    + lia.
    + rewrite Swap_length. split.
      * intros k Hk Hki.
        pose proof (parent_lt k ltac:(lia)) as Hpk.
        rewrite !prio_Swap by lia.
        destruct (decide (k = j)) as [->|Hkj].
        { fold i. destruct (decide (i = j)); [lia|].
          rewrite decide_True by done. lia. }
        rewrite (decide_False (P := k = i)) by done.
        destruct (decide ((k - 1) / 2 = j)%nat) as [Hpj|Hpj].
        { specialize (Hgp k Hk Hpj ltac:(lia)). fold i in Hgp. lia. }
        destruct (decide ((k - 1) / 2 = i)%nat) as [Hpi|Hpi].
        { specialize (Hex k Hk Hkj). rewrite Hpi in Hex. lia. }
        by apply Hex.
      * intros k Hk Hpi Hi0.
        pose proof (parent_lt i ltac:(lia)) as Hpi'.
        rewrite !prio_Swap by lia.
        rewrite (decide_False (P := (i - 1) / 2 = j)%nat) by lia.
        rewrite (decide_False (P := (i - 1) / 2 = i)%nat) by lia.
        assert (prio pq ((i - 1) / 2) <= prio pq i)%Z as Hi by (apply Hex; lia).
        destruct (decide (k = j)) as [->|Hkj]; [done|].
        rewrite (decide_False (P := k = i)) by (pose proof (parent_lt k ltac:(lia)); lia).
        specialize (Hex k Hk Hkj). rewrite Hpi in Hex. lia.
  - apply Z.ltb_ge in Hless. intros k Hk.
    destruct (decide (k = j)) as [->|Hkj]; [done|]. by apply Hex.
Qed.

(** [heap.down] restores the order on the first [n] positions when only
    the node at [i] is out of place. *)
Lemma down_heap fuel pq i n :
  (n <= length pq)%nat -> (i < n)%nat -> (n <= fuel + i)%nat ->
  heapBelow pq n i -> heapOrdered (down fuel pq i n) n.
Proof.
  revert pq i. induction fuel as [|fuel IH]; intros pq i Hn Hi Hfuel [Hb Hgp]; [lia|].
  cbn [down].
  destruct (n <=? 2 * i + 1)%nat eqn:Hj1.
  { apply Nat.leb_le in Hj1. intros k Hk. apply Hb; [done|].
    intros Hp. apply parent_children in Hp; lia. }
  apply Nat.leb_gt in Hj1.
  set (j := if (2 * i + 1 + 1 <? n)%nat && Less pq (2 * i + 1 + 1) (2 * i + 1)
            then (2 * i + 1 + 1)%nat else (2 * i + 1)%nat).
  assert ((j = 2 * i + 1 ∨ j = 2 * i + 2)%nat ∧ (j < n)%nat
          ∧ ∀ k, (0 < k < n)%nat -> ((k - 1) / 2)%nat = i -> (prio pq j <= prio pq k)%Z)
    as (Hjc & Hjn & Hjmin).
  { unfold j. destruct (2 * i + 1 + 1 <? n)%nat eqn:Hs; cbn [andb].
    - apply Nat.ltb_lt in Hs. rewrite Less_prio by lia.
      destruct (prio pq (2 * i + 1 + 1) <? prio pq (2 * i + 1))%Z eqn:Hl.
      + apply Z.ltb_lt in Hl. split; [lia|]. split; [lia|].
        intros k Hk Hp. apply parent_children in Hp; [|lia]. destruct Hp as [->| ->].
        * lia.
        * replace (2 * i + 2)%nat with (2 * i + 1 + 1)%nat by lia. lia.
      + apply Z.ltb_ge in Hl. split; [lia|]. split; [lia|].
        intros k Hk Hp. apply parent_children in Hp; [|lia]. destruct Hp as [->| ->].
        * lia.
        * replace (2 * i + 2)%nat with (2 * i + 1 + 1)%nat by lia. lia.
    - apply Nat.ltb_ge in Hs. split; [lia|]. split; [lia|].
      intros k Hk Hp. apply parent_children in Hp; [|lia]. destruct Hp as [->| ->]; lia. }
  clearbody j.
  assert (((j - 1) / 2)%nat = i) as Hpj by (apply parent_children; lia).
  rewrite Less_prio by lia.
  destruct (prio pq j <? prio pq i)%Z eqn:Hless; cbn [negb].
  - apply Z.ltb_lt in Hless. apply IH.
    + by rewrite Swap_length.
    + done.
    + lia.
    + split.
      * intros k Hk Hpk.
        pose proof (parent_lt k ltac:(lia)) as Hlt.
        rewrite !prio_Swap by lia.
        rewrite (decide_False (P := (k - 1) / 2 = j)%nat) by done.
        destruct (decide ((k - 1) / 2 = i)%nat) as [Hpi|Hpi].
        { specialize (Hjmin k Hk Hpi).
          destruct (decide (k = j)) as [->|Hkj]; [lia|].
          rewrite (decide_False (P := k = i)) by lia. done. }
        destruct (decide (k = j)) as [->|Hkj]; [lia|].
        destruct (decide (k = i)) as [->|Hki].
        { apply Hgp; [lia|done|lia]. }
        by apply Hb.
      * intros k Hk Hpk Hj0.
        pose proof (parent_lt k ltac:(lia)) as Hlt.
        rewrite !prio_Swap by lia. rewrite Hpj.
        rewrite (decide_False (P := i = j)) by lia.
        rewrite (decide_True (P := i = i)) by done.
        rewrite (decide_False (P := k = j)) by lia.
        rewrite (decide_False (P := k = i)) by lia.
        rewrite <- Hpk. apply Hb; [done|lia].
  - apply Z.ltb_ge in Hless. intros k Hk.
    destruct (decide ((k - 1) / 2 = i)%nat) as [Hp|Hp]; [|by apply Hb].
    rewrite Hp. specialize (Hjmin k Hk Hp). lia.
Qed.

(** What [heap.down] leaves alone: the positions from [n] on. *)
Lemma down_lookup_outside fuel pq i n k :
  (i < n)%nat -> (n <= length pq)%nat -> (n <= k)%nat ->
  down fuel pq i n !! k = pq !! k.
Proof.
  revert pq i. induction fuel as [|fuel IH]; intros pq i Hi Hn Hk; cbn [down]; [done|].
  destruct (n <=? 2 * i + 1)%nat eqn:Hj1; [done|]. apply Nat.leb_gt in Hj1.
  set (j := if (2 * i + 1 + 1 <? n)%nat && Less pq (2 * i + 1 + 1) (2 * i + 1)
            then (2 * i + 1 + 1)%nat else (2 * i + 1)%nat).
  assert (j < n)%nat as Hjn.
  { unfold j. destruct (2 * i + 1 + 1 <? n)%nat eqn:Hs; cbn [andb].
    - apply Nat.ltb_lt in Hs. destruct (Less _ _ _); lia.
    - lia. }
  clearbody j. destruct (negb _); [done|].
  rewrite IH by (rewrite ?Swap_length; lia).
  unfold Swap.
  destruct (pq !! i) as [a|] eqn:Ea; [|done]. destruct (pq !! j) as [b|] eqn:Eb; [|done].
  rewrite !list_lookup_insert_ne by lia. done.
Qed.

(** In a heap no node is lower than the root. *)
Lemma heap_root_min pq n k :
  heapOrdered pq n -> (k < n)%nat -> (prio pq 0 <= prio pq k)%Z.
Proof.
  intros Hh. induction (lt_wf k) as [k _ IH]. intros Hk.
  destruct (decide (k = 0%nat)) as [->|Hk0]; [lia|].
  pose proof (parent_lt k ltac:(lia)) as Hlt.
  etransitivity; [apply (IH _ Hlt); lia|]. apply Hh. lia.
Qed.

Lemma Pop_last pq item :
  last pq = Some item ->
  Pop pq = Some (setIndex item (-1), removelast pq)
  ∧ pq = (removelast pq ++ [item])%list.
Proof.
  intros Hl. unfold Pop. rewrite Hl. split; [done|].
  apply last_Some in Hl as [l' ->]. by rewrite removelast_last.
Qed.

(** X1.  [heap.Push] on a queue in heap order gives a queue in heap order
    that holds the same nodes and the new one. *)
Theorem heap_Push_keeps_heap pq x :
  heapOrdered pq (length pq) ->
  heapOrdered (heap_Push pq x) (length (heap_Push pq x))
  ∧ length (heap_Push pq x) = S (length pq)
  ∧ bare <$> heap_Push pq x ≡ₚ bare <$> (x :: pq).
Proof.
  intros Hheap. unfold heap_Push, Push.
  set (pq' := (pq ++ [setIndex x (Z.of_nat (length pq))])%list).
  assert (length pq' = S (length pq)) as Hlen by (unfold pq'; rewrite length_app; simpl; lia).
  assert (∀ k, (k < length pq)%nat -> prio pq' k = prio pq k) as Hprio.
  { intros k Hk. unfold prio, pq'. by rewrite lookup_app_l. }
  split; [|split].
  - rewrite up_length. apply up_heap; [lia|lia|]. rewrite Hlen. split.
    + intros k Hk Hne.
      pose proof (parent_lt k ltac:(lia)).
      rewrite !Hprio by lia. apply Hheap. lia.
    + intros k Hk Hp _. apply parent_children in Hp; lia.
  - by rewrite up_length.
  - rewrite up_bare. unfold pq'. rewrite fmap_app. simpl.
    change (bare (setIndex x (Z.of_nat (length pq)))) with (bare x).
    by rewrite Permutation_app_comm.
Qed.

(** X2.  [heap.Pop] on a non-empty queue in heap order returns a node of
    the lowest priority in the queue and leaves the other nodes, in heap
    order. *)
Theorem heap_Pop_min pq :
  heapOrdered pq (length pq) -> pq ≠ [] ->
  ∃ x rest, heap_Pop pq = Some (x, rest)
    ∧ (∀ a, a ∈ pq -> (Priority x <= Priority a)%Z)
    ∧ heapOrdered rest (length rest)
    ∧ bare <$> (x :: rest) ≡ₚ bare <$> pq.
Proof.
  intros Hheap Hne. unfold heap_Pop.
  set (n := (length pq - 1)%nat).
  assert (length pq = S n) as Hlen by (destruct pq; [done|simpl in *; lia]).
  destruct (lookup_lt_is_Some_2 pq 0 ltac:(lia)) as [root Hroot].
  set (pq1 := Swap pq 0 n).
  set (pq2 := down (length pq) pq1 0 n).
  assert (length pq1 = S n) as Hlen1 by (unfold pq1; by rewrite Swap_length).
  assert (length pq2 = S n) as Hlen2 by (unfold pq2; by rewrite down_length).
  assert (bare <$> pq2 ≡ₚ bare <$> pq) as Hperm
    by (unfold pq2, pq1; by rewrite down_bare, Swap_bare).
  assert (pq1 !! n = Some (setIndex root (Z.of_nat n))) as Hn1.
  { unfold pq1, Swap. rewrite Hroot.
    destruct (lookup_lt_is_Some_2 pq n ltac:(lia)) as [b ->].
    rewrite list_lookup_insert_eq by (rewrite length_insert; lia). done. }
  assert (heapOrdered pq2 n ∧ pq2 !! n = Some (setIndex root (Z.of_nat n))) as [Hh2 Hn2].
  { destruct (decide (n = 0%nat)) as [Hn0|Hn0].
    - split; [intros k Hk; lia|].
      unfold pq2. rewrite Hlen, Hn0. cbn [down]. simpl. by rewrite <- Hn0.
    - split.
      + apply down_heap; [lia|lia|lia|]. split.
        * intros k Hk Hp.
          pose proof (parent_lt k ltac:(lia)).
          unfold pq1. rewrite !prio_Swap by lia.
          rewrite !decide_False by lia. apply Hheap. lia.
        * intros k _ _ ?. lia.
      + unfold pq2. rewrite down_lookup_outside by lia. done. }
  assert (last pq2 = Some (setIndex root (Z.of_nat n))) as Hlast.
  { rewrite last_lookup, Hlen2. done. }
  destruct (Pop_last _ _ Hlast) as [Hpop Hsplit].
  exists (setIndex (setIndex root (Z.of_nat n)) (-1)), (removelast pq2).
  assert (length (removelast pq2) = n) as Hlenr.
  { apply (f_equal length) in Hsplit. rewrite length_app, Hlen2 in Hsplit. simpl in Hsplit. lia. }
  split; [done|]. split; [|split].
  - intros a Ha. apply list_elem_of_lookup in Ha as [k Hk].
    pose proof (lookup_lt_Some _ _ _ Hk) as Hklt.
    pose proof (heap_root_min pq _ k Hheap Hklt) as Hmin.
    unfold prio in Hmin. rewrite Hroot, Hk in Hmin. done.
  - rewrite Hlenr. intros k Hk.
    pose proof (parent_lt k ltac:(lia)).
    assert (∀ k', (k' < n)%nat -> prio (removelast pq2) k' = prio pq2 k') as Hp.
    { intros k' Hk'. unfold prio. rewrite Hsplit at 2. by rewrite lookup_app_l by lia. }
    rewrite !Hp by lia. by apply Hh2.
  - rewrite <- Hperm. rewrite Hsplit at 2. rewrite fmap_app. simpl.
    change (bare (setIndex (setIndex root (Z.of_nat n)) (-1))) with (bare root).
    change (bare (setIndex root (Z.of_nat n))) with (bare root).
    by rewrite Permutation_app_comm.
Qed.

Lemma Swap_indexed pq i j : indexed pq -> indexed (Swap pq i j).
Proof.
  intros H. unfold Swap.
  destruct (pq !! i) as [a|] eqn:Ea; [|done]. destruct (pq !! j) as [b|] eqn:Eb; [|done].
  intros k c Hk.
  apply list_lookup_insert_Some in Hk as [(-> & <- & _)|[Hkj Hk]]; [done|].
  apply list_lookup_insert_Some in Hk as [(-> & <- & _)|[Hki Hk]]; [done|].
  by apply H.
Qed.

Lemma up_indexed fuel pq j : indexed pq -> indexed (up fuel pq j).
Proof.
  revert pq j. induction fuel as [|fuel IH]; intros pq j H; cbn [up]; [done|].
  destruct (_ || _); [done|]. by apply IH, Swap_indexed.
Qed.

Lemma down_indexed fuel pq i n : indexed pq -> indexed (down fuel pq i n).
Proof.
  revert pq i. induction fuel as [|fuel IH]; intros pq i H; cbn [down]; [done|].
  destruct (n <=? _)%nat; [done|]. destruct (negb _); [done|].
  by apply IH, Swap_indexed.
Qed.

(** X3.  The [Index] field follows the node: when every node of the queue
    carries its position, it still does after [heap.Push] and after
    [heap.Pop], and the node popped carries [-1]. *)
Theorem heap_keeps_Index pq :
  indexed pq ->
  (∀ x, indexed (heap_Push pq x))
  ∧ (∀ x rest, heap_Pop pq = Some (x, rest) -> Index x = (-1)%Z ∧ indexed rest).
Proof.
  intros H. split.
  - intros x. unfold heap_Push. apply up_indexed. unfold Push.
    intros k a Hk. apply lookup_app_Some in Hk as [Hk|[Hge Hk]]; [by apply H|].
    apply list_lookup_singleton_Some in Hk as [Hk <-]. simpl. lia.
  - intros x rest Hpop. unfold heap_Pop, Pop in Hpop.
    set (pq2 := down (length pq) (Swap pq 0 (length pq - 1)) 0 (length pq - 1)) in *.
    assert (indexed pq2) as H2 by (by apply down_indexed, Swap_indexed).
    destruct (last pq2) as [item|] eqn:Hlast; [|done]. simplify_eq.
    split; [done|].
    destruct (Pop_last _ _ Hlast) as [_ Hsplit].
    intros k a Hk. apply H2. rewrite Hsplit. by apply lookup_app_l_Some.
Qed.

(** ** Draining and batching *)

Lemma heap_Pop_None pq : heap_Pop pq = None <-> pq = [].
Proof.
  unfold heap_Pop, Pop. split.
  - intros H. destruct (last _) as [item|] eqn:Hl; [done|].
    apply last_None in Hl. apply (f_equal length) in Hl.
    rewrite down_length, Swap_length in Hl. by destruct pq.
  - by intros ->.
Qed.

Lemma heap_Pop_bare pq x rest :
  heap_Pop pq = Some (x, rest) ->
  bare <$> (x :: rest) ≡ₚ bare <$> pq ∧ length pq = S (length rest).
Proof.
  unfold heap_Pop. intros Hpop.
  set (pq2 := down (length pq) (Swap pq 0 (length pq - 1)) 0 (length pq - 1)) in *.
  assert (bare <$> pq2 ≡ₚ bare <$> pq) as Hperm by (unfold pq2; by rewrite down_bare, Swap_bare).
  assert (length pq2 = length pq) as Hlen by (unfold pq2; by rewrite down_length, Swap_length).
  unfold Pop in Hpop. destruct (last pq2) as [item|] eqn:Hlast; [|done]. simplify_eq.
  destruct (Pop_last _ _ Hlast) as [_ Hsplit]. split.
  - rewrite <- Hperm. rewrite Hsplit at 2. rewrite fmap_app. simpl.
    change (bare (setIndex item (-1))) with (bare item). by rewrite Permutation_app_comm.
  - rewrite <- Hlen. rewrite Hsplit at 1. rewrite length_app. simpl. lia.
Qed.

Lemma article_bare (l : list WikiNode) (l' : list WikiNode) :
  bare <$> l ≡ₚ bare <$> l' -> article <$> l ≡ₚ article <$> l'.
Proof.
  intros H.
  assert (∀ l0 : list WikiNode, article <$> l0 = (fun b : string * string * Z => (b.1.2, b.1.1)) <$> (bare <$> l0))
    as E by (intros l0; rewrite <- list_fmap_compose; done).
  rewrite !E. by rewrite H.
Qed.

Lemma addTitle_grouped byLang lang title :
  grouped (addTitle byLang lang title) ≡ₚ (lang, title) :: grouped byLang.
Proof.
  induction byLang as [|[l ts] rest IH]; simpl; [done|].
  destruct (String.eqb_spec l lang) as [->|Hne]; simpl.
  - unfold grouped. simpl. rewrite map_app. simpl.
    rewrite <- app_assoc. simpl. by rewrite <- Permutation_middle.
  - unfold grouped in *. simpl. rewrite IH. by rewrite <- Permutation_middle.
Qed.

Lemma addTitle_langs byLang lang title :
  NoDup (byLang.*1) -> Forall (fun g => g.2 ≠ []) byLang ->
  NoDup ((addTitle byLang lang title).*1)
  ∧ Forall (fun g => g.2 ≠ []) (addTitle byLang lang title)
  ∧ ∀ l, l ∈ (addTitle byLang lang title).*1 <-> l = lang ∨ l ∈ byLang.*1.
Proof using Type.
  clear ToLower.
  induction byLang as [|[l ts] rest IH]; intros Hnd Hne; simpl.
  - split; [apply NoDup_singleton|]. split; [by repeat constructor|].
    intros l. rewrite list_elem_of_singleton, elem_of_nil. tauto.
  - apply NoDup_cons in Hnd as [Hl Hnd]. apply Forall_cons in Hne as [Hts Hne].
    destruct (String.eqb_spec l lang) as [->|Hneq]; simpl.
    + split; [by apply NoDup_cons|]. split.
      * constructor; [|done]. simpl. by destruct ts.
      * intros l. rewrite elem_of_cons. tauto.
    + destruct (IH Hnd Hne) as (IH1 & IH2 & IH3). split; [|split].
      * apply NoDup_cons. split; [|done]. rewrite IH3. intros [?|?]; [congruence|done].
      * by constructor.
      * intros l'. rewrite !elem_of_cons, IH3. tauto.
Qed.

Lemma drain_spec budget pq acc byLang rest :
  drain budget pq acc = (byLang, rest) ->
  NoDup (acc.*1) -> Forall (fun g => g.2 ≠ []) acc ->
  (grouped acc ++ (article <$> pq))%list ≡ₚ (grouped byLang ++ (article <$> rest))%list
  ∧ length (grouped byLang) = (length (grouped acc) + Nat.min budget (length pq))%nat
  ∧ NoDup (byLang.*1) ∧ Forall (fun g => g.2 ≠ []) byLang.
Proof.
  revert pq acc byLang rest.
  induction budget as [|budget IH]; intros pq acc byLang rest Hd Hnd Hne; cbn [drain] in Hd.
  - simplify_eq. repeat split; try done; simpl; lia.
  - destruct (heap_Pop pq) as [[n pq1]|] eqn:Epop.
    + destruct (heap_Pop_bare _ _ _ Epop) as [Hperm Hlen].
      destruct (addTitle_langs acc (Lang n) (Title n) Hnd Hne) as (Hnd1 & Hne1 & _).
      destruct (IH _ _ _ _ Hd Hnd1 Hne1) as (IH1 & IH2 & IH3 & IH4).
      split; [|split; [|done]].
      * rewrite <- IH1, addTitle_grouped. apply article_bare in Hperm.
        rewrite <- Hperm. simpl. by rewrite <- Permutation_middle.
      * rewrite IH2, addTitle_grouped, Hlen. simpl. lia.
    + apply heap_Pop_None in Epop. simplify_eq. repeat split; try done; simpl; lia.
Qed.

(** X4.  [drain] pops nodes while the queue has some and the budget
    lasts: the table and the queue left over hold between them exactly the
    articles of the queue, the table has one non-empty group per language,
    and [min budget (length pq)] nodes have gone into it. *)
Theorem drain_partition budget pq byLang rest :
  drain budget pq [] = (byLang, rest) ->
  article <$> pq ≡ₚ (grouped byLang ++ (article <$> rest))%list
  ∧ length (grouped byLang) = Nat.min budget (length pq)
  ∧ NoDup (byLang.*1) ∧ Forall (fun g => g.2 ≠ []) byLang.
Proof.
  intros Hd.
  destruct (drain_spec _ _ _ _ _ Hd) as (H1 & H2 & H3 & H4); [constructor|constructor|].
  simpl in H1, H2. done.
Qed.

Lemma chunks_spec fuel titles :
  (length titles <= fuel)%nat ->
  concat (chunks fuel titles) = titles
  ∧ Forall (fun b => (1 <= length b <= batchSize)%nat) (chunks fuel titles)
  ∧ (length (chunks fuel titles) <= length titles)%nat.
Proof.
  revert titles. induction fuel as [|fuel IH]; intros titles Hfuel.
  - destruct titles; [done|simpl in Hfuel; lia].
  - destruct titles as [|t titles]; [done|]. cbn [chunks].
    set (l := t :: titles) in *.
    assert (1 <= length l)%nat as Hl by (unfold l; simpl; lia).
    assert (length (skipn batchSize l) <= fuel)%nat as Hdrop.
    { rewrite length_skipn. unfold batchSize. simpl in Hfuel. unfold l in *. simpl in *. lia. }
    destruct (IH _ Hdrop) as (IH1 & IH2 & IH3). split; [|split].
    + cbn [concat]. rewrite IH1. apply firstn_skipn.
    + constructor; [|done]. rewrite length_firstn. unfold batchSize. lia.
    + cbn [length]. rewrite length_skipn in IH3. unfold batchSize in *. lia.
Qed.

Lemma batches_spec byLang :
  batched (batches byLang) = grouped byLang
  ∧ Forall (fun b => (1 <= length b.1 <= batchSize)%nat) (batches byLang)
  ∧ (length (batches byLang) <= length (grouped byLang))%nat.
Proof.
  unfold batches, batched, grouped.
  induction byLang as [|[lang titles] rest (IH1 & IH2 & IH3)]; [by repeat split|].
  destruct (chunks_spec (length titles) titles (le_n _)) as (Hc1 & Hc2 & Hc3).
  cbn [flat_map]. rewrite flat_map_app, Forall_app, !length_app, !length_map.
  split; [|split].
  - rewrite IH1. f_equal. cbn [fst snd].
    assert (∀ cs : list (list string),
              flat_map (fun b : list string * string => map (fun t => (b.2, t)) b.1)
                       (map (fun t => (t, lang)) cs)
              = map (fun t => (lang, t)) (concat cs)) as E.
    { intros cs. induction cs as [|c cs IH]; [done|]. simpl. by rewrite map_app, IH. }
    by rewrite E, Hc1.
  - split; [|done]. apply Forall_map. eapply Forall_impl; [exact Hc2|]. done.
  - cbn [fst snd]. lia.
Qed.

(** X5.  The batches of a round hold exactly the articles of the table, in
    order; every batch has between 1 and 50 titles, and there are no more
    batches than articles. *)
Theorem batches_partition byLang :
  batched (batches byLang) = grouped byLang
  ∧ Forall (fun b => (1 <= length b.1 <= batchSize)%nat) (batches byLang)
  ∧ (length (batches byLang) <= length (grouped byLang))%nat.
Proof. apply batches_spec. Qed.

(** ** Parent walks once more *)

Lemma walk_links n m c l i x y :
  walk n m c = Some l -> l !! i = Some x -> l !! S i = Some y ->
  m !! Key x = Some (Some y).
Proof.
  revert c l i. induction n as [|n IH]; intros c l i H Hx Hy; simpl in H; [done|].
  destruct (m !! Key c) as [[p|]|] eqn:Ek; [|by simplify_eq..].
  destruct (walk n m p) as [l0|] eqn:E; simplify_eq/=.
  destruct i as [|i]; simplify_eq/=.
  - apply walk_head in E. destruct l0; simplify_eq/=. done.
  - by eapply IH.
Qed.

(** X6.  A parent walk of [buildPath] that ends returns the chain of
    recorded parents from the node it starts on: each node is followed by
    its parent, the last node has no parent, no key occurs twice, and the
    chain is no longer than the map has keys, plus one. *)
Theorem parentWalk_chain m c l :
  parentWalk m c = Returned l ->
  head l = Some c
  ∧ (∀ i x y, l !! i = Some x -> l !! S i = Some y -> m !! Key x = Some (Some y))
  ∧ (∃ z, last l = Some z ∧ (m !! Key z = None ∨ m !! Key z = Some None))
  ∧ NoDup (Key <$> l)
  ∧ (length l <= S (size m))%nat.
Proof.
  intros H. apply parentWalk_Returned in H as [n H].
  split; [by eapply walk_head|]. split; [intros i x y; by eapply walk_links|].
  split; [|split; [by eapply walk_keys_NoDup|by eapply walk_length_bound]].
  destruct (walk_shape _ _ _ _ H) as (l0 & z & -> & _ & Hz).
  exists z. by rewrite last_snoc.
Qed.

Lemma ranked_walk m rank c :
  ranked m rank -> ∃ l, walk (S (rank (Key c))) m c = Some l.
Proof.
  intros Hr. remember (rank (Key c)) as r eqn:Er.
  revert c Er. induction (lt_wf r) as [r _ IH]. intros c ->. simpl.
  destruct (m !! Key c) as [[p|]|] eqn:Ek; [|eauto..].
  pose proof (Hr _ _ Ek) as Hlt.
  destruct (IH _ Hlt p eq_refl) as [l Hl].
  apply (walk_more_fuel _ (rank (Key c))) in Hl; [|lia].
  rewrite Hl. eauto.
Qed.

(** X7.  Over a parent map without cycles both walks of [buildPath] end:
    the forward half returns from every node, and the backward half
    returns or, on the root of the backward map, dereferences the nil
    pointer; neither goes round for ever. *)
Theorem treeLike_walks_end vF vB meet :
  treeLike vF -> treeLike vB ->
  (∃ fwd, forwardList vF meet = Returned fwd)
  ∧ backwardList vB meet ≠ Hangs
  ∧ buildPath vF vB meet ≠ Hangs.
Proof.
  intros [_ [rankF HF]] [_ [rankB HB]].
  assert (∀ m rank c, ranked m rank -> ∃ l, parentWalk m c = Returned l) as Hends.
  { intros m rank c Hr. destruct (ranked_walk m rank c Hr) as [l Hl].
    exists l. apply parentWalk_Returned. eauto. }
  assert (∃ fwd, forwardList vF meet = Returned fwd) as [fwd Hfwd].
  { unfold forwardList. destruct (Hends vF rankF meet HF) as [l ->]. eauto. }
  assert (backwardList vB meet ≠ Hangs) as Hb.
  { unfold backwardList. destruct (vB !! Key meet) as [[p|]|]; [|done..].
    by destruct (Hends vB rankB p HB) as [l ->]. }
  split; [eauto|]. split; [done|].
  unfold buildPath. rewrite Hfwd. by destruct (backwardList vB meet).
Qed.

(** X8.  Insert-if-absent keeps a parent map free of cycles: after
    [LoadOrStore] of a parent that is a key of the map, the map is again
    one in which every parent is a key and no chain of parents comes back. *)
Theorem LoadOrStore_keeps_treeLike ref key p tr st loaded st' :
  treeLike (getMap ref st) -> knownIn ref st (Key p) ->
  exec (Map_LoadOrStore ref key (Some p)) tr st = Returned (loaded, st') ->
  treeLike (getMap ref st')
  ∧ (loaded = true -> st' = st)
  ∧ (loaded = false -> getMap ref st' = <[key := Some p]> (getMap ref st)).
Proof.
  intros [Hcl [rank Hr]] Hp Hexec. cbn [exec] in Hexec.
  destruct (getMap ref st !! key) as [v|] eqn:Ek; simplify_eq.
  { split; [|done]. split; [done|eauto]. }
  assert (getMap ref (setMap ref (<[key := Some p]> (getMap ref st)) st)
          = <[key := Some p]> (getMap ref st)) as -> by (by destruct ref).
  split; [|done]. split; [by apply closed_insert|].
  exists (fun k => if decide (k = key) then S (rank (Key p)) else rank k).
  intros k q Hk.
  assert (Key p ≠ key) as Hpk.
  { intros <-. destruct Hp as [w Hw]. unfold knownIn in *. congruence. }
  destruct (decide (k = key)) as [->|Hne].
  - rewrite lookup_insert_eq in Hk. simplify_eq. rewrite decide_False by done. lia.
  - rewrite lookup_insert_ne in Hk by done.
    assert (Key q ≠ key) as Hqk.
    { intros <-. destruct (Hcl _ _ Hk) as [w Hw]. congruence. }
    rewrite decide_False by done. by eapply Hr.
Qed.

(** ** What one expansion changes *)

Lemma writesOnly_bind m {A B} (p : Prog A) (f : A -> Prog B) :
  writesOnly m p -> (∀ a, writesOnly m (f a)) -> writesOnly m (bind p f).
Proof.
  intros Hp Hf. induction p as [a | X op k IH]; simpl in *; [auto|].
  destruct Hp as [Hop Hk]. split; [done|]. intros x. apply IH, Hk.
Qed.

Ltac writes_only :=
  repeat first
    [ apply writesOnly_bind; [|intros ?]
    | match goal with
      | |- writesOnly _ (if ?b then _ else _) => destruct b
      | |- writesOnly _ (match ?x with _ => _ end) => destruct x
      end
    | by (simpl; split; [intros ? [=]; subst; auto|done])
    | by simpl ].

Lemma visit_writesOnly dir parent child newNodes :
  writesOnly (own dir) (visit dir parent child newNodes).
Proof. unfold visit, buildPathP. writes_only. Qed.

Lemma visitAll_writesOnly dir parent children newNodes :
  writesOnly (own dir) (visitAll dir parent children newNodes).
Proof.
  revert newNodes. induction children as [|c cs IH]; intros newNodes; cbn [visitAll]; [done|].
  apply writesOnly_bind; [apply visit_writesOnly|]. intros [nn|]; [apply IH|done].
Qed.

Lemma pagesLoop_writesOnly s lang dir pages newNodes :
  writesOnly (own dir) (pagesLoop s lang dir pages newNodes).
Proof.
  revert newNodes. induction pages as [|pg pages IH]; intros newNodes; cbn [pagesLoop]; [done|].
  apply writesOnly_bind; [writes_only|]. intros [|]; [done|].
  apply writesOnly_bind; [apply visitAll_writesOnly|]. intros [nn|]; [|done].
  apply writesOnly_bind; [apply visitAll_writesOnly|]. intros [nn'|]; [apply IH|done].
Qed.

Lemma fetch_writesOnly s titles lang dir : writesOnly (own dir) (fetch s titles lang dir).
Proof.
  unfold fetch. apply writesOnly_bind; [writes_only|]. intros f.
  destruct (f || _); [done|].
  apply writesOnly_bind; [writes_only|]. intros [|status body]; [done|].
  apply writesOnly_bind; [writes_only|]. intros _.
  destruct body; [apply pagesLoop_writesOnly|done].
Qed.

Lemma exec_written {X} (op : Op X) tr st x st' m :
  exec op tr st = Returned (x, st') -> written op ≠ Some m -> getMap m st' = getMap m st.
Proof.
  intros Hexec Hw.
  destruct op; simpl in Hexec, Hw;
    repeat match goal with
           | H : context [match ?x with _ => _ end] |- _ => destruct x eqn:?
           end; simplify_eq; try done; try (by destruct m);
    destruct m, m0; simpl; congruence.
Qed.

Lemma run_writesOnly {A} (p : Prog A) m m' tr st a st' :
  writesOnly m p -> m' ≠ m -> run p tr st = Returned (a, st') -> getMap m' st' = getMap m' st.
Proof.
  intros Hp Hne. revert st. induction p as [b | X op k IH]; intros st Hrun; cbn [run] in Hrun.
  - by simplify_eq.
  - destruct (exec op tr st) as [[x st1]| |] eqn:E; [|done..].
    destruct Hp as [Hop Hk]. rewrite (IH x (Hk x) st1 Hrun).
    eapply exec_written; [exact E|]. intros Hw. apply Hne. by apply Hop.
Qed.

(** What is not one of the two writes of a meeting claim leaves the
    result and every entry of both maps as they are. *)
Lemma exec_no_record {X} (op : Op X) tr st x st' :
  exec op tr st = Returned (x, st') -> isRecord op = false ->
  result st' = result st
  ∧ ∀ m k v, getMap m st !! k = Some v -> getMap m st' !! k = Some v.
Proof.
  intros Hexec Hrec.
  destruct op; simpl in Hexec, Hrec; try discriminate Hrec;
    repeat match goal with
           | H : context [match ?x with _ => _ end] |- _ => destruct x eqn:?
           end; simplify_eq; (split; [by try destruct m|]); intros m' k' v' Hk'; try done;
    try (by destruct m').
  destruct m, m'; simpl in *; try done; (rewrite lookup_insert_ne; [done|congruence]).
Qed.

Lemma run_found_mono {A} (p : Prog A) tr st a st' :
  run p tr st = Returned (a, st') -> found st = true -> found st' = true.
Proof.
  revert st. induction p as [b | X op k IH]; intros st Hrun Hf; cbn [run] in Hrun.
  - by simplify_eq.
  - destruct (exec op tr st) as [[x st1]| |] eqn:E; [|done..].
    eapply IH; [exact Hrun|]. destruct (exec_found _ _ _ _ _ E) as (-> & _ & _).
    by rewrite Hf.
Qed.

Lemma quiet_run {A} (P Q : A -> Prop) (p : Prog A) tr st a st' :
  quiet P Q p -> run p tr st = Returned (a, st') -> found st' = found st ->
  result st' = result st
  ∧ ∀ m k v, getMap m st !! k = Some v -> getMap m st' !! k = Some v.
Proof.
  revert st. induction p as [b | X op k IH]; intros st Hq Hrun Hf; cbn [run] in Hrun.
  - by simplify_eq.
  - destruct (exec op tr st) as [[x st1]| |] eqn:E; [|done..].
    destruct Hq as [Hrec Hk]. specialize (Hk x).
    destruct (exec_found _ _ _ _ _ E) as (Hf1 & Hwin & _).
    destruct (exec_no_record _ _ _ _ _ E Hrec) as [Hres Hmaps].
    destruct (isWin op x) eqn:Ew.
    + specialize (Hwin eq_refl). rewrite orb_true_r in Hf1.
      rewrite (run_found_mono _ _ _ _ _ Hrun Hf1) in Hf. congruence.
    + rewrite orb_false_r in Hf1.
      destruct (IH x st1 Hk Hrun ltac:(congruence)) as [IH1 IH2].
      split; [congruence|]. intros m key v Hv. by apply IH2, Hmaps.
Qed.

Lemma own_other dir : other dir ≠ own dir.
Proof. unfold own, other. by destruct (String.eqb dir "F"). Qed.

(** X9.  One expansion, run on its own, never writes the visited map of
    the other direction.  Unless it is the one that sets the found flag, it
    leaves the result and every entry that its own map holds as they were.
    With the flag already set, or with no title to ask for, it returns no
    node and changes nothing; in particular it sends no request. *)
Theorem fetch_frame tr s titles lang dir st nodes st' :
  run (fetch s titles lang dir) tr st = Returned (nodes, st') ->
  getMap (other dir) st' = getMap (other dir) st
  ∧ (found st' = found st ->
       result st' = result st
       ∧ ∀ k v, getMap (own dir) st !! k = Some v -> getMap (own dir) st' !! k = Some v)
  ∧ (found st = true ∨ titles = [] -> nodes = [] ∧ st' = st).
Proof.
  intros Hrun. split; [|split].
  - eapply run_writesOnly; [apply fetch_writesOnly|apply own_other|exact Hrun].
  - intros Hf. destruct (quiet_run _ _ _ _ _ _ _ (fetch_quiet s titles lang dir) Hrun Hf)
      as [Hres Hmaps]. split; [done|]. intros k v. apply Hmaps.
  - intros Hedge. unfold fetch in Hrun. rewrite run_bind, run_call in Hrun.
    cbn [exec] in Hrun.
    replace (found st || (length titles =? 0)%nat) with true in Hrun.
    + cbn [run] in Hrun. by simplify_eq.
    + destruct Hedge as [->| ->]; [done|]. by rewrite orb_true_r.
Qed.

(** ** The found flag and the result *)

Lemma spent_bind {A B} (Q : A -> Prop) (Q' : B -> Prop) (p : Prog A) (f : A -> Prog B) :
  spent Q p -> (∀ a, Q a -> spent Q' (f a)) -> spent Q' (bind p f).
Proof.
  intros Hp Hf. induction p as [a | X op k IH]; simpl in *; [auto|].
  destruct Hp as (Hrec & Hcas & Hk). repeat split; [done..|]. intros x. apply IH, Hk.
Qed.

Lemma storing_bind {A B} (R Q : A -> Prop) (R' Q' : B -> Prop) (p : Prog A) (f : A -> Prog B) :
  storing R Q p -> (∀ a, R a -> storing R' Q' (f a)) -> (∀ a, Q a -> spent Q' (f a)) ->
  storing R' Q' (bind p f).
Proof.
  intros Hp Hr Hf. induction p as [a | X op k IH]; simpl in *; [auto|].
  destruct (storedPath op) as [r|].
  - destruct Hp as [Hne Hk]. split; [done|]. intros x. by eapply spent_bind.
  - intros x Hx. by apply IH, Hp.
Qed.

Lemma idle_bind {A B} (P R Q : A -> Prop) (P' R' Q' : B -> Prop)
    (p : Prog A) (f : A -> Prog B) :
  idle P R Q p -> (∀ a, P a -> idle P' R' Q' (f a)) ->
  (∀ a, R a -> storing R' Q' (f a)) -> (∀ a, Q a -> spent Q' (f a)) ->
  idle P' R' Q' (bind p f).
Proof.
  intros Hp Hf Hr Hs. induction p as [a | X op k IH]; simpl in *; [auto|].
  destruct Hp as [Hrec Hk]. split; [done|]. intros x. specialize (Hk x).
  destruct (isWin op x); [by eapply storing_bind | by apply IH].
Qed.

Lemma idle_call {X} (P : X -> Prop) (op : Op X) :
  isRecord op = false -> isCAS op = false -> (∀ x, P x) -> idle P nothing nothing (call op).
Proof.
  intros Hrec Hcas H. simpl. split; [done|]. intros x.
  replace (isWin op x) with false by (by destruct op). apply H.
Qed.

Ltac idle_plain :=
  eapply idle_bind with (P := anything) (R := nothing) (Q := nothing);
  [ by apply idle_call | intros ? _ | intros ? [] | intros ? [] ].

Lemma visit_idle dir parent child newNodes :
  idle anything nothing (fun r => r = None) (visit dir parent child newNodes).
Proof.
  unfold visit. idle_plain.
  eapply idle_bind with (P := fun b => b = false) (R := fun b => b = true) (Q := nothing).
  - destruct (exists_ a); [|done]. simpl. split; [done|]. by intros [|].
  - intros claimed ->. idle_plain. done.
  - intros claimed ->. unfold buildPathP. simpl.
    intros _ _ fwd Hfwd bwd _. split; [by destruct fwd|]. intros _. done.
  - intros claimed [].
Qed.

Lemma visitAll_idle dir parent children newNodes :
  idle anything nothing (fun r => r = None) (visitAll dir parent children newNodes).
Proof.
  revert newNodes. induction children as [|c cs IH]; intros newNodes; cbn [visitAll]; [done|].
  eapply idle_bind; [apply visit_idle| | |].
  - intros [nn|] _; [apply IH | done].
  - intros r [].
  - by intros r ->.
Qed.

Lemma pagesLoop_idle s lang dir pages newNodes :
  idle anything nothing anything (pagesLoop s lang dir pages newNodes).
Proof.
  revert newNodes. induction pages as [|pg pages IH]; intros newNodes; cbn [pagesLoop]; [done|].
  idle_plain. destruct a; [done|].
  eapply idle_bind; [apply visitAll_idle| | |]; [|intros r []|by intros r ->].
  intros [nn|] _; [|done].
  eapply idle_bind; [apply visitAll_idle| | |]; [|intros r []|by intros r ->].
  intros [nn'|] _; [apply IH | done].
Qed.

Lemma fetch_idle s titles lang dir : idle anything nothing anything (fetch s titles lang dir).
Proof.
  unfold fetch. idle_plain. destruct (a || _); [done|].
  idle_plain. destruct a0 as [|status body]; [done|].
  idle_plain. destruct body; [apply pagesLoop_idle | done].
Qed.

Lemma spent_idle {A} (Q : A -> Prop) (p : Prog A) : spent Q p -> idle Q nothing anything p.
Proof.
  induction p as [a | X op k IH]; simpl; [done|]. intros (Hrec & Hcas & Hk).
  split; [done|]. intros x. replace (isWin op x) with false by (by destruct op).
  apply IH, Hk.
Qed.

Lemma exec_result {X} (op : Op X) tr st x st' :
  exec op tr st = Returned (x, st') ->
  result st' = default (result st) (storedPath op).
Proof.
  intros Hexec.
  destruct op; simpl in Hexec;
    repeat match goal with
           | H : context [match ?x with _ => _ end] |- _ => destruct x eqn:?
           end; simplify_eq; try done; by destruct m.
Qed.

Lemma exec_walked {X} (op : Op X) tr st x st' :
  exec op tr st = Returned (x, st') -> walked op x.
Proof.
  intros Hexec. destruct op; try done. simpl in *.
  unfold forwardList in Hexec.
  destruct (parentWalk (visitedF st) meet) as [l| |] eqn:E; simplify_eq.
  apply parentWalk_Returned in E as [n E]. apply walk_head in E.
  destruct l; [done|]. simpl. intros H. by apply app_eq_nil in H as [_ ?].
Qed.

(** How the goroutine that acts moves from one phase to the next. *)
Lemma idle_next {A X} (op : Op X) (k : X -> Prog A) x :
  idle anything nothing anything (Vis op k) ->
  storedPath op = None
  ∧ if isWin op x then storing nothing anything (k x)
    else idle anything nothing anything (k x).
Proof. simpl. intros [Hrec Hk]. split; [by destruct op|]. apply Hk. Qed.

Lemma storing_next {A X} (op : Op X) (k : X -> Prog A) x :
  storing nothing anything (Vis op k) -> walked op x ->
  match storedPath op with
  | Some r => r ≠ [] ∧ idle anything nothing anything (k x)
  | None => storing nothing anything (k x)
  end.
Proof.
  simpl. destruct (storedPath op) as [r|].
  - intros [Hr Hk] _. split; [done|]. by apply spent_idle.
  - intros Hk Hx. by apply Hk.
Qed.

(** One operation of one goroutine of a group. *)
Lemma perform_resultInv tr c tid X (op : Op X) x c' :
  perform tr c tid op x c' -> resultInv c -> resultInv c'.
Proof.
  intros (k & Hl & Hexec & Hp) (Hall & Hunset & Hset).
  destruct (exec_found _ _ _ _ _ Hexec) as (Hfound & Hwin & _).
  pose proof (exec_result _ _ _ _ _ Hexec) as Hres.
  pose proof (exec_walked _ _ _ _ _ Hexec) as Hwalk.
  pose proof (lookup_lt_Some _ _ _ Hl) as Hlt.
  assert (pool c' !! tid = Some (k x)) as Hme
    by (by rewrite Hp, list_lookup_insert_eq).
  assert (∀ t p, t ≠ tid -> pool c' !! t = Some p <-> pool c !! t = Some p) as Hothers.
  { intros t p Hne. by rewrite Hp, list_lookup_insert_ne. }
  destruct (found (shared c)) eqn:Ef.
  - assert (isWin op x = false) as Ew.
    { destruct (isWin op x); [|done]. by specialize (Hwin eq_refl). }
    rewrite Ew in Hfound. simpl in Hfound.
    specialize (Hset eq_refl).
    assert (storing nothing anything (Vis op k) ->
            (result (shared c') ≠ [] ∧ idle anything nothing anything (k x))
            ∨ (result (shared c') = result (shared c) ∧ storing nothing anything (k x)))
      as Hstor.
    { intros Hs. pose proof (storing_next _ _ x Hs Hwalk) as Hn.
      destruct (storedPath op) as [r|]; simpl in Hres.
      - left. by rewrite Hres.
      - by right. }
    assert (idle anything nothing anything (Vis op k) ->
            result (shared c') = result (shared c) ∧ idle anything nothing anything (k x))
      as Hidle.
    { intros Hi. destruct (idle_next _ _ x Hi) as [Hsp Hn]. rewrite Ew in Hn.
      rewrite Hsp in Hres. done. }
    split; [|split; [congruence|]].
    + intros t p Ht. destruct (decide (t = tid)) as [->|Hne].
      * rewrite Hme in Ht. simplify_eq.
        destruct (Hall _ _ Hl) as [Hi|Hs].
        { left. by apply Hidle. }
        { destruct (Hstor Hs) as [[_ ?]|[_ ?]]; [by left|by right]. }
      * apply Hothers in Ht; [|done]. by eapply Hall.
    + intros _. destruct Hset as [Hr|(t & p & Ht & Hs)].
      * left. destruct (Hall _ _ Hl) as [Hi|Hs].
        { destruct (Hidle Hi) as [-> _]. done. }
        { destruct (Hstor Hs) as [[? _]|[-> _]]; done. }
      * destruct (decide (t = tid)) as [->|Hne].
        { rewrite Hl in Ht. simplify_eq.
          destruct (Hstor Hs) as [[? _]|[_ ?]]; [by left|]. right. eauto. }
        { right. exists t, p. split; [by apply Hothers|done]. }
  - destruct (Hunset eq_refl) as [Hr Hidle].
    destruct (idle_next _ _ x (Hidle _ _ Hl)) as [Hsp Hn].
    rewrite Hsp in Hres. simpl in Hres, Hfound.
    destruct (isWin op x) eqn:Ew.
    + split; [|split; [congruence|]].
      * intros t p Ht. destruct (decide (t = tid)) as [->|Hne].
        { rewrite Hme in Ht. simplify_eq. by right. }
        { apply Hothers in Ht; [|done]. by eapply Hall. }
      * intros _. right. eauto.
    + split; [|split; [|congruence]].
      * intros t p Ht. destruct (decide (t = tid)) as [->|Hne].
        { rewrite Hme in Ht. simplify_eq. by left. }
        { apply Hothers in Ht; [|done]. by eapply Hall. }
      * intros _. split; [congruence|].
        intros t p Ht. destruct (decide (t = tid)) as [->|Hne].
        { rewrite Hme in Ht. by simplify_eq. }
        { apply Hothers in Ht; [|done]. by eapply Hidle. }
Qed.

Lemma interleaved_resultInv tr c evs c' :
  interleaved tr c evs c' -> resultInv c -> resultInv c'.
Proof.
  induction 1 as [|c tid X op x c1 evs c2 Hp _ IH]; [done|].
  intros Hc. apply IH. by eapply perform_resultInv.
Qed.

(** From the start of the groups of a round to the barrier. *)
Lemma barrier_result tr st gos evs st1 (rs : list (list WikiNode)) :
  found st = false -> result st = [] ->
  Forall (idle anything nothing anything) gos ->
  interleaved tr (mkConfig st gos) evs (mkConfig st1 (Ret <$> rs)) ->
  foundIffResult st1.
Proof.
  intros Hf Hr Hgos Hevs.
  apply interleaved_resultInv in Hevs as (_ & Hunset & Hset).
  - simpl in *. unfold foundIffResult. destruct (found st1).
    + destruct (Hset eq_refl) as [?|(t & p & Ht & Hs)]; [done|].
      rewrite list_lookup_fmap in Ht. destruct (rs !! t); simplify_eq/=. done.
    + destruct (Hunset eq_refl) as [-> _]. done.
  - split; [|split]; simpl.
    + intros t p Ht. left. by eapply (Forall_lookup_1 _ _ _ _ Hgos).
    + intros _. split; [done|]. intros t p Ht. by eapply (Forall_lookup_1 _ _ _ _ Hgos).
    + congruence.
Qed.

Lemma dispatch_idle s dir bs : Forall (idle anything nothing anything) (dispatch s dir bs).
Proof. apply Forall_fmap, Forall_forall. intros b _. apply fetch_idle. Qed.

Lemma roundLoop_result tr deadline s pqF pqB st path st' :
  foundIffResult st ->
  runsD tr (roundLoop deadline s pqF pqB) st path st' ->
  foundIffResult st' ∧ path = result st'.
Proof.
  revert pqF pqB st. induction deadline as [|d IH]; intros pqF pqB st Hinv Hrun;
    cbn [roundLoop] in Hrun; driver_step Hrun.
  - destruct (negb _ && _); driver_step Hrun; by destruct Hrun as [<- <-].
  - destruct (found st) eqn:Ef; cbn [negb andb] in Hrun;
      [driver_step Hrun; by destruct Hrun as [<- <-]|].
    destruct (_ || _); [|driver_step Hrun; by destruct Hrun as [<- <-]].
    destruct (drain maxPerRound pqF []) as [byLangF pqF1].
    destruct (drain maxPerRound pqB []) as [byLangB pqB1].
    cbn [runsD] in Hrun.
    destruct Hrun as (evs & st1 & rF & rB & oF & oB & Hevs & _ & _ & _ & Hrun).
    assert (foundIffResult st1) as Hinv1.
    { eapply barrier_result; [exact Ef| | |exact Hevs].
      - destruct (result st) eqn:Er; [done|].
        destruct Hinv as [_ Hinv]. rewrite Hinv in Ef; [done|by rewrite Er].
      - apply Forall_app; split; apply dispatch_idle. }
    driver_step Hrun.
    destruct (found st1); [driver_step Hrun; by destruct Hrun as [<- <-]|].
    by eapply IH.
Qed.

Lemma Search_result tr probeStart probeEnd deadline start end_ lang path st' :
  resolve probeStart start lang ≠ resolve probeEnd end_ lang ->
  searches tr probeStart probeEnd deadline start end_ lang path st' ->
  path = result st' ∧ (found st' = true <-> path ≠ []).
Proof.
  intros Hne Hrun. unfold searches, Search in Hrun.
  destruct (resolve probeStart start lang) as [startLang0 startTitle].
  destruct (resolve probeEnd end_ lang) as [endLang endTitle].
  driver_step Hrun. driver_step Hrun.
  assert (String.eqb startTitle endTitle && String.eqb startLang0 endLang = false) as Hsame.
  { destruct (String.eqb_spec startTitle endTitle) as [->|?]; [|done].
    destruct (String.eqb_spec startLang0 endLang) as [->|?]; done. }
  rewrite Hsame in Hrun. cbn [runsD] in Hrun.
  destruct Hrun as (evs & st1 & rF & rB & oF & oB & Hevs & _ & _ & _ & Hrun).
  assert (foundIffResult st1) as Hinv1.
  { eapply barrier_result; [| | |exact Hevs]; [done|done|].
    repeat constructor; apply fetch_idle. }
  driver_step Hrun.
  destruct (found st1) eqn:Ef.
  - driver_step Hrun. destruct Hrun as [<- <-]. split; [done|exact Hinv1].
  - destruct (roundLoop_result _ _ _ _ _ _ _ _ Hinv1 Hrun) as [Hinv2 ->]. done.
Qed.

(** X10.  Unless the two resolved endpoints are the same article,
    [Search] returns [s.result], and that path is non-empty exactly when
    the found flag is set, whatever the interleaving of the goroutines. *)
Theorem path_iff_found tr probeStart probeEnd deadline start end_ lang path st' :
  resolve probeStart start lang ≠ resolve probeEnd end_ lang ->
  searches tr probeStart probeEnd deadline start end_ lang path st' ->
  path = result st' ∧ (found st' = true <-> path ≠ []).
Proof. apply Search_result. Qed.

(** ** Requests per round *)

Lemma callsAtMost_mono {A} (p : Prog A) n n' :
  (n <= n')%nat -> callsAtMost n p -> callsAtMost n' p.
Proof.
  revert n n'. induction p as [a | X op k IH]; intros n n' Hle; simpl; [done|].
  destruct (isDo op).
  - destruct n as [|n]; [done|]. destruct n' as [|n']; [lia|].
    intros H x. eapply IH; [|apply H]. lia.
  - intros H x. eapply IH; [|apply H]. done.
Qed.

Lemma httpFree_callsAtMost {A} (p : Prog A) : httpFree p -> callsAtMost 0 p.
Proof.
  induction p as [a | X op k IH]; simpl; [done|]. intros [Hop Hk].
  replace (isDo op) with false by (by destruct op). intros x. apply IH, Hk.
Qed.

Lemma fetch_callsAtMost s titles lang dir : callsAtMost 1 (fetch s titles lang dir).
Proof.
  unfold fetch. simpl. intros f. destruct (f || _); simpl; [done|].
  intros [|status body]; simpl; [done|]. intros _.
  destruct body; [apply httpFree_callsAtMost, pagesLoop_httpFree|done].
Qed.

Lemma exec_calls {X} (op : Op X) tr st x st' :
  exec op tr st = Returned (x, st') ->
  length (calls st') = (length (calls st) + if isDo op then 1 else 0)%nat.
Proof.
  intros Hexec.
  destruct op; simpl in Hexec;
    repeat match goal with
           | H : context [match ?x with _ => _ end] |- _ => destruct x eqn:?
           end; simplify_eq; simpl; rewrite ?length_app; simpl; try lia;
    destruct m; simpl; lia.
Qed.

Lemma sum_list_insert (ns : list nat) i n n' :
  ns !! i = Some n -> (sum_list (<[i := n']> ns) + n = sum_list ns + n')%nat.
Proof.
  revert i. induction ns as [|m ns IH]; intros [|i] H; simplify_eq/=; [lia|].
  specialize (IH _ H). lia.
Qed.

Lemma perform_callInv bound tr c tid X (op : Op X) x c' :
  perform tr c tid op x c' -> callInv bound c -> callInv bound c'.
Proof.
  intros (k & Hl & Hexec & Hp) (ns & Hall & Hsum).
  pose proof (exec_calls _ _ _ _ _ Hexec) as Hcalls.
  destruct (Forall2_lookup_r _ _ _ _ _ Hall Hl) as (n & Hn & Hme). simpl in Hme.
  destruct (isDo op).
  - destruct n as [|n]; [done|].
    exists (<[tid := n]> ns). rewrite Hp. split; [by apply Forall2_insert|].
    pose proof (sum_list_insert _ _ _ n Hn). lia.
  - exists ns. rewrite Hp. split; [|lia].
    rewrite <- (list_insert_id ns tid n Hn). by apply Forall2_insert.
Qed.

Lemma interleaved_callInv bound tr c evs c' :
  interleaved tr c evs c' -> callInv bound c -> callInv bound c'.
Proof.
  induction 1 as [|c tid X op x c1 evs c2 Hp _ IH]; [done|].
  intros Hc. apply IH. by eapply perform_callInv.
Qed.

(** From the start of the groups of a round to the barrier: at most one
    call for each goroutine. *)
Lemma barrier_calls tr st gos evs st1 (rs : list (list WikiNode)) :
  Forall (callsAtMost 1) gos ->
  interleaved tr (mkConfig st gos) evs (mkConfig st1 (Ret <$> rs)) ->
  (length (calls st1) <= length (calls st) + length gos)%nat.
Proof.
  intros Hgos Hevs.
  apply (interleaved_callInv (length (calls st) + length gos)) in Hevs as (ns & _ & Hsum).
  - simpl in Hsum. lia.
  - exists (replicate (length gos) 1%nat). simpl. split.
    + by apply Forall2_replicate_l.
    + rewrite sum_list_replicate. lia.
Qed.

Lemma dispatch_callsAtMost s dir bs : Forall (callsAtMost 1) (dispatch s dir bs).
Proof. apply Forall_fmap, Forall_forall. intros b _. apply fetch_callsAtMost. Qed.

Lemma drained_batches budget pq byLang rest s dir :
  drain budget pq [] = (byLang, rest) ->
  (length (dispatch s dir (batches byLang)) <= budget)%nat.
Proof.
  intros Hd. unfold dispatch. rewrite length_map.
  destruct (drain_spec _ _ _ _ _ Hd) as (_ & Hlen & _); [constructor|constructor|].
  destruct (batches_spec byLang) as (_ & _ & Hb). simpl in Hlen. lia.
Qed.

Lemma roundLoop_calls tr deadline s pqF pqB st path st' :
  runsD tr (roundLoop deadline s pqF pqB) st path st' ->
  (length (calls st') <= length (calls st) + 2 * maxPerRound * deadline)%nat.
Proof.
  revert pqF pqB st. induction deadline as [|d IH]; intros pqF pqB st Hrun;
    cbn [roundLoop] in Hrun; driver_step Hrun.
  - destruct (negb _ && _); driver_step Hrun; destruct Hrun as [_ <-]; lia.
  - destruct (negb _ && _); [|driver_step Hrun; destruct Hrun as [_ <-]; lia].
    destruct (drain maxPerRound pqF []) as [byLangF pqF1] eqn:EdF.
    destruct (drain maxPerRound pqB []) as [byLangB pqB1] eqn:EdB.
    cbn [runsD] in Hrun.
    destruct Hrun as (evs & st1 & rF & rB & oF & oB & Hevs & _ & _ & _ & Hrun).
    apply barrier_calls in Hevs; [|apply Forall_app; split; apply dispatch_callsAtMost].
    rewrite length_app in Hevs.
    pose proof (drained_batches _ _ _ _ s "F" EdF).
    pose proof (drained_batches _ _ _ _ s "B" EdB).
    driver_step Hrun.
    destruct (found st1); [driver_step Hrun; destruct Hrun as [_ <-]; lia|].
    apply IH in Hrun. lia.
Qed.

Lemma Search_calls tr probeStart probeEnd deadline start end_ lang path st' :
  searches tr probeStart probeEnd deadline start end_ lang path st' ->
  (length (calls st') <= 2 + 2 * maxPerRound * deadline)%nat
  ∧ (0 <= reqCount st' <= Z.of_nat (2 + 2 * maxPerRound * deadline))%Z.
Proof.
  intros Hrun.
  assert (length (calls st') <= 2 + 2 * maxPerRound * deadline)%nat as Hcalls.
  { unfold searches, Search in Hrun.
    destruct (resolve probeStart start lang) as [startLang0 startTitle].
    destruct (resolve probeEnd end_ lang) as [endLang endTitle].
    driver_step Hrun. driver_step Hrun.
    destruct (_ && _); [destruct Hrun as [_ <-]; simpl; lia|].
    cbn [runsD] in Hrun.
    destruct Hrun as (evs & st1 & rF & rB & oF & oB & Hevs & _ & _ & _ & Hrun).
    apply barrier_calls in Hevs; [|repeat constructor; apply fetch_callsAtMost].
    simpl in Hevs. driver_step Hrun.
    destruct (found st1); [driver_step Hrun; destruct Hrun as [_ <-]; lia|].
    apply roundLoop_calls in Hrun. lia. }
  split; [done|].
  pose proof (Search_counted _ _ _ _ _ _ _ _ _ Hrun) as Hc. unfold counted in Hc.
  assert (responses (calls st') <= length (calls st'))%nat.
  { unfold responses. apply List.filter_length_le. }
  lia.
Qed.


(** ** Article links *)

Section Links.

Import URL.

Lemma escape_head (should : ascii -> bool) c rest :
  escape should (String c rest)
  = if should c then
      String "%" (String (upperhex (Z.shiftr (byte c) 4))
                         (String (upperhex (Z.land (byte c) 15)) (escape should rest)))
    else String c (escape should rest).
Proof. done. Qed.

Lemma wikiPath_escape title : wikiPath title = escape escapedInLink title.
Proof.
  unfold wikiPath, PathEscape, ReplaceAll.
  induction title as [|c rest IH]; [done|].
  rewrite !escape_head.
  destruct c as [[] [] [] [] [] [] [] []];
    vm_compute shouldEscape; vm_compute escapedInLink; cbv iota;
    vm_compute upperhex; simpl; rewrite ?IH; reflexivity.
Qed.

(** X12.  The path of an article link is the title with every byte
    percent-encoded as two upper-case hex digits, except letters, digits,
    the bytes [-_.~$&+:=@] and the slash, which are kept: putting [%2F]
    back to [/] undoes the escaping of slashes and touches nothing else. *)
Theorem wikiPath_escapes title :
  wikiPath title = escape escapedInLink title.
Proof. apply wikiPath_escape. Qed.

Lemma kept_linkByte c : escapedInLink c = false -> linkByte c = true ∧ c ≠ "%"%char.
Proof.
  destruct c as [[] [] [] [] [] [] [] []]; vm_compute; intros H;
    first [discriminate H | split; [reflexivity|discriminate]].
Qed.

Lemma hex_linkByte c :
  linkByte (upperhex (Z.shiftr (byte c) 4)) = true
  ∧ linkByte (upperhex (Z.land (byte c) 15)) = true.
Proof. destruct c as [[] [] [] [] [] [] [] []]; vm_compute; done. Qed.

Lemma hexval_upperhex c :
  hexval (upperhex (Z.shiftr (byte c) 4)) = Z.shiftr (byte c) 4
  ∧ hexval (upperhex (Z.land (byte c) 15)) = Z.land (byte c) 15
  ∧ byte c = (16 * Z.shiftr (byte c) 4 + Z.land (byte c) 15)%Z.
Proof. destruct c as [[] [] [] [] [] [] [] []]; vm_compute; done. Qed.

Lemma byte_inj c1 c2 : byte c1 = byte c2 -> c1 = c2.
Proof.
  unfold byte. intros H. apply N2Z.inj in H.
  rewrite <- (ascii_N_embedding c1), <- (ascii_N_embedding c2). by rewrite H.
Qed.

Lemma hex_inj c1 c2 :
  upperhex (Z.shiftr (byte c1) 4) = upperhex (Z.shiftr (byte c2) 4) ->
  upperhex (Z.land (byte c1) 15) = upperhex (Z.land (byte c2) 15) ->
  c1 = c2.
Proof.
  intros Hhi Hlo. apply byte_inj.
  destruct (hexval_upperhex c1) as (H1 & L1 & E1).
  destruct (hexval_upperhex c2) as (H2 & L2 & E2).
  rewrite E1, E2, <- H1, <- H2, <- L1, <- L2, Hhi, Hlo. done.
Qed.

Lemma escape_inj t1 t2 :
  escape escapedInLink t1 = escape escapedInLink t2 -> t1 = t2.
Proof.
  revert t2. induction t1 as [|c1 r1 IH]; intros [|c2 r2]; rewrite ?escape_head.
  - done.
  - simpl. by destruct (escapedInLink c2).
  - simpl. by destruct (escapedInLink c1).
  - destruct (escapedInLink c1) eqn:E1, (escapedInLink c2) eqn:E2; intros H.
    + injection H as Hhi Hlo Hrest. f_equal; [by apply hex_inj|by apply IH].
    + injection H as Hc _. apply kept_linkByte in E2 as [_ Hne]. by subst.
    + injection H as Hc _. apply kept_linkByte in E1 as [_ Hne]. by subst.
    + injection H as -> Hrest. f_equal. by apply IH.
Qed.

Lemma append_cancel (p a b : string) : (p ++ a)%string = (p ++ b)%string -> a = b.
Proof. induction p as [|c p IH]; simpl; [done|]. intros [= H]. by apply IH. Qed.

(** X13.  A link path holds nothing but letters, digits and the bytes
    [-_.~$&+:=@/%]: no space, no question mark, no hash sign and no byte
    outside ASCII reaches the link, whatever the title. *)
Theorem wikiPath_bytes title :
  forallb linkByte (list_ascii_of_string (wikiPath title)) = true.
Proof.
  rewrite wikiPath_escape. induction title as [|c rest IH]; [done|].
  rewrite escape_head. destruct (escapedInLink c) eqn:E.
  - destruct (hex_linkByte c) as [Hhi Hlo].
    cbn [list_ascii_of_string forallb]. by rewrite Hhi, Hlo, IH.
  - apply kept_linkByte in E as [E _].
    cbn [list_ascii_of_string forallb]. by rewrite E, IH.
Qed.

(** X14.  Two titles that differ get different links in the same
    language: the escaping loses nothing. *)
Theorem buildWikiURL_injective lang title1 title2 :
  buildWikiURL lang title1 = buildWikiURL lang title2 -> title1 = title2.
Proof.
  unfold buildWikiURL. intros H.
  do 3 apply append_cancel in H.
  rewrite !wikiPath_escape in H. by apply escape_inj.
Qed.

End Links.

(** ** The handlers *)

Lemma pathStepsOf_lookup path i step :
  pathStepsOf path !! i = Some step ->
  ∃ node, path !! i = Some node
          ∧ step = mkPathStep (Z.of_nat i + 1) (Title node) (Lang node)
                              (URL.buildWikiURL (Lang node) (Title node)) (String_ node).
Proof.
  unfold pathStepsOf. rewrite list_lookup_imap.
  destruct (path !! i) as [node|]; simpl; [|done]. intros [= <-]. eauto.
Qed.

Lemma transitionsOf_length path : length path = S (length (transitionsOf path)) ∨ path = [].
Proof.
  induction path as [|a [|b rest] IH]; [by right|by left|left].
  destruct IH as [IH|?]; [|done]. cbn [transitionsOf length] in *. lia.
Qed.

Lemma transitionsOf_lookup path i t :
  transitionsOf path !! i = Some t ->
  ∃ a b, path !! i = Some a ∧ path !! S i = Some b ∧ t = transitionOf a b.
Proof.
  revert i. induction path as [|a [|b rest] IH]; intros i H; [done..|].
  cbn [transitionsOf] in H. destruct i as [|i].
  - simpl in H. simplify_eq. eauto.
  - apply (IH i) in H as (a' & b' & Ha & Hb & ->). eauto.
Qed.

Lemma reply_wellFormed from to path elapsed requests :
  path ≠ [] ->
  wellFormed (mkResponse true from to (Z.of_nat (length path)) (pathStepsOf path)
                (transitionsOf path)
                (mkStats (durationString elapsed) (durationMs elapsed) requests)).
Proof.
  intros Hne. unfold wellFormed. cbn [PathLength Path Transitions].
  assert (length (pathStepsOf path) = length path) as Hlen
    by (unfold pathStepsOf; by rewrite length_imap).
  rewrite Hlen.
  split; [destruct path; [done|simpl; lia]|]. split; [done|].
  split; [by destruct (transitionsOf_length path)|]. split.
  - intros i step Hs. apply pathStepsOf_lookup in Hs as (node & _ & ->). done.
  - intros i t Ht. apply transitionsOf_lookup in Ht as (a & b & Ha & Hb & ->).
    exists (mkPathStep (Z.of_nat i + 1) (Title a) (Lang a)
                       (URL.buildWikiURL (Lang a) (Title a)) (String_ a)),
           (mkPathStep (Z.of_nat (S i) + 1) (Title b) (Lang b)
                       (URL.buildWikiURL (Lang b) (Title b)) (String_ b)).
    unfold pathStepsOf. rewrite !list_lookup_imap, Ha, Hb.
    split; [done|]. split; [done|]. unfold transitionOf. cbn [stepLang stepTitle stepURL].
    destruct (String.eqb_spec (Lang a) (Lang b)); cbn; auto 10.
Qed.

(** X15.  A 200 response of either handler hangs together: its
    [path_length] is the number of its steps and at least 1, the steps are
    numbered from 1, and there is one transition from each step to the
    next, of type [link] when the two articles are in the same language
    and [interwiki] when they are not, with the link of the first of the
    two as its [check_url]. *)
Theorem handlers_wellFormed tr probeStart probeEnd deadline elapsed body :
  (∀ req, SearchPath (Some req) tr probeStart probeEnd deadline elapsed
          = Returned (Found body) -> wellFormed body)
  ∧ (∀ query, SearchPathGet query tr probeStart probeEnd deadline elapsed
              = Returned (Found body) -> wellFormed body).
Proof.
  split.
  - intros req H. unfold SearchPath in H.
    destruct (_ || _); [done|].
    destruct (runSearch _ _ _ _ _ _ _) as [[path st']| |]; [|done..].
    destruct (Nat.eqb_spec (length path) 0) as [|Hlen]; [done|].
    injection H as <-. apply reply_wellFormed. by destruct path.
  - intros query H. unfold SearchPathGet in H.
    destruct (_ || _); [done|].
    destruct (runSearch _ _ _ _ _ _ _) as [[path st']| |]; [|done..].
    destruct (Nat.eqb_spec (length path) 0) as [|Hlen]; [done|].
    injection H as <-. apply reply_wellFormed. by destruct path.
Qed.

(** X16.  [POST /search] and [GET /search] answer alike: with both
    titles given, the handlers send the same reply for the same three
    parameters, an absent or empty language standing for [ru] in both;
    with a title missing both answer 400 with the code [MISSING_PARAMS]
    and run no search. *)
Theorem handlers_agree req tr probeStart probeEnd deadline elapsed :
  let post := SearchPath (Some req) tr probeStart probeEnd deadline elapsed in
  let get := SearchPathGet (asQuery req) tr probeStart probeEnd deadline elapsed in
  (reqFrom req ≠ "" ∧ reqTo req ≠ "" -> post = get)
  ∧ (reqFrom req = "" ∨ reqTo req = "" ->
       ∃ msg msg', post = Returned (Failed 400 (mkError false msg "MISSING_PARAMS"))
                   ∧ get = Returned (Failed 400 (mkError false msg' "MISSING_PARAMS"))).
Proof.
  intros post get. subst post get. unfold SearchPath, SearchPathGet, QueryOr, Query.
  assert (asQuery req !! "from" = Some (reqFrom req)) as ->
    by (unfold asQuery; by rewrite lookup_insert_eq).
  assert (asQuery req !! "to" = Some (reqTo req)) as ->
    by (unfold asQuery; rewrite lookup_insert_ne by discriminate; by rewrite lookup_insert_eq).
  assert (asQuery req !! "lang" = Some (reqLang req)) as ->
    by (unfold asQuery; rewrite !lookup_insert_ne by discriminate; by rewrite lookup_singleton_eq).
  cbn [from_option id]. split.
  - intros [Hf Ht].
    destruct (String.eqb_spec (reqFrom req) ""); [done|].
    destruct (String.eqb_spec (reqTo req) ""); [done|]. done.
  - intros Hmiss.
    assert (String.eqb (reqFrom req) "" || String.eqb (reqTo req) "" = true) as ->.
    { destruct Hmiss as [->| ->]; [done|]. by rewrite orb_true_r. }
    eauto.
Qed.

(** X17.  A [GET /search] with both titles given, whose endpoints resolve
    to two different articles, with the goroutines of its search run one
    after another, is answered 404 exactly when the search ended without
    the found flag, and 200 exactly when it ended with the flag set;
    the 200 reply carries the request counter of that search, which is at
    most 2 + 500 * [deadline]. *)
Theorem get_reply_follows_found query tr probeStart probeEnd deadline elapsed reply :
  let from := Query query "from" in
  let to := Query query "to" in
  let lang := QueryOr query "lang" "ru" in
  from ≠ "" -> to ≠ "" ->
  resolve probeStart from lang ≠ resolve probeEnd to lang ->
  SearchPathGet query tr probeStart probeEnd deadline elapsed = Returned reply ->
  ∃ path st',
    runSearch tr probeStart probeEnd deadline from to lang = Returned (path, st')
    ∧ (statusOf reply = 404%Z <-> found st' = false)
    ∧ (statusOf reply = 200%Z <-> found st' = true)
    ∧ ∀ body, reply = Found body ->
        RequestCount (Stats body) = reqCount st'
        ∧ (0 <= RequestCount (Stats body) <= Z.of_nat (2 + 2 * maxPerRound * deadline))%Z.
Proof.
  intros from to lang Hfrom Hto Hne H. unfold SearchPathGet in H.
  fold from to lang in H.
  destruct (String.eqb_spec from ""); [done|].
  destruct (String.eqb_spec to ""); [done|]. cbn [orb] in H.
  destruct (runSearch tr probeStart probeEnd deadline from to lang)
    as [[path st']| |] eqn:E; [|done..].
  exists path, st'. split; [done|].
  apply runD_runsD in E.
  destruct (Search_result _ _ _ _ _ _ _ _ _ Hne E) as [-> Hiff].
  destruct (Search_calls _ _ _ _ _ _ _ _ _ E) as [_ Hbound].
  destruct (Nat.eqb_spec (length (result st')) 0) as [Hlen|Hlen]; injection H as <-.
  - assert (found st' = false) as Hf.
    { destruct (found st'); [|done]. destruct Hiff as [Hiff _].
      specialize (Hiff eq_refl). by destruct (result st'). }
    cbn [statusOf]. rewrite Hf. split; [done|]. split; [done|]. by intros ?.
  - assert (found st' = true) as Hf.
    { apply Hiff. intros Hr. by rewrite Hr in Hlen. }
    cbn [statusOf]. rewrite Hf. split; [done|]. split; [done|].
    intros ? [= <-]. cbn [Stats RequestCount]. done.
Qed.

(** ** What a search asks the server *)

Lemma asksOnly_bind P {A B} (p : Prog A) (f : A -> Prog B) :
  asksOnly P p -> (∀ a, asksOnly P (f a)) -> asksOnly P (bind p f).
Proof.
  intros Hp Hf. induction p as [a | X op k IH]; simpl in *; [auto|].
  destruct Hp as [Hop Hk]. split; [done|]. intros x. apply IH, Hk.
Qed.

Lemma httpFree_asksOnly P {A} (p : Prog A) : httpFree p -> asksOnly P p.
Proof.
  induction p as [a | X op k IH]; simpl; [done|]. intros [Hop Hk].
  split; [by destruct op|]. intros x. apply IH, Hk.
Qed.

Lemma fetch_asksOnly P s titles lang dir :
  (titles ≠ [] -> P titles lang dir) -> asksOnly P (fetch s titles lang dir).
Proof.
  intros HP. unfold fetch. simpl. split; [done|]. intros f.
  destruct (Nat.eqb_spec (length titles) 0) as [|Hlen];
    [rewrite orb_true_r; done|rewrite orb_false_r].
  destruct f; simpl; [done|]. split; [apply HP; by destruct titles|].
  intros [|status body]; simpl; [done|]. split; [done|]. intros _.
  destruct body; [apply httpFree_asksOnly, pagesLoop_httpFree|done].
Qed.

Lemma returnsIn_bind {A B} (R' : A -> Prop) (R : B -> Prop) (p : Prog A) (f : A -> Prog B) :
  returnsIn R' p -> (∀ a, R' a -> returnsIn R (f a)) -> returnsIn R (bind p f).
Proof.
  intros Hp Hf. induction p as [a | X op k IH]; simpl in *; [auto|].
  intros x. apply IH, Hp.
Qed.

Lemma returnsIn_anything {A} (p : Prog A) : returnsIn anything p.
Proof. induction p as [a | X op k IH]; simpl; [done|]. auto. Qed.

Section Languages.

Variables startLang endLang : string.

Local Abbreviation ok := (allowedNodes startLang endLang).
Local Abbreviation okVisit :=
  (fun r : option (list WikiNode) => match r with Some nn => ok nn | None => True end).

Lemma visit_returns dir parent child nn :
  ok nn -> ok [child] -> returnsIn okVisit (visit dir parent child nn).
Proof.
  intros Hnn Hc. unfold visit.
  eapply returnsIn_bind; [apply returnsIn_anything|]. intros v _.
  eapply returnsIn_bind; [apply returnsIn_anything|]. intros [|] _.
  - eapply returnsIn_bind; [apply returnsIn_anything|]. intros _ _.
    eapply returnsIn_bind; [apply returnsIn_anything|]. intros path _.
    eapply returnsIn_bind; [apply returnsIn_anything|]. intros _ _.
    eapply returnsIn_bind; [apply returnsIn_anything|]. intros _ _. done.
  - eapply returnsIn_bind; [apply returnsIn_anything|]. intros [|] _; simpl; [done|].
    by apply Forall_app.
Qed.

Lemma visitAll_returns dir parent children nn :
  ok nn -> ok children -> returnsIn okVisit (visitAll dir parent children nn).
Proof.
  revert nn. induction children as [|c cs IH]; intros nn Hnn Hcs; cbn [visitAll]; [done|].
  apply Forall_cons in Hcs as [Hc Hcs].
  eapply returnsIn_bind; [apply visit_returns; [done|by constructor]|].
  intros [nn'|] Hr; [by apply IH|done].
Qed.

Lemma linkChildren_ok s pg lang dir :
  allowedLang startLang endLang lang -> ok (linkChildren s pg lang dir).
Proof. intros Hl. unfold linkChildren. apply Forall_map, Forall_forall. by intros t _. Qed.

Lemma langLinkChildren_ok s pg dir : ok (langLinkChildren s pg dir).
Proof.
  unfold langLinkChildren. apply Forall_map, Forall_forall. intros ll Hll. simpl.
  apply list_elem_of_filter in Hll as [[Hsup _] _]. right. by right.
Qed.

Lemma pagesLoop_returns s lang dir pages nn :
  allowedLang startLang endLang lang -> ok nn ->
  returnsIn ok (pagesLoop s lang dir pages nn).
Proof.
  intros Hl. revert nn. induction pages as [|pg pages IH]; intros nn Hnn; cbn [pagesLoop];
    [done|].
  eapply returnsIn_bind; [apply returnsIn_anything|]. intros [|] _; [by constructor|].
  eapply returnsIn_bind; [apply visitAll_returns; [done|by apply linkChildren_ok]|].
  intros [nn1|] H1; [|by constructor].
  eapply returnsIn_bind; [apply visitAll_returns; [done|apply langLinkChildren_ok]|].
  intros [nn2|] H2; [by apply IH|by constructor].
Qed.

Lemma fetch_returns s titles lang dir :
  allowedLang startLang endLang lang -> returnsIn ok (fetch s titles lang dir).
Proof.
  intros Hl. unfold fetch.
  eapply returnsIn_bind; [apply returnsIn_anything|]. intros f _.
  destruct (f || _); [by constructor|].
  eapply returnsIn_bind; [apply returnsIn_anything|]. intros [|status body] _;
    [by constructor|].
  eapply returnsIn_bind; [apply returnsIn_anything|]. intros _ _.
  destruct body; [apply pagesLoop_returns; [done|constructor]|by constructor].
Qed.

Lemma exec_calls_log {X} (op : Op X) tr st x st' :
  exec op tr st = Returned (x, st') ->
  calls st'
  = match op in Op X return X -> list Call with
    | client_Do titles lang dir => fun out => (calls st ++ [mkCall titles lang dir out])%list
    | _ => fun _ => calls st
    end x.
Proof.
  intros Hexec.
  destruct op; simpl in Hexec;
    repeat match goal with
           | H : context [match ?x with _ => _ end] |- _ => destruct x eqn:?
           end; simplify_eq; try done; by destruct m.
Qed.

Lemma perform_askInv tr c tid X (op : Op X) x c' :
  perform tr c tid op x c' -> askInv startLang endLang c -> askInv startLang endLang c'.
Proof.
  intros (k & Hl & Hexec & Hp) [Hcalls Hpool].
  pose proof (exec_calls_log _ _ _ _ _ Hexec) as Hlog.
  destruct (Hpool _ _ Hl) as [Hasks Hret]. simpl in Hasks, Hret.
  destruct Hasks as [Hop Hk]. split.
  - rewrite Hlog. destruct op; try done.
    apply Forall_app. split; [done|]. by constructor.
  - intros t p Ht. rewrite Hp in Ht.
    destruct (decide (t = tid)) as [->|Hne].
    + rewrite list_lookup_insert_eq in Ht by (eapply lookup_lt_Some; exact Hl). simplify_eq.
      split; [apply Hk|apply Hret].
    + rewrite list_lookup_insert_ne in Ht by congruence. by apply (Hpool t).
Qed.

Lemma interleaved_askInv tr c evs c' :
  interleaved tr c evs c' -> askInv startLang endLang c -> askInv startLang endLang c'.
Proof.
  induction 1 as [|c tid X op x c1 evs c2 Hp _ IH]; [done|].
  intros Hc. apply IH. by eapply perform_askInv.
Qed.

(** The batches of a round are good requests when the queue holds nodes
    in the languages of the search. *)
Lemma drain_langs budget pq acc byLang rest :
  drain budget pq acc = (byLang, rest) ->
  ok pq -> Forall (fun g => allowedLang startLang endLang g.1) acc ->
  Forall (fun g => allowedLang startLang endLang g.1) byLang ∧ ok rest.
Proof.
  revert pq acc. induction budget as [|budget IH]; intros pq acc Hd Hpq Hacc; cbn [drain] in Hd.
  - by simplify_eq.
  - destruct (heap_Pop pq) as [[n pq1]|] eqn:Epop; [|by simplify_eq].
    destruct (heap_Pop_Forall (fun n => allowedLang startLang endLang (Lang n))
                (fun _ _ H => H) _ _ _ Epop Hpq) as [Hn Hpq1].
    eapply IH; [exact Hd|exact Hpq1|].
    clear -Hacc Hn. induction Hacc as [|[l ts] acc Hhd Hacc IH]; cbn [addTitle].
    + apply Forall_cons. split; [exact Hn|apply Forall_nil_2].
    + destruct (String.eqb l (Lang n)); apply Forall_cons; split; assumption.
Qed.

Lemma dispatch_good s dir byLang :
  dir = "F" ∨ dir = "B" ->
  Forall (fun g => allowedLang startLang endLang g.1) byLang ->
  Forall (fun p => asksOnly (goodRequest startLang endLang) p ∧ returnsIn ok p)
         (dispatch s dir (batches byLang)).
Proof.
  intros Hdir Hby. unfold dispatch. apply Forall_map.
  destruct (batches_spec byLang) as (_ & Hsize & _).
  assert (Forall (fun b => allowedLang startLang endLang b.2) (batches byLang)) as Hlang.
  { unfold batches. clear Hsize. induction Hby as [|[l ts] byLang Hhd Hby IH]; simpl; [done|].
    apply Forall_app. split; [|done]. apply Forall_map, Forall_forall. by intros t _. }
  apply Forall_forall. intros b Hb.
  rewrite Forall_forall in Hsize, Hlang. specialize (Hsize b Hb). specialize (Hlang b Hb).
  split; [|by apply fetch_returns].
  apply fetch_asksOnly. intros _. done.
Qed.

(** From the start of the groups of a round to the barrier. *)
Lemma barrier_asks tr st gos evs st1 (rs : list (list WikiNode)) :
  Forall (goodCall startLang endLang) (calls st) ->
  Forall (fun p => asksOnly (goodRequest startLang endLang) p ∧ returnsIn ok p) gos ->
  interleaved tr (mkConfig st gos) evs (mkConfig st1 (Ret <$> rs)) ->
  Forall (goodCall startLang endLang) (calls st1) ∧ Forall ok rs.
Proof.
  intros Hcalls Hgos Hevs.
  apply interleaved_askInv in Hevs as [Hc1 Hpool].
  - split; [done|]. apply Forall_lookup. intros i r Hr.
    destruct (Hpool i (Ret r)) as [_ H]; [|done].
    simpl. by rewrite list_lookup_fmap, Hr.
  - split; [done|]. intros t p Ht. by eapply (Forall_lookup_1 _ _ _ _ Hgos).
Qed.

Lemma concat_ok (rs order : list (list WikiNode)) :
  order ≡ₚ (rs : list (list WikiNode)) -> Forall ok rs -> ok (concat order).
Proof. intros Hp H. rewrite <- Hp in H. by apply Forall_concat. Qed.

Lemma roundLoop_asks tr deadline s pqF pqB st path st' :
  Forall (goodCall startLang endLang) (calls st) -> ok pqF -> ok pqB ->
  runsD tr (roundLoop deadline s pqF pqB) st path st' ->
  Forall (goodCall startLang endLang) (calls st').
Proof.
  revert pqF pqB st. induction deadline as [|d IH]; intros pqF pqB st Hc HF HB Hrun;
    cbn [roundLoop] in Hrun; driver_step Hrun.
  - destruct (negb _ && _); driver_step Hrun; by destruct Hrun as [_ <-].
  - destruct (negb _ && _); [|driver_step Hrun; by destruct Hrun as [_ <-]].
    destruct (drain maxPerRound pqF []) as [byLangF pqF1] eqn:EdF.
    destruct (drain maxPerRound pqB []) as [byLangB pqB1] eqn:EdB.
    destruct (drain_langs _ _ _ _ _ EdF HF (List.Forall_nil _)) as [HbyF HF1].
    destruct (drain_langs _ _ _ _ _ EdB HB (List.Forall_nil _)) as [HbyB HB1].
    cbn [runsD] in Hrun.
    destruct Hrun as (evs & st1 & rF & rB & oF & oB & Hevs & _ & HpF & HpB & Hrun).
    apply barrier_asks in Hevs as [Hc1 Hrs]; [|done|].
    2: { apply Forall_app. split; apply dispatch_good; auto. }
    apply Forall_app in Hrs as [HrF HrB].
    driver_step Hrun.
    destruct (found st1); [driver_step Hrun; by destruct Hrun as [_ <-]|].
    eapply IH; [exact Hc1| | |exact Hrun].
    + apply pushAll_Forall; [done|done|by eapply concat_ok].
    + apply pushAll_Forall; [done|done|by eapply concat_ok].
Qed.

End Languages.

Lemma resolve_lang probe raw lang :
  (resolve probe raw lang).1 = "ru" ∨ (resolve probe raw lang).1 = "en"
  ∨ resolve probe raw lang = (lang, raw).
Proof.
  unfold resolve, detectLang, foundLangs, candidates.
  destruct (String.eqb (guessLang raw) "ru") eqn:Eg.
  - apply String.eqb_eq in Eg. rewrite Eg. cbn [omap list_omap].
    destruct (probe "ru" ≫= probeResult) as [t|]; cbn [fmap option_fmap option_map];
      [left; reflexivity|].
    destruct (probe "en" ≫= probeResult) as [t|]; cbn [fmap option_fmap option_map];
      [right; left; reflexivity|]. right. right. reflexivity.
  - assert (guessLang raw = "en") as ->.
    { unfold guessLang in *. by destruct (existsb _ _). }
    cbn [omap list_omap].
    destruct (probe "en" ≫= probeResult) as [t|]; cbn [fmap option_fmap option_map];
      [right; left; reflexivity|].
    destruct (probe "ru" ≫= probeResult) as [t|]; cbn [fmap option_fmap option_map];
      [left; reflexivity|]. right. right. reflexivity.
Qed.

Lemma Search_asks tr probeStart probeEnd deadline start end_ lang path st' :
  searches tr probeStart probeEnd deadline start end_ lang path st' ->
  Forall (goodCall (resolve probeStart start lang).1 (resolve probeEnd end_ lang).1)
         (calls st').
Proof.
  unfold searches, Search.
  destruct (resolve probeStart start lang) as [startLang0 startTitle].
  destruct (resolve probeEnd end_ lang) as [endLang endTitle]. cbn [fst].
  intros Hrun. driver_step Hrun. driver_step Hrun.
  destruct (_ && _); [destruct Hrun as [_ <-]; constructor|].
  cbn [runsD] in Hrun.
  destruct Hrun as (evs & st1 & rF & rB & oF & oB & Hevs & Hlen & HpF & HpB & Hrun).
  apply (barrier_asks startLang0 endLang) in Hevs as [Hc1 Hrs]; [|constructor|].
  2: { repeat constructor.
       - apply fetch_asksOnly. intros _. repeat split; simpl; auto. unfold batchSize. lia.
         by left.
       - apply fetch_returns. by left.
       - apply fetch_asksOnly. intros _. repeat split; simpl; auto. unfold batchSize. lia.
         right. by left.
       - apply fetch_returns. right. by left. }
  assert (Forall (allowedNodes startLang0 endLang) rF
          ∧ Forall (allowedNodes startLang0 endLang) rB) as [HrF HrB].
  { destruct rF as [|a [|b rF]]; simplify_eq/=.
    apply Forall_cons in Hrs as [Ha Hrs]. split; [by constructor|done]. }
  driver_step Hrun.
  destruct (found st1); [driver_step Hrun; by destruct Hrun as [_ <-]|].
  eapply roundLoop_asks; [exact Hc1| | |exact Hrun].
  - apply pushAll_Forall; [done|constructor|by eapply concat_ok].
  - apply pushAll_Forall; [done|constructor|by eapply concat_ok].
Qed.


End Engine.



(** ** Concrete runs *)

Import Fixture.

(** C6: the claim read literally.  With target word [aaa], the title
    [aaa aaa] earns the 40-point bonus twice in the code and once per word
    in the specification's wording. *)
Lemma heuristic_not_per_word :
  heuristic asciiToLower (searcherFor asciiToLower "en" "bbb" "en" "aaa") "aaa aaa" "de" "F"
  ≠ scorePerWord asciiToLower (wordsOf asciiToLower "aaa") "en" "aaa aaa" "de".
Proof. vm_compute. discriminate. Qed.

Lemma heuristic_api_agree_witness :
  heuristic asciiToLower (searcherFor asciiToLower "ru" "Foo Bar" "en" "New York")
            "New York City" "en" "F"
  = api_heuristic asciiToLower
      (mkAPISearcher "en" "ru" (wordsOf asciiToLower "Foo Bar") (wordsOf asciiToLower "New York"))
      "New York City" "en" "F".
Proof. apply heuristic_api_agree; reflexivity. Defined.

(** C8: the claim read literally.  A title made of a Cyrillic letter
    outside the Russian range is probed in the order [en, ru]. *)
Lemma candidates_ukrainian :
  existsb isCyrillic (runes ukrainianI) = true
  ∧ candidates ukrainianI ≠ ["ru"; "en"].
Proof. split; [reflexivity | vm_compute; discriminate]. Qed.

Lemma resolve_first_candidate_witness :
  resolve (englishProbe "Moscow") "Moscow" "ru" = ("en", "Moscow").
Proof.
  apply (proj1 (proj2 (resolve_first_candidate (englishProbe "Moscow") "Moscow" "ru"))
           0%nat "en" "Moscow").
  - reflexivity.
  - exists [], (mkProbePage "42" "Moscow" false), [].
    repeat split; [discriminate | constructor].
  - intros j l' Hj. lia.
Defined.

(** C2: the claim read literally.  [Linux] and [linux] have the same key,
    yet the search goes on to expand both. *)
Lemma same_key_no_shortcut : ¬ sameKeyShortcut asciiToLower.
Proof.
  intros H.
  destruct (H (scripted [ok []; ok []]) noProbe noProbe 5%nat "Linux" "linux" "en" _ _ eq_refl
              ltac:(apply runD_runsD; vm_compute; reflexivity)) as (_ & Hcalls & _).
  discriminate Hcalls.
Qed.

Lemma Search_same_endpoints_witness :
  ∃ st0,
    (∀ path st', searches asciiToLower garbage noProbe noProbe 5 "Кошка" "Кошка" "ru" path st'
                 <-> path = [startNodeOf noProbe "Кошка" "ru"] ∧ st' = st0)
    ∧ calls st0 = [] ∧ reqCount st0 = 0%Z ∧ found st0 = false.
Proof. apply Search_same_endpoints. reflexivity. Defined.

(** C5: the claim read literally.  Two responses arrive and neither
    decodes; the counter stands at 2. *)
Lemma counter_counts_undecoded : ¬ countsDecodedCalls asciiToLower.
Proof.
  intros H.
  specialize (H garbage noProbe noProbe 5%nat "A" "B" "en" _ _
                ltac:(apply runD_runsD; vm_compute; reflexivity)).
  vm_compute in H. discriminate H.
Qed.

Lemma reqCount_counts_responses_witness :
  match runSearch asciiToLower garbage noProbe noProbe 5 "A" "B" "en" with
  | Returned (path, st') =>
    searches asciiToLower garbage noProbe noProbe 5 "A" "B" "en" path st'
    ∧ reqCount st' = Z.of_nat (responses (calls st'))
  | _ => False
  end.
Proof.
  destruct (runSearch asciiToLower garbage noProbe noProbe 5 "A" "B" "en")
    as [[path st']| |] eqn:E.
  - pose proof (runD_runsD _ _ _ _ _ _ E) as Hrun. split; [exact Hrun|].
    exact (reqCount_counts_responses _ _ _ _ _ _ _ _ _ _ Hrun).
  - vm_compute in E. discriminate E.
  - vm_compute in E. discriminate E.
Defined.



(** C3 at a failing input: start [Linux], end [linux], default language
    [en], both probes unanswered.  The 18th operation of the search is the
    winning compare-and-swap of the forward expansion of [Unix]; the 19th is
    its [Store], which replaces the entry of the key [en:linux], recorded
    when the search was seeded. *)
Lemma claim_store_overwrites :
  let search := Search asciiToLower noProbe noProbe 5 "Linux" "linux" "en" in
  let before := stateAfter asciiToLower 18 search linuxUnix newState in
  let after := stateAfter asciiToLower 19 search linuxUnix newState in
  found before = true
  ∧ visitedF before !! "en:linux" = Some None
  ∧ visitedF after !! "en:linux" = Some (Some (node "en" "Unix")).
Proof. vm_compute. auto. Qed.

(** C9 at the same input: after the 19th operation the parents of
    [en:linux] and [en:unix] point at each other, no amount of fuel ends the
    walk from either, and the search never returns. *)
Lemma parent_cycle_reached :
  let search := Search asciiToLower noProbe noProbe 5 "Linux" "linux" "en" in
  let st := stateAfter asciiToLower 19 search linuxUnix newState in
  visitedF st !! "en:unix" = Some (Some (node "en" "Linux"))
  ∧ visitedF st !! "en:linux" = Some (Some (node "en" "Unix"))
  ∧ (∀ fuel, walk asciiToLower fuel (visitedF st) (node "en" "Unix") = None)
  ∧ buildPath asciiToLower (visitedF st) (visitedB st) (node "en" "Linux") = Hangs
  ∧ runSearch asciiToLower linuxUnix noProbe noProbe 5 "Linux" "linux" "en" = Hangs.
Proof.
  split; [by vm_compute|]. split; [by vm_compute|]. split; [|split; by vm_compute].
  apply parentWalk_Hangs. by vm_compute.
Qed.

(** C1: the claim read literally.  The request for the end title [C] is
    answered with the page [D]; the backward expansion meets [X], and the
    returned path ends on [D]. *)
Lemma path_ends_on_redirect_target : ¬ pathJoinsEndpoints asciiToLower.
Proof.
  intros H.
  destruct (H redirected noProbe noProbe 5%nat "A" "C" "en" _ _
              ltac:(apply runD_runsD; vm_compute; reflexivity) eq_refl ltac:(simpl; lia))
    as (first & final & _ & Hlast & _ & Hkey).
  vm_compute in Hlast. injection Hlast as <-.
  vm_compute in Hkey. discriminate Hkey.
Qed.

Lemma returned_path_joins_endpoints_witness :
  match runSearch asciiToLower (wiki chain) noProbe noProbe 5 "A" "C" "en" with
  | Returned (path, st') =>
    searches asciiToLower (wiki chain) noProbe noProbe 5 "A" "C" "en" path st'
    ∧ builtFrom asciiToLower st' path ∧ joins asciiToLower "en:a" "en:c" path
  | _ => False
  end.
Proof.
  destruct (runSearch asciiToLower (wiki chain) noProbe noProbe 5 "A" "C" "en")
    as [[path st']| |] eqn:E.
  - pose proof (runD_runsD _ _ _ _ _ _ E) as Hrun. split; [exact Hrun|].
    assert (found st' = true ∧ (1 <= length path)%nat) as [Hfound Hlen].
    { pose proof E as E'. vm_compute in E'. injection E' as <- <-. split; [reflexivity|].
      simpl. lia. }
    exact (returned_path_joins_endpoints asciiToLower _ _ _ _ _ _ _ _ _
             (wiki_faithful asciiToLower chain) Hrun Hfound Hlen).
  - vm_compute in E. discriminate E.
  - vm_compute in E. discriminate E.
Defined.

(** C3 at a failing input, the race above.  The 23rd step is the winning
    compare-and-swap; the 24th is the [Store] of the claim, made with the
    found flag set, and it replaces the parent [S] recorded for [A] by
    [B].  The search returns the path through [B]. *)
Lemma race_overwrites_parent :
  let before := (schedule asciiToLower (take 23 (race asciiToLower))
                          (raceStart asciiToLower) []).1 in
  let after := (schedule asciiToLower (take 24 (race asciiToLower))
                         (raceStart asciiToLower) []).1 in
  let final := (schedule asciiToLower (race asciiToLower) (raceStart asciiToLower) []).1 in
  found (shared before) = true
  ∧ visitedF (shared before) !! "en:a" = Some (Some (node "en" "S"))
  ∧ visitedF (shared after) !! "en:a" = Some (Some (node "en" "B"))
  ∧ String_ <$> result (shared final) = ["en:S"; "en:B"; "en:A"; "en:E"].
Proof. vm_compute. auto. Qed.



(** The same defect without equal keys: in the second race the claim of the
    forward expansion of [B] stores [B] as the parent of [A], whose child
    [B] already is; the walk of [buildPath] that follows never ends, and
    the goroutine takes no further step. *)
Lemma race_reaches_cycle :
  let run := schedule asciiToLower (raceToCycle asciiToLower) (raceStart asciiToLower) [] in
  let vF := visitedF (shared run.1) in
  vF !! "en:a" = Some (Some (node "en" "B"))
  ∧ vF !! "en:b" = Some (Some (node "en" "A"))
  ∧ (∀ fuel, walk asciiToLower fuel vF (node "en" "A") = None)
  ∧ length run.2 = 32%nat.
Proof.
  split; [by vm_compute|]. split; [by vm_compute|]. split; [|by vm_compute].
  apply parentWalk_Hangs. by vm_compute.
Qed.

(** When the forward expansion finds the end node itself, the backward
    half of [buildPath] loads the nil pointer stored for the backward root
    and dereferences it. *)
Lemma forward_meeting_on_end_panics :
  buildPath asciiToLower {["en:a" := None; "en:c" := Some (node "en" "A")]}
            {["en:c" := None]} (node "en" "C") = Panicked
  ∧ runSearch asciiToLower (wiki [page "A" ["C"] []; page "C" [] ["A"]])
              noProbe noProbe 5 "A" "C" "en" = Panicked.
Proof. split; by vm_compute. Qed.

(** ** Further concrete runs *)

Import Sample.

Lemma frontier3_heap : heapOrdered frontier3 (length frontier3).
Proof.
  intros k Hk. assert (k = 1 ∨ k = 2)%nat as [->| ->] by (simpl in Hk; lia);
    vm_compute; discriminate.
Defined.

Lemma frontier3_indexed : indexed frontier3.
Proof.
  intros k a Hk. destruct k as [|[|[|k]]]; simpl in Hk; [| | |discriminate Hk];
    injection Hk as <-; reflexivity.
Defined.

Lemma heap_Push_keeps_heap_witness :
  let pq := heap_Push frontier3 (mkNode "D" "en" 0 0) in
  heapOrdered pq (length pq) ∧ length pq = 4%nat
  ∧ bare <$> pq ≡ₚ bare <$> (mkNode "D" "en" 0 0 :: frontier3).
Proof. apply (heap_Push_keeps_heap frontier3 (mkNode "D" "en" 0 0) frontier3_heap). Defined.

Lemma heap_Pop_min_witness :
  ∃ x rest, heap_Pop frontier3 = Some (x, rest)
    ∧ (∀ a, a ∈ frontier3 -> (Priority x <= Priority a)%Z)
    ∧ heapOrdered rest (length rest)
    ∧ bare <$> (x :: rest) ≡ₚ bare <$> frontier3.
Proof. apply (heap_Pop_min frontier3 frontier3_heap). discriminate. Defined.

Lemma heap_keeps_Index_witness :
  (∀ x, indexed (heap_Push frontier3 x))
  ∧ (∀ x rest, heap_Pop frontier3 = Some (x, rest) -> Index x = (-1)%Z ∧ indexed rest).
Proof. apply (heap_keeps_Index frontier3 frontier3_indexed). Defined.

Lemma drain_partition_witness :
  let r := drain 2 frontier3 [] in
  article <$> frontier3 ≡ₚ (grouped r.1 ++ (article <$> r.2))%list
  ∧ length (grouped r.1) = 2%nat
  ∧ NoDup (r.1.*1) ∧ Forall (fun g => g.2 ≠ []) r.1.
Proof.
  intros r. apply (drain_partition 2 frontier3 r.1 r.2). vm_compute. reflexivity.
Defined.

Lemma parents2_treeLike : treeLike asciiToLower parents2.
Proof.
  split.
  - intros k p Hk. unfold parents2 in *.
    apply lookup_insert_Some in Hk as [[<- [= <-]]|[_ Hk]].
    + exists None. vm_compute. reflexivity.
    + apply lookup_singleton_Some in Hk as [_ [=]].
  - exists (fun k => if String.eqb k "en:b" then 1%nat else 0%nat).
    intros k p Hk. unfold parents2 in *.
    apply lookup_insert_Some in Hk as [[<- [= <-]]|[_ Hk]].
    + vm_compute. constructor.
    + apply lookup_singleton_Some in Hk as [_ [=]].
Defined.

Lemma parentWalk_chain_witness :
  let l := [node "en" "B"; node "en" "A"] in
  head l = Some (node "en" "B")
  ∧ (∀ i x y, l !! i = Some x -> l !! S i = Some y ->
              parents2 !! Key asciiToLower x = Some (Some y))
  ∧ (∃ z, last l = Some z
          ∧ (parents2 !! Key asciiToLower z = None ∨ parents2 !! Key asciiToLower z = Some None))
  ∧ NoDup (Key asciiToLower <$> l)
  ∧ (length l <= S (size parents2))%nat.
Proof.
  intros l. apply (parentWalk_chain asciiToLower parents2 (node "en" "B") l).
  vm_compute. reflexivity.
Defined.

Lemma treeLike_walks_end_witness :
  (∃ fwd, forwardList asciiToLower parents2 (node "en" "B") = Returned fwd)
  ∧ backwardList asciiToLower parents2 (node "en" "B") ≠ Hangs
  ∧ buildPath asciiToLower parents2 parents2 (node "en" "B") ≠ Hangs.
Proof.
  apply (treeLike_walks_end asciiToLower parents2 parents2 (node "en" "B")
           parents2_treeLike parents2_treeLike).
Defined.

Lemma LoadOrStore_keeps_treeLike_witness :
  let st' := setMap VisitedF (<["en:c" := Some (node "en" "B")]> parents2) seeded2 in
  treeLike asciiToLower (getMap VisitedF st')
  ∧ (false = true -> st' = seeded2)
  ∧ (false = false -> getMap VisitedF st' = <["en:c" := Some (node "en" "B")]> parents2).
Proof.
  intros st'.
  apply (LoadOrStore_keeps_treeLike asciiToLower VisitedF "en:c" (node "en" "B")
           garbage seeded2 false st').
  - exact parents2_treeLike.
  - exists (Some (node "en" "A")). vm_compute. reflexivity.
  - vm_compute. reflexivity.
Defined.

Lemma fetch_frame_witness :
  let s := searcherFor asciiToLower "en" "A" "en" "C" in
  let st' := afterFailure (Response 200 None) ["A"] "en" "F" newState in
  getMap (other "F") st' = getMap (other "F") newState
  ∧ (found st' = found newState ->
       result st' = result newState
       ∧ ∀ k v, getMap (own "F") newState !! k = Some v -> getMap (own "F") st' !! k = Some v)
  ∧ (found newState = true ∨ ["A"] = [] -> @nil WikiNode = [] ∧ st' = newState).
Proof.
  intros s st'. apply (fetch_frame asciiToLower garbage s ["A"] "en" "F" newState [] st').
  vm_compute. reflexivity.
Defined.

Lemma path_iff_found_witness :
  match runSearch asciiToLower (wiki chain) noProbe noProbe 5 "A" "C" "en" with
  | Returned (path, st') =>
    searches asciiToLower (wiki chain) noProbe noProbe 5 "A" "C" "en" path st'
    ∧ path = result st' ∧ (found st' = true <-> path ≠ [])
  | _ => False
  end.
Proof.
  destruct (runSearch asciiToLower (wiki chain) noProbe noProbe 5 "A" "C" "en")
    as [[path st']| |] eqn:E.
  - pose proof (runD_runsD _ _ _ _ _ _ E) as Hrun. split; [exact Hrun|].
    apply (path_iff_found asciiToLower (wiki chain) noProbe noProbe 5 "A" "C" "en");
      [vm_compute; discriminate|exact Hrun].
  - vm_compute in E. discriminate E.
  - vm_compute in E. discriminate E.
Defined.


Lemma buildWikiURL_injective_witness : "AC/DC (band)" = "AC/DC (band)".
Proof. apply (buildWikiURL_injective "en"). reflexivity. Defined.

Lemma get_reply_follows_found_witness :
  let query : gmap string string := {["from" := "A"; "to" := "C"]} in
  match SearchPathGet asciiToLower Z (fun _ => "") id query (wiki chain) noProbe noProbe 5 0 with
  | Returned reply =>
    ∃ path st',
      runSearch asciiToLower (wiki chain) noProbe noProbe 5 "A" "C" "ru" = Returned (path, st')
      ∧ (statusOf Z reply = 404%Z <-> found st' = false)
      ∧ (statusOf Z reply = 200%Z <-> found st' = true)
      ∧ ∀ body, reply = Found Z body ->
          RequestCount Z (Stats Z body) = reqCount st'
          ∧ (0 <= RequestCount Z (Stats Z body) <= Z.of_nat (2 + 2 * maxPerRound * 5))%Z
  | _ => False
  end.
Proof.
  intros query.
  destruct (SearchPathGet asciiToLower Z (fun _ => "") id query (wiki chain) noProbe noProbe 5 0)
    as [reply| |] eqn:E.
  - apply (get_reply_follows_found asciiToLower Z (fun _ => "") id query (wiki chain)
             noProbe noProbe 5 0 reply); [discriminate|discriminate| |exact E].
    vm_compute. discriminate.
  - vm_compute in E. discriminate E.
  - vm_compute in E. discriminate E.
Defined.


Lemma handlers_wellFormed_witness :
  let query : gmap string string := {["from" := "A"; "to" := "C"]} in
  match SearchPathGet asciiToLower Z (fun _ => "") id query (wiki chain) noProbe noProbe 5 0 with
  | Returned (Found _ body) => wellFormed Z body
  | _ => False
  end.
Proof.
  intros query.
  destruct (SearchPathGet asciiToLower Z (fun _ => "") id query (wiki chain) noProbe noProbe 5 0)
    as [[status err|body]| |] eqn:E.
  - vm_compute in E. discriminate E.
  - exact (proj2 (handlers_wellFormed asciiToLower Z (fun _ => "") id (wiki chain)
                    noProbe noProbe 5 0 body) query E).
  - vm_compute in E. discriminate E.
  - vm_compute in E. discriminate E.
Defined.

Lemma handlers_agree_witness :
  SearchPath asciiToLower Z (fun _ => "") id (Some (mkRequest "A" "C" ""))
    (wiki chain) noProbe noProbe 5 0
  = SearchPathGet asciiToLower Z (fun _ => "") id (asQuery (mkRequest "A" "C" ""))
      (wiki chain) noProbe noProbe 5 0.
Proof.
  apply (proj1 (handlers_agree asciiToLower Z (fun _ => "") id (mkRequest "A" "C" "")
                  (wiki chain) noProbe noProbe 5 0)).
  split; discriminate.
Defined.
